(** * The Rokid open-voice speech session engine and its dispatcher

    A shallow embedding of [jni/speech/src/speech/speech_impl.cc]
    (class [SpeechImpl]), of the response loop and the event switch of
    [jni/main/VoiceService.cpp] and of [jni/main/EventTypes.h].

    The engine state is a record of the fields of [SpeechImpl]; every
    member function is a function on that record that also returns the
    actions it takes on the transport, the condition variables and the
    threads.  Threads are modelled by interleaving: a critical section of
    the source is one atomic step, and a run of the engine is a list of
    such steps.  A failed [assert] or a null dereference stops the run
    ([None]), and so does a call that does not return: [release] stays in
    the join of the sender thread for as long as that thread cannot leave
    its loop.

    The stream queue and the operation controller are declared in headers
    that are not among the sources; they are modelled from the
    specification, and every such definition says so. *)

From Stdlib Require Import ZArith List String Bool Lia.
Import ListNotations.
Local Open Scope string_scope.
Local Open Scope list_scope.
Local Open Scope Z_scope.

Set Implicit Arguments.

(** ** Enumerations of the speech library *)

(** [enum class SpeechStatus], the status of an operation. *)
Module SpeechStatus.
Inductive t := START | STREAMING | END | CANCELLED | ERROR.

Definition eqb (a b : t) : bool :=
  match a, b with
  | START, START | STREAMING, STREAMING | END, END
  | CANCELLED, CANCELLED | ERROR, ERROR => true
  | _, _ => false
  end.
End SpeechStatus.

(** [enum class SpeechReqType], the kind of a queued request. *)
Module SpeechReqType.
Inductive t := TEXT | VOICE_START | VOICE_END | VOICE_DATA | CANCELLED.
End SpeechReqType.

(** [rokid::open::ReqType], the type field of a wire message. *)
Module ReqType.
Inductive t := TEXT | START | VOICE | END.
End ReqType.

(** [SpeechResultType], the type of a poll result. *)
Inductive SpeechResultType :=
| SPEECH_RES_INTER
| SPEECH_RES_START
| SPEECH_RES_END
| SPEECH_RES_CANCELLED
| SPEECH_RES_ERROR.

(** Modelled from the spec: the enumerators' integer values are declared in
    a header that is not part of the sources.  The spec's section 4.4 reads
    the test [type >= SPEECH_RES_END] of [poll] as "END, CANCELLED, ERROR",
    which is the order of the table in [poptype_to_restype]. *)
Definition restype_code (t : SpeechResultType) : Z :=
  match t with
  | SPEECH_RES_INTER => 0
  | SPEECH_RES_START => 1
  | SPEECH_RES_END => 2
  | SPEECH_RES_CANCELLED => 3
  | SPEECH_RES_ERROR => 4
  end.

(** [res.type >= SPEECH_RES_END] *)
Definition is_terminal (t : SpeechResultType) : bool :=
  restype_code SPEECH_RES_END <=? restype_code t.

(** [SpeechError], the error of a poll result. *)
Inductive SpeechError :=
| SPEECH_SUCCESS
| SPEECH_UNAUTHENTICATED
| SPEECH_CONNECTION_EXCEED
| SPEECH_SERVER_RESOURCE_EXHASTED
| SPEECH_SERVER_BUSY
| SPEECH_SERVER_INTERNAL
| SPEECH_SERVICE_UNAVAILABLE
| SPEECH_SDK_CLOSED
| SPEECH_TIMEOUT
| SPEECH_UNKNOWN.

(** [ConnectionOpResult], what the transport answers to send and recv. *)
Inductive ConnectionOpResult :=
| CONN_SUCCESS
| CONN_NOT_AVAILABLE
| CONN_NOT_READY
| CONN_TIMEOUT
| CONN_BROKEN
| CONN_UNKNOWN.

(** ** The static helpers of speech_impl.cc *)

(** The table [_tps] of [poptype_to_restype]. *)
Definition poptype_tps : list SpeechResultType :=
  [ SPEECH_RES_INTER; SPEECH_RES_START; SPEECH_RES_END;
    SPEECH_RES_CANCELLED; SPEECH_RES_ERROR ].

(** [poptype_to_restype]: the table look-up; [None] is the failed
    [assert(type >= 0 && type < sizeof(_tps)/sizeof(SpeechResultType))]. *)
Definition poptype_to_restype (type : Z) : option SpeechResultType :=
  if (0 <=? type) && (type <? Z.of_nat (List.length poptype_tps))
  then nth_error poptype_tps (Z.to_nat type)
  else None.

(** The table [_tps] of [sqtype_to_reqtype]. *)
Definition sqtype_tps : list SpeechReqType.t :=
  [ SpeechReqType.VOICE_DATA; SpeechReqType.VOICE_START;
    SpeechReqType.VOICE_END; SpeechReqType.CANCELLED ].

(** [sqtype_to_reqtype], with its [assert] as [None]. *)
Definition sqtype_to_reqtype (type : Z) : option SpeechReqType.t :=
  if (0 <=? type) && (type <? Z.of_nat (List.length sqtype_tps))
  then nth_error sqtype_tps (Z.to_nat type)
  else None.

(** [integer_to_reserr]: the [switch] over the wire result code (a
    [uint32_t]; the function only compares it with constants). *)
Definition integer_to_reserr (err : Z) : SpeechError :=
  match err with
  | 0 => SPEECH_SUCCESS
  | 2 => SPEECH_UNAUTHENTICATED
  | 3 => SPEECH_CONNECTION_EXCEED
  | 4 => SPEECH_SERVER_RESOURCE_EXHASTED
  | 5 => SPEECH_SERVER_BUSY
  | 6 => SPEECH_SERVER_INTERNAL
  | 101 => SPEECH_SERVICE_UNAVAILABLE
  | 102 => SPEECH_SDK_CLOSED
  | _ => SPEECH_UNKNOWN
  end.

(** The error-code table as section 4.4 of the specification prints it
    (wire code, meaning); a code that is not listed means UNKNOWN. *)
Definition reserr_spec_table : list (Z * SpeechError) :=
  [ (0, SPEECH_SUCCESS); (2, SPEECH_UNAUTHENTICATED);
    (3, SPEECH_CONNECTION_EXCEED); (4, SPEECH_SERVER_RESOURCE_EXHASTED);
    (5, SPEECH_SERVER_BUSY); (6, SPEECH_SERVER_INTERNAL);
    (101, SPEECH_SERVICE_UNAVAILABLE); (102, SPEECH_SDK_CLOSED) ].

Fixpoint table_lookup (code : Z) (tbl : list (Z * SpeechError)) : SpeechError :=
  match tbl with
  | [] => SPEECH_UNKNOWN
  | (c, e) :: tbl' => if code =? c then e else table_lookup code tbl'
  end.

(** ** The stream queue

    [voice_reqs_] and [responses_] are instances of one queue class whose
    header is not part of the sources. *)
Module StreamQueue.

(** Modelled from the spec: the codes that [pop] returns.  The codes 0..4
    are the indices of the two [_tps] tables of speech_impl.cc; the
    header that declares [POP_TYPE_EMPTY] and the code of a closed queue
    is missing.  [send_reqs] treats every negative code as "no request",
    so both are negative. *)
Definition POP_TYPE_DATA : Z := 0.
Definition POP_TYPE_START : Z := 1.
Definition POP_TYPE_END : Z := 2.
Definition POP_TYPE_REMOVED : Z := 3.
Definition POP_TYPE_ERROR : Z := 4.
Definition POP_TYPE_EMPTY : Z := -1.
Definition POP_TYPE_DRAINED : Z := -2.

Section Queue.
Variables T A : Type.

(** Modelled from the spec: "stores, per session id, a finite sequence of
    (marker, payload) entries".  One queued entry of a session is a
    life-cycle marker with its payload; [Erased err] is what
    [erase(id, err)] leaves behind. *)
Inductive entry :=
| Start
| Data (d : T)
| End (d : option T)
| Erased (err : Z).

(** Modelled from the spec: an admitted session, with its id, whether
    [end] was called for it, and its [arg]. *)
Record stream := { st_id : Z; st_ended : bool; st_arg : option A }.

(** Modelled from the spec: the queue holds the admitted sessions and the
    entries of all sessions in the order in which they were queued;
    [closed] is set by [close]. *)
Record t := {
  closed : bool;
  streams : list stream;
  items : list (Z * entry) }.

(** Modelled from the spec: a newly constructed queue. *)
Definition empty : t :=
  {| closed := false; streams := []; items := [] |}.

(** Modelled from the spec: whether the id is admitted ("present"). *)
Definition find_stream (id : Z) (q : t) : option stream :=
  find (fun s => st_id s =? id) (streams q).

(** Modelled from the spec: "whether any entries remained" for the id. *)
Definition has_items (id : Z) (q : t) : bool :=
  existsb (fun e => fst e =? id) (items q).

(** Modelled from the spec: "the queue forgets that id". *)
Definition forget (id : Z) (ss : list stream) : list stream :=
  filter (fun s => negb (st_id s =? id)) ss.

(** Modelled from the spec: "drops buffered bodies" of the id. *)
Definition drop_items (id : Z) (l : list (Z * entry)) : list (Z * entry) :=
  filter (fun e => negb (fst e =? id)) l.

(** Modelled from the spec: "[start(id)] admits a new id (fails if
    closed or id already present)"; the START marker is queued. *)
Definition start (id : Z) (q : t) : bool * t :=
  if closed q then (false, q)
  else match find_stream id q with
       | Some _ => (false, q)
       | None =>
           (true, {| closed := closed q;
                     streams := streams q ++
                       [{| st_id := id; st_ended := false; st_arg := None |}];
                     items := items q ++ [(id, Start)] |})
       end.

(** Modelled from the spec: the per-id [arg], "set by the producer at
    start and retrieved by the consumer". *)
Definition set_arg (id : Z) (a : A) (q : t) : t :=
  {| closed := closed q;
     streams := map (fun s => if st_id s =? id
                              then {| st_id := st_id s;
                                      st_ended := st_ended s;
                                      st_arg := Some a |}
                              else s) (streams q);
     items := items q |}.

Definition get_arg (id : Z) (q : t) : option A :=
  match find_stream id q with
  | Some s => st_arg s
  | None => None
  end.

(** Modelled from the spec: "[stream(id, bytes)] appends a DATA entry
    iff the id is admitted and not yet ended". *)
Definition stream_ (id : Z) (d : T) (q : t) : bool * t :=
  match find_stream id q with
  | Some s =>
      if st_ended s then (false, q)
      else (true, {| closed := closed q; streams := streams q;
                     items := items q ++ [(id, Data d)] |})
  | None => (false, q)
  end.

(** Modelled from the spec: "[end(id)] appends an END entry and closes
    the id to further DATA"; "silently dropped on unknown id". *)
Definition end_ (id : Z) (d : option T) (q : t) : bool * t :=
  match find_stream id q with
  | Some s =>
      if st_ended s then (false, q)
      else (true,
            {| closed := closed q;
               streams := map (fun s => if st_id s =? id
                                        then {| st_id := st_id s;
                                                st_ended := true;
                                                st_arg := st_arg s |}
                                        else s) (streams q);
               items := items q ++ [(id, End d)] |})
  | None => (false, q)
  end.

(** Modelled from the spec: "[erase(id)] deletes the id and returns
    whether any entries remained"; "[erase(id, errcode)] marks the id
    as errored and drops buffered bodies (a subsequent pop yields
    (id, nil, err))".  When entries remained they are replaced by one
    [Erased] marker, which the consumer pops as CANCELLED or ERROR; both
    callers in speech_impl.cc expect something to pop exactly when
    [erase] returns true. *)
Definition erase (id : Z) (err : Z) (q : t) : bool * t :=
  if has_items id q
  then (true, {| closed := closed q;
                 streams := forget id (streams q);
                 items := drop_items id (items q) ++ [(id, Erased err)] |})
  else (false, {| closed := closed q;
                  streams := forget id (streams q);
                  items := items q |}).

(** Modelled from the spec: "the smallest erased id". *)
Definition min_id (ids : list Z) : Z :=
  match ids with
  | [] => 0
  | i :: rest => fold_left Z.min rest i
  end.

(** Modelled from the spec: "[clear()] erases all and returns the
    smallest erased id"; 0 when no session is admitted. *)
Definition clear (q : t) : Z * t :=
  let ids := map st_id (streams q) in
  (min_id ids, fold_left (fun q' id => snd (erase id 0 q')) ids q).

(** Modelled from the spec: "[close()] causes subsequent pop to return a
    sentinel drained code". *)
Definition close (q : t) : t :=
  {| closed := true; streams := streams q; items := items q |}.

(** Modelled from the spec: the code that [pop] returns for an entry; an
    erased id pops as REMOVED when it was erased with [err = 0] (a cancel)
    and as ERROR otherwise, as in the table of [poptype_to_restype]. *)
Definition pop_code (e : entry) : Z :=
  match e with
  | Data _ => POP_TYPE_DATA
  | Start => POP_TYPE_START
  | End _ => POP_TYPE_END
  | Erased err => if err =? 0 then POP_TYPE_REMOVED else POP_TYPE_ERROR
  end.

(** Modelled from the spec: the payload that [pop] hands out, nil for a
    marker without payload. *)
Definition pop_data (e : entry) : option T :=
  match e with
  | Data d => Some d
  | End d => d
  | Start | Erased _ => None
  end.

(** Modelled from the spec: the [err] that [pop] hands out. *)
Definition pop_err (e : entry) : Z :=
  match e with
  | Erased err => err
  | _ => 0
  end.

(** Modelled from the spec: the "terminal markers" of a session. *)
Definition is_last (e : entry) : bool :=
  match e with
  | End _ | Erased _ => true
  | _ => false
  end.

(** Modelled from the spec: "[pop()] returns (id, payload, marker_kind)
    choosing the oldest entry by enqueue order across ids"; "after
    returning a terminal marker (END, CANCELLED) for a session, the
    queue forgets that id".  The second component holds the values
    written through the reference parameters [id], [item] and [err];
    they are left alone ([None]) when nothing is popped. *)
Definition pop (q : t) : (Z * option (Z * option T * Z)) * t :=
  if closed q then ((POP_TYPE_DRAINED, None), q)
  else match items q with
       | [] => ((POP_TYPE_EMPTY, None), q)
       | (id, e) :: rest =>
           ((pop_code e, Some (id, pop_data e, pop_err e)),
            {| closed := closed q;
               streams := if is_last e then forget id (streams q)
                          else streams q;
               items := rest |})
       end.
End Queue.

Arguments Start {T}.
Arguments Data {T} d.
Arguments End {T} d.
Arguments Erased {T} err.
Arguments empty {T A}.
End StreamQueue.

(** ** Data of the engine *)

(** An option bag ([Options]); the class and its [to_json_string] are not
    part of the sources, so a bag is represented by the JSON text it
    serialises to. *)
Definition Options := string.

(** [FSOptions], the [arg] of a voice session. *)
Record FSOptions := {
  framework_options : option Options;
  skill_options : option Options }.

(** [SpeechReqInfo], a request on its way to the sender. *)
Record SpeechReqInfo := {
  req_id : Z;
  req_type : SpeechReqType.t;
  req_data : option string;
  req_fsoptions : option FSOptions }.

(** [rokid::open::SpeechRequest], the wire message; a field that was not
    set is [None]. *)
Record SpeechRequest := {
  treq_id : Z;
  treq_type : ReqType.t;
  treq_asr : option string;
  treq_voice : option string;
  treq_lang : string;
  treq_codec : string;
  treq_vt : string;
  treq_framework_options : option string;
  treq_skill_options : option string }.

(** [rokid::open::SpeechResponse]; [resp_result] is the wire result code,
    [SpeechErrorCode::SUCCESS] being 0. *)
Record SpeechResponse := {
  resp_id : Z;
  resp_result : Z;
  resp_finish : bool;
  resp_asr : string;
  resp_nlp : string;
  resp_action : string;
  resp_extra : string }.

(** [SpeechResultIn], the body of a buffered response. *)
Record SpeechResultIn := {
  in_asr : string;
  in_nlp : string;
  in_action : string;
  in_extra : string }.

(** [SpeechResult], what [poll] hands to the application. *)
Record SpeechResult := {
  res_id : Z;
  res_type : SpeechResultType;
  res_err : SpeechError;
  res_asr : string;
  res_nlp : string;
  res_action : string;
  res_extra : string }.

(** [SpeechConfig]: key/value pairs, the latest [set] first. *)
Definition SpeechConfig := list (string * string).

Fixpoint config_get (c : SpeechConfig) (key default : string) : string :=
  match c with
  | [] => default
  | (k, v) :: c' => if String.eqb k key then v else config_get c' key default
  end.

(** ** The operation controller *)
Module SpeechOperationController.

(** [SpeechOperationController::Operation], with the fields that
    speech_impl.cc reads and writes. *)
Record Operation := {
  id : Z;
  status : SpeechStatus.t;
  error : SpeechError }.

(** Modelled from the spec: "Holds at most one Operation"; [armed] tells
    whether [refresh_op_time] was called for it, before which the
    time-out is infinite (section 4.3).  The class is declared in a header
    that is not part of the sources. *)
Record t := { slot : option Operation; armed : bool }.

(** Modelled from the spec: a newly constructed controller holds no
    operation. *)
Definition empty : t := {| slot := None; armed := false |}.

(** Modelled from the spec: "[current_op()] / [front_op()]: both return
    the single slot". *)
Definition current_op (c : t) : option Operation := slot c.
Definition front_op (c : t) : option Operation := slot c.

(** Modelled from the spec: "[new_op(id, status)]: requires no current
    op; installs one".  Every call in speech_impl.cc comes after a test
    or an assertion that the slot is empty. *)
Definition new_op (i : Z) (st : SpeechStatus.t) (c : t) : t :=
  {| slot := Some {| id := i; status := st; error := SPEECH_SUCCESS |};
     armed := false |}.

(** The assignment [op->status = st] through the shared pointer that
    [current_op()] returned; nothing when the slot is empty. *)
Definition set_status (st : SpeechStatus.t) (c : t) : t :=
  match slot c with
  | Some o => {| slot := Some {| id := id o; status := st; error := error o |};
                 armed := armed c |}
  | None => c
  end.

(** Modelled from the spec: "[set_op_error(err)]: transitions status ->
    ERROR, records err". *)
Definition set_op_error (err : SpeechError) (c : t) : t :=
  match slot c with
  | Some o => {| slot := Some {| id := id o; status := SpeechStatus.ERROR;
                                 error := err |};
                 armed := armed c |}
  | None => c
  end.

(** Modelled from the spec: "[cancel_op(id, cond)]: if id == 0 or
    id == current.id, transitions status -> CANCELLED and signals cond".
    The boolean tells whether [cond] was signalled. *)
Definition cancel_op (i : Z) (c : t) : t * bool :=
  match slot c with
  | Some o => if (i =? 0) || (i =? id o)
              then (set_status SpeechStatus.CANCELLED c, true)
              else (c, false)
  | None => (c, false)
  end.

(** Modelled from the spec: "[finish_op()]: transitions status -> END". *)
Definition finish_op (c : t) : t := set_status SpeechStatus.END c.

(** Modelled from the spec: "[remove_front_op()]: clears the slot". *)
Definition remove_front_op (c : t) : t := {| slot := None; armed := false |}.

(** Modelled from the spec: "[refresh_op_time()]: sets last_activity_time
    = now", which starts the deadline. *)
Definition refresh_op_time (c : t) : t :=
  match slot c with
  | Some _ => {| slot := slot c; armed := true |}
  | None => c
  end.

(** Modelled from the spec: [op_timeout() == 0], "zero means expired".
    The clock is outside the model: [elapsed] tells whether the deadline
    has passed by now. *)
Definition op_expired (elapsed : bool) (c : t) : bool :=
  match slot c with
  | Some _ => armed c && elapsed
  | None => false
  end.

(** Modelled from the spec: [wait_op_finish(id, lock)] "blocks the caller
    until the operation with id is no longer STREAMING/START (i.e., is
    END, CANCELLED, or ERROR, or no op is current)". *)
Definition op_pending (i : Z) (c : t) : bool :=
  match slot c with
  | Some o => (id o =? i)
              && (SpeechStatus.eqb (status o) SpeechStatus.START
                  || SpeechStatus.eqb (status o) SpeechStatus.STREAMING)
  | None => false
  end.
End SpeechOperationController.

Module Ctl := SpeechOperationController.
Module SQ := StreamQueue.

(** ** The engine state *)

(** Where the thread [send_reqs] stands between two critical sections. *)
Inductive SenderPc :=
| SenderIdle                         (* at the top of the loop *)
| SenderRequest (info : SpeechReqInfo)  (* about to call do_request *)
| SenderWait (id : Z).               (* inside wait_op_finish *)

(** The fields of [SpeechImpl] and the position of its sender thread. *)
Record SpeechImpl := {
  initialized_ : bool;
  next_id_ : Z;
  config_ : SpeechConfig;
  voice_reqs_ : SQ.t string FSOptions;
  text_reqs_ : list SpeechReqInfo;
  responses_ : SQ.t SpeechResultIn unit;
  controller_ : Ctl.t;
  sender_pc : SenderPc }.

(** What a step does to the world outside the engine state. *)
Inductive action :=
| ConnInitialize                  (* connection_.initialize *)
| ConnRelease                     (* connection_.release *)
| ConnSend (r : SpeechRequest)    (* connection_.send *)
| NotifyReq                       (* req_cond_.notify_one *)
| NotifyResp                      (* resp_cond_.notify_one *)
| SpawnReqThread
| SpawnRespThread
| JoinReqThread
| JoinRespThread.

(** [SpeechImpl::SpeechImpl()] *)
Definition new_speech : SpeechImpl :=
  {| initialized_ := false;
     next_id_ := 0;
     config_ := [];
     voice_reqs_ := SQ.empty;
     text_reqs_ := [];
     responses_ := SQ.empty;
     controller_ := Ctl.empty;
     sender_pc := SenderIdle |}.

Definition set_initialized (b : bool) (s : SpeechImpl) : SpeechImpl :=
  {| initialized_ := b; next_id_ := next_id_ s; config_ := config_ s;
     voice_reqs_ := voice_reqs_ s; text_reqs_ := text_reqs_ s;
     responses_ := responses_ s; controller_ := controller_ s;
     sender_pc := sender_pc s |}.

Definition set_next_id (n : Z) (s : SpeechImpl) : SpeechImpl :=
  {| initialized_ := initialized_ s; next_id_ := n; config_ := config_ s;
     voice_reqs_ := voice_reqs_ s; text_reqs_ := text_reqs_ s;
     responses_ := responses_ s; controller_ := controller_ s;
     sender_pc := sender_pc s |}.

Definition set_config (c : SpeechConfig) (s : SpeechImpl) : SpeechImpl :=
  {| initialized_ := initialized_ s; next_id_ := next_id_ s; config_ := c;
     voice_reqs_ := voice_reqs_ s; text_reqs_ := text_reqs_ s;
     responses_ := responses_ s; controller_ := controller_ s;
     sender_pc := sender_pc s |}.

Definition set_voice_reqs (q : SQ.t string FSOptions) (s : SpeechImpl)
  : SpeechImpl :=
  {| initialized_ := initialized_ s; next_id_ := next_id_ s;
     config_ := config_ s;
     voice_reqs_ := q; text_reqs_ := text_reqs_ s;
     responses_ := responses_ s; controller_ := controller_ s;
     sender_pc := sender_pc s |}.

Definition set_text_reqs (l : list SpeechReqInfo) (s : SpeechImpl)
  : SpeechImpl :=
  {| initialized_ := initialized_ s; next_id_ := next_id_ s;
     config_ := config_ s;
     voice_reqs_ := voice_reqs_ s; text_reqs_ := l;
     responses_ := responses_ s; controller_ := controller_ s;
     sender_pc := sender_pc s |}.

Definition set_responses (q : SQ.t SpeechResultIn unit) (s : SpeechImpl)
  : SpeechImpl :=
  {| initialized_ := initialized_ s; next_id_ := next_id_ s;
     config_ := config_ s;
     voice_reqs_ := voice_reqs_ s; text_reqs_ := text_reqs_ s;
     responses_ := q; controller_ := controller_ s;
     sender_pc := sender_pc s |}.

Definition set_controller (c : Ctl.t) (s : SpeechImpl) : SpeechImpl :=
  {| initialized_ := initialized_ s; next_id_ := next_id_ s;
     config_ := config_ s;
     voice_reqs_ := voice_reqs_ s; text_reqs_ := text_reqs_ s;
     responses_ := responses_ s; controller_ := c;
     sender_pc := sender_pc s |}.

Definition set_sender_pc (pc : SenderPc) (s : SpeechImpl) : SpeechImpl :=
  {| initialized_ := initialized_ s; next_id_ := next_id_ s;
     config_ := config_ s;
     voice_reqs_ := voice_reqs_ s; text_reqs_ := text_reqs_ s;
     responses_ := responses_ s; controller_ := controller_ s;
     sender_pc := pc |}.

(** ** The public operations of SpeechImpl *)

(** Ids are [int32_t]: the value of a 32-bit two's complement word. *)
Definition wrap32 (z : Z) : Z := (z + 2 ^ 31) mod 2 ^ 32 - 2 ^ 31.

(** Modelled from the spec: [next_id()] is declared in speech_impl.h, which
    is not part of the sources; "session id: monotonically increasing
    positive integer, allocated by the engine", counted by [next_id_],
    which [prepare] sets to 0. *)
Definition next_id (s : SpeechImpl) : Z * SpeechImpl :=
  let n := wrap32 (next_id_ s + 1) in (n, set_next_id n s).

(** [SpeechImpl::prepare] *)
Definition prepare (s : SpeechImpl) : bool * SpeechImpl * list action :=
  if initialized_ s then (true, s, [])
  else
    let s1 := set_next_id 0 s in
    let s2 := set_initialized true s1 in
    (true, set_sender_pc SenderIdle s2,
     [ConnInitialize; SpawnReqThread; SpawnRespThread]).

(** The first critical section of [release], under [req_mutex_]. *)
Definition release_req_section (s : SpeechImpl) : SpeechImpl * list action :=
  let s1 := set_initialized false s in
  let s2 := set_voice_reqs (SQ.close (voice_reqs_ s1)) s1 in
  let s3 := set_text_reqs [] s2 in
  (s3, [ConnRelease; NotifyReq]).

(** The second critical section of [release], under [resp_mutex_]. *)
Definition release_resp_section (s : SpeechImpl) : SpeechImpl * list action :=
  let s1 := set_responses (SQ.close (responses_ s)) s in
  let s2 := set_controller (Ctl.finish_op (controller_ s1)) s1 in
  (s2, [NotifyResp]).

(** Whether the thread [send_reqs] leaves its loop when [release] has
    cleared [initialized_] and notified [req_cond_]: at the top of the loop
    it sees the flag and breaks, and out of [wait_op_finish] it comes when
    the operation is no longer pending; it does not while it is about to
    call [do_request], nor while it waits for an operation that is still
    pending. *)
Definition sender_can_quit (s : SpeechImpl) : bool :=
  match sender_pc s with
  | SenderIdle => true
  | SenderRequest _ => false
  | SenderWait id => negb (Ctl.op_pending id (controller_ s))
  end.

(** [SpeechImpl::release].  The boolean tells whether the call returns.
    [req_thread_->join()] returns when the sender thread has left its
    loop; when that thread cannot ([sender_can_quit]), the call stays in
    the join, after the first critical section and before the second, and
    the state is the one that the first section left.  Each [join] is
    recorded when it is called.  The receiver thread leaves its loop when
    [connection_.recv] answers NOT_READY, which the released transport is
    taken to do. *)
Definition release (s : SpeechImpl) : bool * SpeechImpl * list action :=
  if initialized_ s then
    let '(s1, a1) := release_req_section s in
    if sender_can_quit s1 then
      let '(s2, a2) := release_resp_section s1 in
      (true, s2, a1 ++ [JoinReqThread] ++ a2 ++ [JoinRespThread])
    else (false, s1, a1 ++ [JoinReqThread])
  else (true, s, []).

(** [SpeechImpl::put_text]; [text == NULL] is [None]. *)
Definition put_text (text : option string) (s : SpeechImpl)
  : Z * SpeechImpl * list action :=
  match text with
  | None => (-1, s, [])
  | Some txt =>
      if negb (initialized_ s) then (-1, s, [])
      else
        let '(id, s1) := next_id s in
        let p := {| req_id := id; req_type := SpeechReqType.TEXT;
                    req_data := Some txt; req_fsoptions := None |} in
        (id, set_text_reqs (text_reqs_ s1 ++ [p]) s1, [NotifyReq])
  end.

(** [SpeechImpl::start_voice] *)
Definition start_voice (framework skill : option Options) (s : SpeechImpl)
  : Z * SpeechImpl * list action :=
  if negb (initialized_ s) then (-1, s, [])
  else
    let '(id, s1) := next_id s in
    let '(ok, q) := SQ.start id (voice_reqs_ s1) in
    if negb ok then (-1, s1, [])
    else
      let arg := {| framework_options := framework;
                    skill_options := skill |} in
      (id, set_voice_reqs (SQ.set_arg id arg q) s1, [NotifyReq]).

(** [SpeechImpl::put_voice]; [voice == NULL] is [None], [length] is the
    length of the chunk. *)
Definition put_voice (id : Z) (voice : option string) (s : SpeechImpl)
  : SpeechImpl * list action :=
  if negb (initialized_ s) then (s, [])
  else match voice with
       | None => (s, [])
       | Some v =>
           if (id <=? 0) || (Nat.eqb (String.length v) 0) then (s, [])
           else
             let '(ok, q) := SQ.stream_ id v (voice_reqs_ s) in
             if ok then (set_voice_reqs q s, [NotifyReq]) else (s, [])
       end.

(** [SpeechImpl::end_voice] *)
Definition end_voice (id : Z) (s : SpeechImpl) : SpeechImpl * list action :=
  if negb (initialized_ s) then (s, [])
  else if id <=? 0 then (s, [])
  else
    let '(ok, q) := SQ.end_ id None (voice_reqs_ s) in
    if ok then (set_voice_reqs q s, [NotifyReq]) else (s, []).

Definition as_cancelled (r : SpeechReqInfo) : SpeechReqInfo :=
  {| req_id := req_id r; req_type := SpeechReqType.CANCELLED;
     req_data := req_data r; req_fsoptions := req_fsoptions r |}.

(** The loop of [cancel] over [text_reqs_]: the first request of the id is
    marked CANCELLED; the boolean tells whether one was found. *)
Fixpoint cancel_text (id : Z) (l : list SpeechReqInfo)
  : bool * list SpeechReqInfo :=
  match l with
  | [] => (false, [])
  | r :: l' =>
      if req_id r =? id then (true, as_cancelled r :: l')
      else let '(found, l'') := cancel_text id l' in (found, r :: l'')
  end.

(** [SpeechImpl::cancel] *)
Definition cancel (id : Z) (s : SpeechImpl) : SpeechImpl * list action :=
  if negb (initialized_ s) then (s, [])
  else if 0 <? id then
    let '(erased, q) := SQ.erase id 0 (voice_reqs_ s) in
    let s1 := set_voice_reqs q s in
    if erased then (s1, [NotifyReq])
    else
      let '(found, l) := cancel_text id (text_reqs_ s1) in
      if found then (set_text_reqs l s1, [])
      else
        let '(c, signalled) := Ctl.cancel_op id (controller_ s1) in
        (set_controller c s1, if signalled then [NotifyResp] else [])
  else
    let '(min_id, q) := SQ.clear (voice_reqs_ s) in
    let s1 := set_voice_reqs q s in
    let s2 := set_text_reqs (map as_cancelled (text_reqs_ s1)) s1 in
    let '(c, signalled) := Ctl.cancel_op 0 (controller_ s2) in
    (set_controller c s2,
     (if 0 <? min_id then [NotifyReq] else [])
       ++ (if signalled then [NotifyResp] else [])).

(** [SpeechImpl::config]: [config_.set(key, value)] *)
Definition config (key value : string) (s : SpeechImpl) : SpeechImpl :=
  set_config ((key, value) :: config_ s) s.

(** What one pass through the loop of [poll] comes to. *)
Inductive PollOutcome :=
| PollResult (res : SpeechResult)   (* return true *)
| PollWait                          (* resp_cond_.wait(locker) *)
| PollReleased.                     (* return false *)

(** The result that the CANCELLED and ERROR branches of [poll] build: the
    body fields are the ones cleared on entry. *)
Definition bare_result (id : Z) (type : SpeechResultType) (err : SpeechError)
  : SpeechResult :=
  {| res_id := id; res_type := type; res_err := err;
     res_asr := ""; res_nlp := ""; res_action := ""; res_extra := "" |}.

(** [if (responses_.erase(op->id)) { responses_.pop(id, resin, err);
    assert(id == op->id); }]; [None] is the failed assertion. *)
Definition drain_responses (opid : Z) (q : SQ.t SpeechResultIn unit)
  : option (SQ.t SpeechResultIn unit) :=
  let '(erased, q1) := SQ.erase opid 0 q in
  if erased then
    match SQ.pop q1 with
    | ((_, Some (id, _, _)), q2) => if id =? opid then Some q2 else None
    | ((_, None), _) => None
    end
  else Some q1.

(** The last branch of the loop of [poll], taken when the operation is
    neither CANCELLED nor ERROR: the result comes from [responses_.pop];
    [None] is a failed assertion. *)
Definition poll_responses (op : Ctl.Operation) (s : SpeechImpl)
  : option (PollOutcome * SpeechImpl) :=
  let '((poptype, out), q) := SQ.pop (responses_ s) in
  if poptype =? SQ.POP_TYPE_EMPTY then Some (PollWait, s)
  else
    match out with
    | None => None
    | Some (id, resin, err) =>
        if negb (id =? Ctl.id op) then None
        else
          match poptype_to_restype poptype with
          | None => None
          | Some type =>
              let res :=
                match resin with
                | Some b =>
                    {| res_id := id; res_type := type;
                       res_err := integer_to_reserr err;
                       res_asr := in_asr b; res_nlp := in_nlp b;
                       res_action := in_action b;
                       res_extra := in_extra b |}
                | None => bare_result id type (integer_to_reserr err)
                end in
              let s1 := set_responses q s in
              let s2 :=
                if is_terminal type
                then set_controller (Ctl.remove_front_op (controller_ s1)) s1
                else s1 in
              Some (PollResult res, s2)
          end
    end.

(** [SpeechImpl::poll], one pass through its loop; [None] is a failed
    assertion. *)
Definition poll (s : SpeechImpl) : option (PollOutcome * SpeechImpl) :=
  if negb (initialized_ s) then Some (PollReleased, s)
  else
    match Ctl.front_op (controller_ s) with
    | None => Some (PollWait, s)
    | Some op =>
        match Ctl.status op with
        | SpeechStatus.CANCELLED =>
            match drain_responses (Ctl.id op) (responses_ s) with
            | None => None
            | Some q =>
                let s1 := set_responses q s in
                let s2 := set_controller
                            (Ctl.remove_front_op (controller_ s1)) s1 in
                Some (PollResult (bare_result (Ctl.id op) SPEECH_RES_CANCELLED
                                              SPEECH_SUCCESS), s2)
            end
        | SpeechStatus.ERROR =>
            match drain_responses (Ctl.id op) (responses_ s) with
            | None => None
            | Some q =>
                let s1 := set_responses q s in
                let s2 := set_controller
                            (Ctl.remove_front_op (controller_ s1)) s1 in
                Some (PollResult (bare_result (Ctl.id op) SPEECH_RES_ERROR
                                              (Ctl.error op)), s2)
            end
        | _ => poll_responses op s
        end
    end.

(** ** The sender thread *)

(** [SpeechImpl::do_ctl_change_op]; [None] is a failed assertion. *)
Definition do_ctl_change_op (req : SpeechReqInfo) (s : SpeechImpl)
  : option (bool * SpeechImpl * list action) :=
  let op := Ctl.current_op (controller_ s) in
  match req_type req with
  | SpeechReqType.TEXT | SpeechReqType.VOICE_START =>
      match op with
      | Some _ => None
      | None =>
          Some (true,
                set_controller
                  (Ctl.new_op (req_id req) SpeechStatus.START (controller_ s)) s,
                [])
      end
  | SpeechReqType.VOICE_END | SpeechReqType.VOICE_DATA =>
      match op with
      | Some _ => Some (true, s, [])
      | None => Some (false, s, [])
      end
  | SpeechReqType.CANCELLED =>
      match op with
      | Some _ =>
          Some (true,
                set_controller
                  (Ctl.set_status SpeechStatus.CANCELLED (controller_ s)) s,
                [NotifyResp])
      | None =>
          Some (false,
                set_controller
                  (Ctl.new_op (req_id req) SpeechStatus.CANCELLED
                              (controller_ s)) s,
                [NotifyResp])
      end
  end.

(** A freshly constructed wire message of a given id and type. *)
Definition blank_request (id : Z) (type : ReqType.t) : SpeechRequest :=
  {| treq_id := id; treq_type := type; treq_asr := None; treq_voice := None;
     treq_lang := ""; treq_codec := ""; treq_vt := "";
     treq_framework_options := None; treq_skill_options := None |}.

(** [req_config] *)
Definition req_config (req : SpeechRequest) (framework skill : option Options)
  (c : SpeechConfig) : SpeechRequest :=
  {| treq_id := treq_id req; treq_type := treq_type req;
     treq_asr := treq_asr req; treq_voice := treq_voice req;
     treq_lang := config_get c "lang" "zh";
     treq_codec := config_get c "codec" "pcm";
     treq_vt := config_get c "vt" "";
     treq_framework_options := framework;
     treq_skill_options := skill |}.

Definition with_asr (text : string) (req : SpeechRequest) : SpeechRequest :=
  {| treq_id := treq_id req; treq_type := treq_type req;
     treq_asr := Some text; treq_voice := treq_voice req;
     treq_lang := treq_lang req; treq_codec := treq_codec req;
     treq_vt := treq_vt req;
     treq_framework_options := treq_framework_options req;
     treq_skill_options := treq_skill_options req |}.

Definition with_voice (v : string) (req : SpeechRequest) : SpeechRequest :=
  {| treq_id := treq_id req; treq_type := treq_type req;
     treq_asr := treq_asr req; treq_voice := Some v;
     treq_lang := treq_lang req; treq_codec := treq_codec req;
     treq_vt := treq_vt req;
     treq_framework_options := treq_framework_options req;
     treq_skill_options := treq_skill_options req |}.

(** The [switch] of [do_request]: the wire message and the initial [rv]
    (0 when the request is the last message of its session).  [None] is
    a null [data] or [fsoptions] pointer that the case dereferences. *)
Definition build_request (req : SpeechReqInfo) (c : SpeechConfig)
  : option (SpeechRequest * Z) :=
  match req_type req with
  | SpeechReqType.TEXT =>
      match req_data req with
      | Some text =>
          Some (req_config (with_asr text (blank_request (req_id req) ReqType.TEXT))
                           None None c, 0)
      | None => None
      end
  | SpeechReqType.VOICE_START =>
      match req_fsoptions req with
      | Some fs =>
          Some (req_config (blank_request (req_id req) ReqType.START)
                           (framework_options fs) (skill_options fs) c, 1)
      | None => None
      end
  | SpeechReqType.VOICE_END =>
      Some (blank_request (req_id req) ReqType.END, 0)
  | SpeechReqType.CANCELLED =>
      Some (blank_request (req_id req) ReqType.END, 1)
  | SpeechReqType.VOICE_DATA =>
      match req_data req with
      | Some v =>
          Some (with_voice v (blank_request (req_id req) ReqType.VOICE), 1)
      | None => None
      end
  end.

(** [SpeechImpl::do_request]; [r] is the answer of [connection_.send]. *)
Definition do_request (req : SpeechReqInfo) (r : ConnectionOpResult)
  (s : SpeechImpl) : option (Z * SpeechImpl * list action) :=
  match build_request req (config_ s) with
  | None => None
  | Some (treq, rv) =>
      match r with
      | CONN_SUCCESS =>
          if rv =? 0
          then Some (rv,
                     set_controller (Ctl.refresh_op_time (controller_ s)) s,
                     [ConnSend treq])
          else Some (rv, s, [ConnSend treq])
      | _ =>
          let err := match r with
                     | CONN_NOT_AVAILABLE => SPEECH_SERVICE_UNAVAILABLE
                     | _ => SPEECH_UNKNOWN
                     end in
          Some (-1,
                set_controller (Ctl.set_op_error err (controller_ s)) s,
                [ConnSend treq; NotifyResp])
      end
  end.

(** The request that one pass of [send_reqs] takes: from [voice_reqs_]
    when [pop] gives a code [r >= 0], else the head of [text_reqs_].
    Outer [None]: the assertion of [sqtype_to_reqtype] failed; inner
    [None]: nothing to send, the thread waits on [req_cond_]. *)
Definition next_request (s : SpeechImpl)
  : option (option SpeechReqInfo * SpeechImpl) :=
  let '((r, out), q) := SQ.pop (voice_reqs_ s) in
  if 0 <=? r then
    match out, sqtype_to_reqtype r with
    | Some (id, voice, _), Some type =>
        Some (Some {| req_id := id; req_type := type; req_data := voice;
                      req_fsoptions := SQ.get_arg id q |},
              set_voice_reqs q s)
    | _, _ => None
    end
  else
    match text_reqs_ s with
    | info :: rest => Some (Some info, set_text_reqs rest s)
    | [] => Some (None, s)
    end.

(** One step of the thread [send_reqs]: the critical section at the top of
    its loop, the call of [do_request], or the wake-up from
    [wait_op_finish].  [r] is what [connection_.send] answers if the step
    sends. *)
Definition send_reqs_step (r : ConnectionOpResult) (s : SpeechImpl)
  : option (SpeechImpl * list action) :=
  match sender_pc s with
  | SenderIdle =>
      if negb (initialized_ s) then Some (s, [])
      else
        match next_request s with
        | None => None
        | Some (None, s1) => Some (s1, [])
        | Some (Some info, s1) =>
            match do_ctl_change_op info s1 with
            | None => None
            | Some (opr, s2, acts) =>
                if opr then Some (set_sender_pc (SenderRequest info) s2, acts)
                else Some (s2, acts)
            end
        end
  | SenderRequest info =>
      match do_request info r s with
      | None => None
      | Some (rv, s1, acts) =>
          if rv =? 0
          then Some (set_sender_pc (SenderWait (req_id info)) s1, acts)
          else Some (set_sender_pc SenderIdle s1, acts)
      end
  | SenderWait id =>
      if Ctl.op_pending id (controller_ s) then Some (s, [])
      else Some (set_sender_pc SenderIdle s, [])
  end.

(** ** The receiver thread *)

(** [SpeechImpl::gen_result_by_resp] *)
Definition gen_result_by_resp (resp : SpeechResponse) (s : SpeechImpl)
  : SpeechImpl * list action :=
  match Ctl.current_op (controller_ s) with
  | None => (s, [])
  | Some op =>
      if (Ctl.id op =? resp_id resp)
         && negb (SpeechStatus.eqb (Ctl.status op) SpeechStatus.CANCELLED)
         && negb (SpeechStatus.eqb (Ctl.status op) SpeechStatus.ERROR)
      then
        let s1 :=
          if SpeechStatus.eqb (Ctl.status op) SpeechStatus.START
          then
            set_controller
              (Ctl.set_status SpeechStatus.STREAMING (controller_ s))
              (set_responses (snd (SQ.start (resp_id resp) (responses_ s))) s)
          else s in
        let s2 :=
          if resp_result resp =? 0 then
            let resin := {| in_asr := resp_asr resp; in_nlp := resp_nlp resp;
                            in_action := resp_action resp;
                            in_extra := resp_extra resp |} in
            if resp_finish resp then
              let s' := set_responses
                          (snd (SQ.end_ (resp_id resp) (Some resin)
                                        (responses_ s1))) s1 in
              let s'' := set_controller
                           (Ctl.set_status SpeechStatus.END (controller_ s')) s' in
              set_controller (Ctl.finish_op (controller_ s'')) s''
            else
              set_responses
                (snd (SQ.stream_ (resp_id resp) resin (responses_ s1))) s1
          else
            let s' := set_responses
                        (snd (SQ.erase (resp_id resp) (resp_result resp)
                                       (responses_ s1))) s1 in
            set_controller (Ctl.finish_op (controller_ s')) s' in
        (s2, [NotifyResp])
      else (s, [])
  end.

(** One pass through the loop of [gen_results] after [connection_.recv]
    answered [r] (with [resp] when it succeeded); [elapsed] tells whether
    the deadline of the operation has passed.  On NOT_READY the thread
    quits. *)
Definition gen_results_step (r : ConnectionOpResult) (resp : SpeechResponse)
  (elapsed : bool) (s : SpeechImpl) : SpeechImpl * list action :=
  match r with
  | CONN_NOT_READY => (s, [])
  | CONN_SUCCESS => gen_result_by_resp resp s
  | CONN_TIMEOUT =>
      if Ctl.op_expired elapsed (controller_ s)
      then (set_controller (Ctl.set_op_error SPEECH_TIMEOUT (controller_ s)) s,
            [NotifyResp])
      else (s, [])
  | CONN_BROKEN =>
      (set_controller
         (Ctl.set_op_error SPEECH_SERVICE_UNAVAILABLE (controller_ s)) s,
       [NotifyResp])
  | _ =>
      (set_controller (Ctl.set_op_error SPEECH_UNKNOWN (controller_ s)) s,
       [NotifyResp])
  end.

(** ** Runs of the engine *)

(** The steps that the threads of a process take on one engine: the calls
    of the public interface, and one step of each internal thread. *)
Inductive event :=
| EPrepare
| ERelease
| EConfig (key value : string)
| EPutText (text : option string)
| EStartVoice (framework skill : option Options)
| EPutVoice (id : Z) (voice : option string)
| EEndVoice (id : Z)
| ECancel (id : Z)
| EPoll
| ESendReqs (r : ConnectionOpResult)
| EGenResults (r : ConnectionOpResult) (resp : SpeechResponse)
              (elapsed : bool).

(** What a run shows: the id that an allocating call returned, the result
    that a [poll] returned, and the actions on the world outside. *)
Inductive obs :=
| Returned (id : Z)
| Polled (res : SpeechResult)
| PollFalse
| Did (a : action).

(** One step; [None] when an assertion fails, and for a call of [release]
    that does not return: the runs are those in which every call
    returns. *)
Definition step (e : event) (s : SpeechImpl) : option (SpeechImpl * list obs) :=
  match e with
  | EPrepare =>
      let '(_, s1, acts) := prepare s in Some (s1, map Did acts)
  | ERelease =>
      let '(returned, s1, acts) := release s in
      if returned then Some (s1, map Did acts) else None
  | EConfig k v => Some (config k v s, [])
  | EPutText text =>
      let '(id, s1, acts) := put_text text s in
      Some (s1, Returned id :: map Did acts)
  | EStartVoice fo so =>
      let '(id, s1, acts) := start_voice fo so s in
      Some (s1, Returned id :: map Did acts)
  | EPutVoice id v =>
      let '(s1, acts) := put_voice id v s in Some (s1, map Did acts)
  | EEndVoice id =>
      let '(s1, acts) := end_voice id s in Some (s1, map Did acts)
  | ECancel id =>
      let '(s1, acts) := cancel id s in Some (s1, map Did acts)
  | EPoll =>
      match poll s with
      | None => None
      | Some (PollResult res, s1) => Some (s1, [Polled res])
      | Some (PollWait, s1) => Some (s1, [])
      | Some (PollReleased, s1) => Some (s1, [PollFalse])
      end
  | ESendReqs r =>
      match send_reqs_step r s with
      | None => None
      | Some (s1, acts) => Some (s1, map Did acts)
      end
  | EGenResults r resp elapsed =>
      let '(s1, acts) := gen_results_step r resp elapsed s in
      Some (s1, map Did acts)
  end.

Fixpoint run (evs : list event) (s : SpeechImpl)
  : option (SpeechImpl * list obs) :=
  match evs with
  | [] => Some (s, [])
  | e :: evs' =>
      match step e s with
      | None => None
      | Some (s1, o1) =>
          match run evs' s1 with
          | None => None
          | Some (s2, o2) => Some (s2, o1 ++ o2)
          end
      end
  end.

(** The states that an engine constructed by [new_speech] can be in. *)
Definition reachable (s : SpeechImpl) : Prop :=
  exists evs o, run evs new_speech = Some (s, o).

(** The poll results of a run, as (id, type). *)
Fixpoint polled (o : list obs) : list (Z * SpeechResultType) :=
  match o with
  | [] => []
  | Polled res :: o' => (res_id res, res_type res) :: polled o'
  | _ :: o' => polled o'
  end.

(** The types of the poll results of one id. *)
Definition types_of (id : Z) (l : list (Z * SpeechResultType))
  : list SpeechResultType :=
  map snd (filter (fun r => fst r =? id) l).

(** The ids that the allocating calls of a run returned. *)
Fixpoint returned (o : list obs) : list Z :=
  match o with
  | [] => []
  | Returned id :: o' => id :: returned o'
  | _ :: o' => returned o'
  end.

Definition mk_resp (id code : Z) (finish : bool) (asr nlp act extra : string)
  : SpeechResponse :=
  {| resp_id := id; resp_result := code; resp_finish := finish;
     resp_asr := asr; resp_nlp := nlp; resp_action := act;
     resp_extra := extra |}.

(** ** EventTypes.h *)
Module EventTypes.

(** [enum VoiceEvent]: the enumerators in the order of the declaration,
    with the values that C++ gives them. *)
Definition VoiceEvent : list (string * Z) :=
  [ ("VOICE_COMING", 0);
    ("VOICE_START", 1);
    ("VOICE_ACCEPT", 2);
    ("VOICE_REJECT", 3);
    ("VOICE_CANCEL", 4) ].

(** [enum ASRResultType] *)
Definition ASRResultType : list (string * Z) :=
  [ ("ASR_INTER_RESULT_BEGIN", 0); ("ASR_INTER_RESULT_END", 2) ].

(** [enum SpeechError] of the namespace openvoice_process *)
Definition SpeechError : list (string * Z) :=
  [ ("SPEECH_ERROR_UNAVAILABLE", 101); ("SPEECH_ERROR_TIMEOUT", 103) ].

(** The value of the qualified name [E::name], if [E] declares it. *)
Fixpoint enumerator (E : list (string * Z)) (name : string) : option Z :=
  match E with
  | [] => None
  | (n, v) :: E' => if String.eqb n name then Some v else enumerator E' name
  end.

Definition declares (E : list (string * Z)) (name : string) : bool :=
  match enumerator E name with
  | Some _ => true
  | None => false
  end.
End EventTypes.

(** ** VoiceService.cpp *)
Module VoiceService.

(** The kinds of front-end events that [onEvent] switches over. *)
Inductive siren_event :=
| SIREN_EVENT_WAKE_PRE
| SIREN_EVENT_WAKE_CMD
| SIREN_EVENT_VAD_START
| SIREN_EVENT_VAD_DATA
| SIREN_EVENT_VAD_END
| SIREN_EVENT_VAD_CANCEL
| SIREN_EVENT_VOICE_PRINT
| SIREN_EVENT_SLEEP
| SIREN_EVENT_OTHER.

(** How the source names the event kind that it passes to [voice_event]:
    a qualified enumerator [VoiceEvent::name], or the result of
    [transform_string_to_event] (not part of the sources) on the
    activation string. *)
Inductive event_kind :=
| Enumerator (name : string)
| Transformed (activation : string).

Section Dispatcher.
(** The type of the sound location [sl] and of the energy of a voice
    trigger (a C [double]); the values are only passed on. *)
Variable double : Type.
(** [snprintf] with ["%d"] and ["%F"]. *)
Variable format_int : Z -> string.
Variable format_double : double -> string.
(** [Options::to_json_string] on the pairs that were [set], oldest
    first. *)
Variable to_json_string : list (string * string) -> string.
(** [json_tokener_parse] and [json_object_object_get_ex] for the key
    ["activation"], with [json_object_get_string] on the value. *)
Variable json_activation : string -> option string.
(** [_voice_config->cloud_vad_enable()] *)
Variable cloud_vad_enable : bool.

(** [voice_event_t] with the flag bits [HAS_VOICE] and [HAS_VT]. *)
Record voice_event_t := {
  event : siren_event;
  has_voice : bool;
  has_vt_flag : bool;
  sl : double;
  buff : string;
  vt_start_of : Z;
  vt_end_of : Z;
  vt_energy_of : double }.

(** What the dispatcher calls on the application and on the siren. *)
Inductive call :=
| voice_event (id : Z) (kind : event_kind) (sl : option double)
| intermediate_result (id : Z) (type : SpeechResultType) (asr : string)
| voice_command (id : Z) (asr nlp action : string)
| speech_error (id : Z) (err : SpeechError)
| set_siren_state_sleep.

(** The members of [VoiceService] that the two loops use; [vt] is the
    pending voice-trigger record ([has_vt] when it is [Some]). *)
Record t := {
  session_id : Z;
  asr_finished : bool;
  vt : option (Z * Z * double * string);
  appid : string;
  speech_prepared : bool;         (* mCurrentSpeechState == PREPARED *)
  _speech : SpeechImpl }.

Definition with_session (id : Z) (asrf : bool) (v : t) : t :=
  {| session_id := id; asr_finished := asrf; vt := vt v;
     appid := appid v; speech_prepared := speech_prepared v;
     _speech := _speech v |}.

Definition with_speech (s : SpeechImpl) (v : t) : t :=
  {| session_id := session_id v; asr_finished := asr_finished v;
     vt := vt v; appid := appid v;
     speech_prepared := speech_prepared v; _speech := s |}.

Definition with_vt (x : option (Z * Z * double * string)) (v : t) : t :=
  {| session_id := session_id v; asr_finished := asr_finished v;
     vt := x; appid := appid v;
     speech_prepared := speech_prepared v; _speech := _speech v |}.

(** Modelled from the spec: [clear()] and [clear(id)] are not part of
    the sources; "clear session", the session id being "-1 means
    none", and "any terminal result clears the per-session state for
    that id". *)
Definition clear (v : t) : t := with_session (-1) (asr_finished v) v.
Definition clear_id (id : Z) (v : t) : t :=
  if session_id v =? id then clear v else v.

(** [VoiceService::vad_start] *)
Definition vad_start (v : t) : Z * t :=
  if speech_prepared v then
    let trigger :=
      match vt v with
      | Some (s, e, energy, data) =>
          [ ("voice_trigger", data);
            ("trigger_start", format_int s);
            ("trigger_length", format_int (e - s));
            ("voice_power", format_double energy) ]
      | None => []
      end in
    let options := to_json_string (trigger ++ [("stack", appid v)]) in
    let '(id, s1, _) := start_voice (Some options) None (_speech v) in
    (id, with_speech s1 (with_vt None v))
  else (-1, v).

(** [VoiceService::voice_print] *)
Definition voice_print (e : voice_event_t) (v : t) : t :=
  if has_vt_flag e
  then with_vt (Some (vt_start_of e, vt_end_of e, vt_energy_of e, buff e)) v
  else v.

(** The [switch] of [VoiceService::onEvent] on one event. *)
Definition onEvent (e : voice_event_t) (v : t) : t * list call :=
  match event e with
  | SIREN_EVENT_WAKE_PRE =>
      (v, [voice_event (-1) (Enumerator "VOICE_COMING") (Some (sl e))])
  | SIREN_EVENT_WAKE_CMD =>
      (v, [voice_event (-1) (Enumerator "VOICE_LOCAL_WAKE") (Some (sl e))])
  | SIREN_EVENT_VAD_START =>
      if session_id v <? 0 then
        let '(id, v1) := vad_start v in
        (with_session id (asr_finished v1) v1,
         [voice_event id (Enumerator "VOICE_START") None])
      else (v, [])
  | SIREN_EVENT_VAD_DATA =>
      if (0 <? session_id v) && has_voice e
      then (with_speech
              (fst (put_voice (session_id v) (Some (buff e)) (_speech v))) v,
            [])
      else (v, [])
  | SIREN_EVENT_VAD_END =>
      if negb cloud_vad_enable then
        let v1 := if 0 <? session_id v
                  then with_speech
                         (fst (end_voice (session_id v) (_speech v))) v
                  else v in
        (clear v1, [])
      else (v, [])
  | SIREN_EVENT_VAD_CANCEL =>
      let v1 := if (0 <? session_id v) && negb (asr_finished v)
                then with_speech
                       (fst (cancel (session_id v) (_speech v))) v
                else v in
      let v2 := with_session (session_id v1) false v1 in
      (if negb cloud_vad_enable then clear v2 else v2, [])
  | SIREN_EVENT_VOICE_PRINT => (voice_print e v, [])
  | SIREN_EVENT_SLEEP =>
      if negb cloud_vad_enable
      then (v, [voice_event (session_id v) (Enumerator "VOICE_SLEEP") None])
      else (v, [])
  | SIREN_EVENT_OTHER => (v, [])
  end.

(** The lambda [arbitration] of [onResponse]. *)
Definition arbitration (activation : string) : bool :=
  String.eqb "fake" activation || String.eqb "reject" activation.

(** The local variables [activation] and [asr] of [onResponse], which
    live across the passes of its loop. *)
Record locals := { activation : string; asr : string }.

Definition locals_init : locals := {| activation := ""; asr := "" |}.

Definition is_empty (s : string) : bool :=
  match s with
  | EmptyString => true
  | _ => false
  end.

(** One pass through the loop of [VoiceService::onResponse] with the
    result [sr] that [poll] returned. *)
Definition onResponse_step (sr : SpeechResult) (st : t * locals)
  : (t * locals) * list call :=
  let '(v, l) := st in
  (* first if / else if *)
  let '(v1, l1, c1) :=
    match res_type sr with
    | SPEECH_RES_START =>
        (with_session (session_id v) false v,
         {| activation := ""; asr := asr l |}, [])
    | SPEECH_RES_INTER | SPEECH_RES_END =>
        if negb (is_empty (res_extra sr)) then
          match json_activation (res_extra sr) with
          | Some a =>
              ((v, {| activation := a; asr := asr l |}),
               voice_event (res_id sr) (Transformed a) None
                 :: (if arbitration a then [set_siren_state_sleep] else []))
          | None => (v, l, [])
          end
        else (v, l, [])
    | _ => (v, l, [])
    end in
  (* if (!arbitration(activation)) *)
  let '(v2, l2, c2) :=
    if negb (arbitration (activation l1)) then
      match res_type sr with
      | SPEECH_RES_INTER =>
          (v1, l1, [intermediate_result (res_id sr) (res_type sr) (res_asr sr)])
      | SPEECH_RES_END =>
          (v1, l1,
           [voice_command (res_id sr) (asr l1) (res_nlp sr) (res_action sr)])
      | SPEECH_RES_CANCELLED =>
          (v1, l1, [voice_event (res_id sr) (Enumerator "VOICE_CANCEL") None])
      | SPEECH_RES_ERROR =>
          match res_err sr with
          | SPEECH_SUCCESS => (v1, l1, [])
          | err =>
              (with_session (session_id v1) false v1,
               {| activation := ""; asr := asr l1 |},
               (if (session_id v1 =? res_id sr) && cloud_vad_enable
                then [set_siren_state_sleep] else [])
                 ++ [speech_error (res_id sr) err])
          end
      | SPEECH_RES_START => (v1, l1, [])
      end
    else (v1, l1, []) in
  (* if (sr.type >= SPEECH_RES_END) clear(sr.id) *)
  let v3 := if is_terminal (res_type sr) then clear_id (res_id sr) v2
            else v2 in
  ((v3, l2), c1 ++ c2).

(** The loop of [onResponse] over the results that [poll] returns,
    until [poll] returns false. *)
Fixpoint onResponse_loop (srs : list SpeechResult) (st : t * locals)
  : (t * locals) * list call :=
  match srs with
  | [] => (st, [])
  | sr :: srs' =>
      let '(st1, c1) := onResponse_step sr st in
      let '(st2, c2) := onResponse_loop srs' st1 in
      (st2, c1 ++ c2)
  end.

End Dispatcher.

(** The eight event kinds of section 6.3 of the specification. *)
Definition exposed_kinds : list string :=
  [ "VOICE_COMING"; "VOICE_START"; "VOICE_LOCAL_WAKE"; "VOICE_ACCEPT";
    "VOICE_REJECT"; "VOICE_FAKE"; "VOICE_CANCEL"; "VOICE_SLEEP" ].
End VoiceService.

(** ** Scenarios *)

(** The state that a run from a fresh engine ends in. *)
Definition state_after (evs : list event) : SpeechImpl :=
  match run evs new_speech with
  | Some (s, _) => s
  | None => new_speech
  end.

(** Scenario 3 of the specification, "early cancel": a voice session is
    cancelled before the sender thread has taken its START. *)
Definition early_cancel : list event :=
  [ EPrepare; EStartVoice None None; ECancel 1; ESendReqs CONN_SUCCESS ].

(** A text session whose request went out and which is then cancelled
    through the controller. *)
Definition text_in_flight : list event :=
  [ EPrepare; EPutText (Some "hello");
    ESendReqs CONN_SUCCESS; ESendReqs CONN_SUCCESS ].

(** A voice session whose START went out: its operation is installed in
    status START and the sender thread is back at the top of its loop. *)
Definition voice_in_flight : list event :=
  [ EPrepare; EStartVoice None None;
    ESendReqs CONN_SUCCESS; ESendReqs CONN_SUCCESS ].

(** ** Well-formed response queues *)


(** A voice session whose START went out and that has a chunk queued when
    it is cancelled: the sender finds a CANCELLED request while the
    session's operation is installed. *)
Definition cancel_with_chunk_queued : list event :=
  [ EPrepare; EStartVoice None None;
    ESendReqs CONN_SUCCESS; ESendReqs CONN_SUCCESS;
    EPutVoice 1 (Some "ab"); ECancel 1 ].

(** The request that the sender pops after [cancel_with_chunk_queued]. *)
Definition cancelled_request_1 : SpeechReqInfo :=
  {| req_id := 1; req_type := SpeechReqType.CANCELLED;
     req_data := None; req_fsoptions := None |}.

(** One prepare/release cycle after another, a text request in each. *)
Definition two_cycles : list event :=
  [ EPrepare; EPutText (Some "a"); ERelease; EPrepare; EPutText (Some "b") ].

(** ** Session ids *)

(** [l] is strictly increasing and above [lo]. *)
Fixpoint ascending (lo : Z) (l : list Z) : Prop :=
  match l with
  | [] => True
  | x :: l' => lo < x /\ ascending x l'
  end.

(** The ids [> 0] among the ids that a run returned. *)
Definition session_ids (o : list obs) : list Z :=
  filter (fun id => 0 <? id) (returned o).

(** Three allocations in one prepared period. *)
Definition three_sessions : list event :=
  [ EPutText (Some "a"); EStartVoice None None; EPutText (Some "b") ].

(** ** Scenarios of the dispatcher *)

(** A dispatcher whose current session is [id]. *)
Definition service_with_session (double : Type) (id : Z)
  : VoiceService.t double :=
  {| VoiceService.session_id := id;
     VoiceService.asr_finished := false;
     VoiceService.vt := None;
     VoiceService.appid := "";
     VoiceService.speech_prepared := true;
     VoiceService._speech := new_speech |}.

(** A front-end event of a given kind and sound location that carries no
    voice and no voice trigger. *)
Definition plain_event (double : Type) (kind : VoiceService.siren_event)
  (x : double) : VoiceService.voice_event_t double :=
  {| VoiceService.event := kind;
     VoiceService.has_voice := false;
     VoiceService.has_vt_flag := false;
     VoiceService.sl := x;
     VoiceService.buff := "";
     VoiceService.vt_start_of := 0;
     VoiceService.vt_end_of := 0;
     VoiceService.vt_energy_of := x |}.

(** The poll results of a session that recognises "turn on the light":
    START, one intermediate result with the text, END with nlp and
    action. *)
Definition light_session : list SpeechResult :=
  [ bare_result 1 SPEECH_RES_START SPEECH_SUCCESS;
    {| res_id := 1; res_type := SPEECH_RES_INTER; res_err := SPEECH_SUCCESS;
       res_asr := "turn on the light"; res_nlp := ""; res_action := "";
       res_extra := "" |};
    {| res_id := 1; res_type := SPEECH_RES_END; res_err := SPEECH_SUCCESS;
       res_asr := "turn on the light"; res_nlp := "{nlp}";
       res_action := "{action}"; res_extra := "" |} ].

(** The [asr] arguments of the [voice_command] calls among [cs]. *)
Fixpoint command_asrs (double : Type) (cs : list (VoiceService.call double))
  : list string :=
  match cs with
  | [] => []
  | VoiceService.voice_command _ _ a _ _ :: cs' => a :: command_asrs cs'
  | _ :: cs' => command_asrs cs'
  end.

(** ** The order of poll results *)

(** After a START: intermediate results, then at most one terminal result
    and nothing behind it. *)
Fixpoint inter_then_terminal (l : list SpeechResultType) : bool :=
  match l with
  | [] => true
  | SPEECH_RES_INTER :: l' => inter_then_terminal l'
  | SPEECH_RES_START :: _ => false
  | _ :: l' => match l' with [] => true | _ :: _ => false end
  end.

(** The order that the specification states for the results of one id: a
    prefix of START, INTER*, (END | CANCELLED | ERROR). *)
Definition claimed_order (l : list SpeechResultType) : bool :=
  match l with
  | [] => true
  | SPEECH_RES_START :: l' => inter_then_terminal l'
  | _ :: _ => false
  end.

(** Where the stream of poll results stands: between two operations, or
    within the results of the operation [id], after its START. *)
Inductive phase :=
| Between
| Within (id : Z).

(** The next poll result: a START opens the results of an operation, INTER
    results of the same id follow, a terminal result of the same id closes
    them; a CANCELLED or ERROR result may also come bare, without START. *)
Definition phase_step (p : phase) (r : Z * SpeechResultType) : option phase :=
  match p with
  | Between =>
      match snd r with
      | SPEECH_RES_START => Some (Within (fst r))
      | SPEECH_RES_CANCELLED | SPEECH_RES_ERROR => Some Between
      | SPEECH_RES_INTER | SPEECH_RES_END => None
      end
  | Within i =>
      if fst r =? i then
        match snd r with
        | SPEECH_RES_START => None
        | SPEECH_RES_INTER => Some (Within i)
        | SPEECH_RES_END | SPEECH_RES_CANCELLED | SPEECH_RES_ERROR =>
            Some Between
        end
      else None
  end.

Fixpoint phase_run (p : phase) (l : list (Z * SpeechResultType))
  : option phase :=
  match l with
  | [] => Some p
  | r :: l' =>
      match phase_step p r with
      | Some p' => phase_run p' l'
      | None => None
      end
  end.

(** ** The operations of a run and their blocks of poll results *)

(** The id of the operation that a step installs: the slot of the
    controller is empty before the step and holds an operation after it.
    [new_op] is the only function that fills the slot, and
    [do_ctl_change_op], its only caller, calls it on an empty slot. *)
Definition installed_by (s s' : SpeechImpl) : list Z :=
  match Ctl.slot (controller_ s), Ctl.slot (controller_ s') with
  | None, Some op => [Ctl.id op]
  | _, _ => []
  end.

(** The ids of the operations that the steps of a run install, oldest
    first. *)
Fixpoint installed (evs : list event) (s : SpeechImpl) : list Z :=
  match evs with
  | [] => []
  | e :: evs' =>
      match step e s with
      | Some (s1, _) => installed_by s s1 ++ installed evs' s1
      | None => []
      end
  end.

(** The poll results of one operation: its id and the types of its
    results, oldest first. *)
Definition block : Type := (Z * list SpeechResultType)%type.

Definition results_of (b : block) : list (Z * SpeechResultType) :=
  map (pair (fst b)) (snd b).

Definition is_inter (t : SpeechResultType) : bool :=
  match t with
  | SPEECH_RES_INTER => true
  | _ => false
  end.

(** After a START: intermediate results, then exactly one terminal result
    and nothing behind it. *)
Fixpoint inter_then_closed (l : list SpeechResultType) : bool :=
  match l with
  | [] => false
  | SPEECH_RES_INTER :: l' => inter_then_closed l'
  | SPEECH_RES_START :: _ => false
  | _ :: l' => match l' with [] => true | _ :: _ => false end
  end.

(** A finished block: START, INTER*, and one terminal result (END,
    CANCELLED or ERROR), or a bare CANCELLED or ERROR result without
    START. *)
Definition finished (l : list SpeechResultType) : bool :=
  match l with
  | SPEECH_RES_START :: l' => inter_then_closed l'
  | [SPEECH_RES_CANCELLED] | [SPEECH_RES_ERROR] => true
  | _ => false
  end.

(** An unfinished block: nothing yet, or START and INTER results. *)
Definition unfinished (l : list SpeechResultType) : bool :=
  match l with
  | [] => true
  | SPEECH_RES_START :: l' => forallb is_inter l'
  | _ => false
  end.

(** The phase of the stream of poll results after the unfinished block
    [l] of the operation [i]. *)
Definition phase_of (i : Z) (l : list SpeechResultType) : phase :=
  match l with
  | [] => Between
  | _ :: _ => Within i
  end.

(** The stream [l] of poll results is made of one block for each of the
    operations [ops], in their order: finished blocks for the operations
    that were removed, and an unfinished block for the operation that is
    installed, if there is one. *)
Definition served (ops : list Z) (slot : option Ctl.Operation)
  (l : list (Z * SpeechResultType)) : Prop :=
  exists done cur : list block,
    l = flat_map results_of (done ++ cur)
    /\ map fst (done ++ cur) = ops
    /\ Forall (fun b => finished (snd b) = true) done
    /\ match slot with
       | Some op => exists ts, cur = [(Ctl.id op, ts)] /\ unfinished ts = true
       | None => cur = []
       end.

(** A text session whose request the transport refuses, polled. *)
Definition failed_text_polled : list event :=
  [ EPrepare; EPutText (Some "hello");
    ESendReqs CONN_SUCCESS; ESendReqs CONN_NOT_AVAILABLE; EPoll ].

(** The same session in each of two prepared periods: [put_text] returns
    the id 1 in both. *)
Definition reused_id : list event :=
  failed_text_polled ++ [ERelease] ++ failed_text_polled.

(** ** Shapes of a stream queue that serves one session *)
Section Shapes.
Variables T A : Type.

(** What is still queued behind the START of session [i]: data entries,
    closed by an END entry exactly when the session is ended. *)
Inductive tail_ok (i : Z) : bool -> list (Z * SQ.entry T) -> Prop :=
| tail_nil : tail_ok i false []
| tail_end (d : option T) : tail_ok i true [(i, SQ.End d)]
| tail_data (e : bool) (d : T) (l : list (Z * SQ.entry T)) :
    tail_ok i e l -> tail_ok i e ((i, SQ.Data d) :: l).

(** Nothing admitted, nothing queued. *)
Definition fresh (q : SQ.t T A) : Prop :=
  SQ.streams q = [] /\ SQ.items q = [].

(** Session [i] is admitted and its START is still queued. *)
Definition opened (i : Z) (q : SQ.t T A) : Prop :=
  exists st l,
    SQ.streams q = [st] /\ SQ.st_id st = i
    /\ SQ.items q = (i, SQ.Start) :: l /\ tail_ok i (SQ.st_ended st) l.

(** Session [i] is admitted and its START was popped. *)
Definition running (i : Z) (q : SQ.t T A) : Prop :=
  exists st,
    SQ.streams q = [st] /\ SQ.st_id st = i
    /\ tail_ok i (SQ.st_ended st) (SQ.items q).

(** Session [i] was erased and its marker is queued. *)
Definition gone (i : Z) (q : SQ.t T A) : Prop :=
  exists err, SQ.streams q = [] /\ SQ.items q = [(i, SQ.Erased err)].

(** The shape of the queue of the session [i] in a phase of the stream of
    poll results. *)
Definition shape (p : phase) (i : Z) (q : SQ.t T A) : Prop :=
  match p with
  | Between => fresh q \/ opened i q \/ gone i q
  | Within j => j = i /\ (fresh q \/ running i q \/ gone i q)
  end.
End Shapes.

(** The invariant of the engine in a phase of its stream of poll results:
    the response queue serves the installed operation only, and it is
    untouched while the operation is in status START. *)
Definition engine_inv (p : phase) (s : SpeechImpl) : Prop :=
  match Ctl.slot (controller_ s) with
  | None => p = Between /\ fresh (responses_ s)
  | Some op =>
      shape p (Ctl.id op) (responses_ s)
      /\ (Ctl.status op = SpeechStatus.START
          -> p = Between /\ fresh (responses_ s))
  end.

(** A change of the controller that keeps the invariant: the slot is the
    same, or its operation keeps its id and is not in status START, or an
    operation is installed in the empty slot. *)
Definition ctl_step (c c' : Ctl.t) : Prop :=
  Ctl.slot c' = Ctl.slot c
  \/ (exists op op',
         Ctl.slot c = Some op /\ Ctl.slot c' = Some op'
         /\ Ctl.id op' = Ctl.id op
         /\ Ctl.status op' <> SpeechStatus.START)
  \/ (Ctl.slot c = None /\ exists op', Ctl.slot c' = Some op').

(** A voice session that the server finishes while a cancel marker waits
    in the request queue. *)
Definition finish_beats_cancel : list event :=
  cancel_with_chunk_queued
    ++ [ EGenResults CONN_SUCCESS (mk_resp 1 0 true "hi" "{nlp}" "{act}" "")
                     false;
         EPoll; EPoll ].

(** The same run, continued until the sender has taken the marker. *)
Definition cancel_after_end : list event :=
  finish_beats_cancel ++ [ ESendReqs CONN_SUCCESS; EPoll ].

(** The same calls of the application, the sender thread taking the
    cancel marker before the finish response arrives. *)
Definition cancel_beats_finish : list event :=
  cancel_with_chunk_queued
    ++ [ ESendReqs CONN_SUCCESS;
         EGenResults CONN_SUCCESS (mk_resp 1 0 true "hi" "{nlp}" "{act}" "")
                     false;
         EPoll ].

(** Scenario 1 of the specification: a text session with one intermediate
    result. *)
Definition happy_text : list event :=
  text_in_flight
    ++ [ EGenResults CONN_SUCCESS (mk_resp 1 0 false "he" "" "" "") false;
         EGenResults CONN_SUCCESS (mk_resp 1 0 true "hello" "{nlp}" "{act}" "")
                     false;
         EPoll; EPoll; EPoll ].


(** ** Further scenarios and predicates of the engine *)


(** Two text requests queued on a prepared engine. *)
Definition two_texts_queued : list event :=
  [ EPrepare; EPutText (Some "a"); EPutText (Some "b") ].

(** The request that [put_text] queues first in [two_texts_queued]. *)
Definition text_request_1 : SpeechReqInfo :=
  {| req_id := 1; req_type := SpeechReqType.TEXT;
     req_data := Some "a"; req_fsoptions := None |}.

(** A text request as [put_text] queues it and as [cancel] may mark it:
    it carries its text, no voice options, and its kind is TEXT or
    CANCELLED. *)
Definition text_ok (r : SpeechReqInfo) : Prop :=
  req_data r <> None
  /\ req_fsoptions r = None
  /\ (req_type r = SpeechReqType.TEXT \/ req_type r = SpeechReqType.CANCELLED).



(** [op] with its status replaced. *)
Definition op_with_status (st : SpeechStatus.t) (op : Ctl.Operation)
  : Ctl.Operation :=
  {| Ctl.id := Ctl.id op; Ctl.status := st; Ctl.error := Ctl.error op |}.


(** A text session whose request went out and on which the deadline has
    started. *)
Definition text_sent : list event := text_in_flight.

(** ** The siren and the network state in VoiceService.cpp *)
Module VoiceControl.

(** The values of [mCurrentSirenState] that VoiceService.cpp names. *)
Inductive siren_state :=
| SIREN_STATE_UNKNOWN
| SIREN_STATE_INITED
| SIREN_STATE_STARTED
| SIREN_STATE_STOPED.

(** What the control functions do outside the members of the service:
    they start and stop the stream of the siren, create threads, and act
    through the engine. *)
Inductive effect :=
| StartStream                 (* _start_siren_process_stream *)
| StopStream                  (* _stop_siren_process_stream *)
| SpawnEventThread            (* pthread_create of onEvent *)
| SpawnResponseThread         (* pthread_create of onResponse *)
| Speech (a : action).

Section Control.
Variable double : Type.

(** The members of [VoiceService] that the control functions use, on top
    of those of the two loops. *)
Record t := {
  service : VoiceService.t double;
  mCurrentSirenState : siren_state;
  openSiren : bool }.

(** [mCurrentSirenState == SIREN_STATE_INITED || ... == SIREN_STATE_STOPED] *)
Definition startable (st : siren_state) : bool :=
  match st with
  | SIREN_STATE_INITED | SIREN_STATE_STOPED => true
  | SIREN_STATE_UNKNOWN | SIREN_STATE_STARTED => false
  end.

Definition is_started (st : siren_state) : bool :=
  match st with
  | SIREN_STATE_STARTED => true
  | _ => false
  end.

Definition is_unknown (st : siren_state) : bool :=
  match st with
  | SIREN_STATE_UNKNOWN => true
  | _ => false
  end.

(** [VoiceService::init]; [setup_ok] is what [setup] of the siren
    answers. *)
Definition init (setup_ok : bool) (c : t) : bool * t * list effect :=
  if is_unknown (mCurrentSirenState c) then
    if setup_ok then
      (true,
       {| service := service c;
          mCurrentSirenState := SIREN_STATE_INITED;
          openSiren := openSiren c |},
       [SpawnEventThread])
    else (false, c, [])
  else (true, c, []).

(** [VoiceService::start_siren] *)
Definition start_siren (isopen : bool) (c : t) : t * list effect :=
  let '(st, opn, effs) :=
    if isopen && startable (mCurrentSirenState c)
    then (SIREN_STATE_STARTED, true, [StartStream])
    else if negb isopen && is_started (mCurrentSirenState c)
         then (SIREN_STATE_STOPED, openSiren c, [StopStream])
         else (mCurrentSirenState c, openSiren c, []) in
  ({| service := service c;
      mCurrentSirenState := st;
      openSiren := if negb isopen && negb (is_unknown st)
                   then false else opn |},
   effs).

(** [VoiceService::update_stack] *)
Definition update_stack (a : string) (c : t) : t :=
  {| service :=
       {| VoiceService.session_id := VoiceService.session_id (service c);
          VoiceService.asr_finished := VoiceService.asr_finished (service c);
          VoiceService.vt := VoiceService.vt (service c);
          VoiceService.appid := a;
          VoiceService.speech_prepared :=
            VoiceService.speech_prepared (service c);
          VoiceService._speech := VoiceService._speech (service c) |};
     mCurrentSirenState := mCurrentSirenState c;
     openSiren := openSiren c |}.

(** The service with its speech state and its engine replaced. *)
Definition with_engine (prepared : bool) (s : SpeechImpl)
  (v : VoiceService.t double) : VoiceService.t double :=
  {| VoiceService.session_id := VoiceService.session_id v;
     VoiceService.asr_finished := VoiceService.asr_finished v;
     VoiceService.vt := VoiceService.vt v;
     VoiceService.appid := VoiceService.appid v;
     VoiceService.speech_prepared := prepared;
     VoiceService._speech := s |}.

(** The calls [_speech->config(key, value)] that the lambda passed to
    [_voice_config->config] makes, one per entry. *)
Definition feed_config (entries : list (string * string)) (s : SpeechImpl)
  : SpeechImpl :=
  fold_left (fun s' kv => config (fst kv) (snd kv) s') entries s.

(** [VoiceService::network_state_change]; [entries] are the key/value
    pairs that [_voice_config->config] feeds to the engine and [config_ok]
    is what it returns.  The boolean tells whether the call returns: it
    does not when [_speech->release()] does not, and then the speech state
    is still PREPARED. *)
Definition network_state_change (connected : bool)
  (entries : list (string * string)) (config_ok : bool) (c : t)
  : bool * t * list effect :=
  let v := service c in
  if connected && negb (VoiceService.speech_prepared v) then
    let s1 := feed_config entries (VoiceService._speech v) in
    if config_ok then
      let '(_, s2, acts) := prepare s1 in
      let start := openSiren c && startable (mCurrentSirenState c) in
      (true,
       {| service := with_engine true s2 v;
          mCurrentSirenState := if start then SIREN_STATE_STARTED
                                else mCurrentSirenState c;
          openSiren := openSiren c |},
       map Speech acts ++ [SpawnResponseThread]
         ++ (if start then [StartStream] else []))
    else
      (true,
       {| service := with_engine (VoiceService.speech_prepared v) s1 v;
          mCurrentSirenState := mCurrentSirenState c;
          openSiren := openSiren c |}, [])
  else if negb connected && VoiceService.speech_prepared v then
    let stop := is_started (mCurrentSirenState c) in
    let '(returned, s1, acts) := release (VoiceService._speech v) in
    (returned,
     {| service := with_engine (negb returned) s1 v;
        mCurrentSirenState := if stop then SIREN_STATE_STOPED
                              else mCurrentSirenState c;
        openSiren := openSiren c |},
     (if stop then [StopStream] else []) ++ map Speech acts)
  else (true, c, []).

(** The calls of the control functions, as a thread of the application
    makes them. *)
Inductive control_call :=
| CallInit (setup_ok : bool)
| CallStartSiren (isopen : bool)
| CallNetwork (connected : bool) (entries : list (string * string))
              (config_ok : bool)
| CallUpdateStack (a : string).

(** One call; the boolean tells whether it returns. *)
Definition control_step (k : control_call) (c : t)
  : bool * t * list effect :=
  match k with
  | CallInit ok => let '(_, c1, effs) := init ok c in (true, c1, effs)
  | CallStartSiren b => let '(c1, effs) := start_siren b c in (true, c1, effs)
  | CallNetwork b entries ok => network_state_change b entries ok c
  | CallUpdateStack a => (true, update_stack a c, [])
  end.

(** The calls of one thread, one after the other; a call that does not
    return is the last one that the thread makes. *)
Fixpoint control_run (ks : list control_call) (c : t) : t * list effect :=
  match ks with
  | [] => (c, [])
  | k :: ks' =>
      let '(returned, c1, e1) := control_step k c in
      if returned then
        let '(c2, e2) := control_run ks' c1 in (c2, e1 ++ e2)
      else (c1, e1)
  end.

(** Whether the stream of the siren is being processed after the effects
    [effs], given whether it was before; [None] when the stream is started
    while it is being processed or stopped while it is not. *)
Fixpoint streaming_after (on : bool) (effs : list effect) : option bool :=
  match effs with
  | [] => Some on
  | StartStream :: effs' => if on then None else streaming_after true effs'
  | StopStream :: effs' => if on then streaming_after false effs' else None
  | _ :: effs' => streaming_after on effs'
  end.
End Control.
End VoiceControl.

(** A call that the response thread makes for an activation verdict: the
    [voice_event] of the verdict, or the request to put the siren to
    sleep. *)
Definition is_verdict_call (double : Type) (c : VoiceService.call double)
  : Prop :=
  match c with
  | VoiceService.voice_event _ (VoiceService.Transformed _) _ => True
  | VoiceService.set_siren_state_sleep _ => True
  | _ => False
  end.

(** A service that is connected and whose siren is started. *)
Definition control_started (double : Type) : VoiceControl.t double :=
  {| VoiceControl.service :=
       VoiceControl.with_engine true (state_after [EPrepare])
                                (service_with_session double (-1));
     VoiceControl.mCurrentSirenState := VoiceControl.SIREN_STATE_STARTED;
     VoiceControl.openSiren := true |}.

(** * Properties *)

(** ** Error codes *)

(** C6: [integer_to_reserr] maps the wire codes 0, 2, 3, 4, 5, 6, 101 and
    102 to SUCCESS, UNAUTHENTICATED, CONNECTION_EXCEEDED,
    SERVER_RESOURCE_EXHAUSTED, SERVER_BUSY, SERVER_INTERNAL,
    SERVICE_UNAVAILABLE and SDK_CLOSED, and every other code to UNKNOWN:
    on every code it agrees with the table of the specification, read with
    UNKNOWN for a code that the table does not list. *)
Theorem integer_to_reserr_table :
  forall err : Z, integer_to_reserr err = table_lookup err reserr_spec_table.
Proof.
  intros err.
  destruct err as [|p|p]; try reflexivity.
  do 8 (try (destruct p as [p|p|]; try reflexivity)).
Qed.

(** ** The stream queue *)

Lemma SpeechStatus_eqb_eq (a b : SpeechStatus.t) :
  SpeechStatus.eqb a b = true <-> a = b.
Proof. destruct a, b; simpl; split; congruence. Qed.

Section QueueFacts.
Variables T A : Type.
Implicit Types (q : SQ.t T A) (l : list (Z * SQ.entry T)).

Lemma drop_items_owned i l :
  Forall (fun e => fst e = i) l -> SQ.drop_items i l = [].
Proof.
  induction 1 as [|e l He _ IH]; simpl; [reflexivity|].
  rewrite He, Z.eqb_refl. exact IH.
Qed.

Lemma has_items_owned i q :
  Forall (fun e => fst e = i) (SQ.items q) ->
  SQ.has_items i q = false -> SQ.items q = [].
Proof.
  unfold SQ.has_items. intros Hall Hno.
  destruct (SQ.items q) as [|e l]; [reflexivity|].
  apply Forall_inv in Hall. simpl in Hno.
  rewrite Hall, Z.eqb_refl in Hno. discriminate.
Qed.

End QueueFacts.


(** ** poll *)


(** C9: a result that [poll] returns with type CANCELLED or ERROR has
    empty [asr], [nlp], [action] and [extra], and with type CANCELLED its
    [err] is SUCCESS. *)
Theorem poll_terminal_is_bare :
  forall (s s' : SpeechImpl) (res : SpeechResult),
    poll s = Some (PollResult res, s') ->
    res_type res = SPEECH_RES_CANCELLED \/ res_type res = SPEECH_RES_ERROR ->
    res_asr res = "" /\ res_nlp res = "" /\ res_action res = ""
    /\ res_extra res = ""
    /\ (res_type res = SPEECH_RES_CANCELLED -> res_err res = SPEECH_SUCCESS).
Proof.
  intros s s' res Hpoll Hty. unfold poll in Hpoll.
  destruct (initialized_ s); simpl in Hpoll; [|discriminate].
  destruct (Ctl.front_op (controller_ s)) as [op|]; [|discriminate].
  assert (Hbare : forall i t e,
             res = bare_result i t e ->
             (t = SPEECH_RES_CANCELLED -> e = SPEECH_SUCCESS) ->
             res_asr res = "" /\ res_nlp res = "" /\ res_action res = ""
             /\ res_extra res = ""
             /\ (res_type res = SPEECH_RES_CANCELLED
                 -> res_err res = SPEECH_SUCCESS)).
  { intros i t e -> He. simpl. repeat split; auto. }
  assert (Hpop :
    poll_responses op s = Some (PollResult res, s') ->
    res_asr res = "" /\ res_nlp res = "" /\ res_action res = ""
    /\ res_extra res = ""
    /\ (res_type res = SPEECH_RES_CANCELLED -> res_err res = SPEECH_SUCCESS)).
  { clear Hpoll. unfold poll_responses, SQ.pop.
    destruct (SQ.closed (responses_ s)); simpl; [discriminate|].
    destruct (SQ.items (responses_ s)) as [|[id e] rest]; simpl;
      [discriminate|].
    destruct (negb (id =? Ctl.id op)); [destruct e; simpl; try discriminate;
      destruct (err =? 0); discriminate|].
    destruct e as [|d|d|err]; simpl; intros H.
    - injection H as <- _. simpl in Hty. destruct Hty; discriminate.
    - injection H as <- _. simpl in Hty. destruct Hty; discriminate.
    - destruct d; injection H as <- _; simpl in Hty; destruct Hty;
        discriminate.
    - destruct (err =? 0) eqn:Herr; simpl in H; injection H as <- _.
      + apply Z.eqb_eq in Herr. subst err.
        eapply Hbare; [reflexivity|]. intros _. reflexivity.
      + eapply Hbare; [reflexivity|]. discriminate. }
  destruct (Ctl.status op); try (exact (Hpop Hpoll)).
  - destruct (drain_responses (Ctl.id op) (responses_ s)); [|discriminate].
    injection Hpoll as <- _. eapply Hbare; [reflexivity|]. intros _; reflexivity.
  - destruct (drain_responses (Ctl.id op) (responses_ s)); [|discriminate].
    injection Hpoll as <- _. eapply Hbare; [reflexivity|]. discriminate.
Qed.

(** The instance of [poll_terminal_is_bare] at the early cancel. *)
Lemma poll_terminal_is_bare_witness :
  exists res s',
    poll (state_after early_cancel) = Some (PollResult res, s')
    /\ res_type res = SPEECH_RES_CANCELLED
    /\ res_asr res = "" /\ res_nlp res = "" /\ res_action res = ""
    /\ res_extra res = ""
    /\ (res_type res = SPEECH_RES_CANCELLED -> res_err res = SPEECH_SUCCESS).
Proof.
  exists (bare_result 1 SPEECH_RES_CANCELLED SPEECH_SUCCESS).
  eexists.
  assert (H : poll (state_after early_cancel)
              = Some (PollResult (bare_result 1 SPEECH_RES_CANCELLED
                                              SPEECH_SUCCESS),
                      state_after (early_cancel ++ [EPoll]))).
  { vm_compute. reflexivity. }
  split; [exact H|]. split; [reflexivity|].
  apply (poll_terminal_is_bare _ H). left. reflexivity.
Defined.

(** ** The sender thread and a CANCELLED request *)

Lemma next_request_frame (s s1 : SpeechImpl) (req : option SpeechReqInfo) :
  next_request s = Some (req, s1) ->
  controller_ s1 = controller_ s /\ sender_pc s1 = sender_pc s
  /\ responses_ s1 = responses_ s /\ initialized_ s1 = initialized_ s
  /\ next_id_ s1 = next_id_ s.
Proof.
  unfold next_request.
  destruct (SQ.pop (voice_reqs_ s)) as [[r out] q].
  destruct (0 <=? r).
  - destruct out as [[[id voice] err]|]; [|discriminate].
    destruct (sqtype_to_reqtype r); [|discriminate].
    intros H; injection H as _ <-. repeat split.
  - destruct (text_reqs_ s); intros H; injection H as _ <-; repeat split.
Qed.

(** C10: when the sender thread pops a request of kind CANCELLED while an
    operation is installed, [do_ctl_change_op] turns the operation
    CANCELLED and returns true, and the next step of the thread,
    [do_request], hands a wire message to the transport whose type is END
    and whose id is the id of the request, with no text and no voice, and
    it does so first, whatever the transport answers; when no operation is
    installed, [do_ctl_change_op] installs a new operation in state
    CANCELLED and returns false, and the thread is back at the top of its
    loop having notified [poll] and sent nothing. *)
Theorem sender_cancelled_request :
  forall (s s1 : SpeechImpl) (req : SpeechReqInfo) (r : ConnectionOpResult),
    initialized_ s = true ->
    sender_pc s = SenderIdle ->
    next_request s = Some (Some req, s1) ->
    req_type req = SpeechReqType.CANCELLED ->
    match Ctl.current_op (controller_ s) with
    | Some op =>
        let s2 := set_controller
                    (Ctl.set_status SpeechStatus.CANCELLED (controller_ s1)) s1 in
        do_ctl_change_op req s1 = Some (true, s2, [NotifyResp])
        /\ Ctl.current_op (controller_ s2)
           = Some {| Ctl.id := Ctl.id op; Ctl.status := SpeechStatus.CANCELLED;
                     Ctl.error := Ctl.error op |}
        /\ send_reqs_step r s
           = Some (set_sender_pc (SenderRequest req) s2, [NotifyResp])
        /\ exists s3 m rest,
            send_reqs_step r (set_sender_pc (SenderRequest req) s2)
            = Some (s3, ConnSend m :: rest)
            /\ treq_id m = req_id req
            /\ treq_type m = ReqType.END
            /\ treq_asr m = None
            /\ treq_voice m = None
    | None =>
        let s2 := set_controller
                    (Ctl.new_op (req_id req) SpeechStatus.CANCELLED
                                (controller_ s1)) s1 in
        do_ctl_change_op req s1 = Some (false, s2, [NotifyResp])
        /\ Ctl.current_op (controller_ s2)
           = Some {| Ctl.id := req_id req; Ctl.status := SpeechStatus.CANCELLED;
                     Ctl.error := SPEECH_SUCCESS |}
        /\ send_reqs_step r s = Some (s2, [NotifyResp])
        /\ sender_pc s2 = SenderIdle
    end.
Proof.
  intros s s1 req r Hinit Hpc Hnext Hty.
  destruct (next_request_frame _ Hnext) as (Hctl & Hpc1 & _).
  unfold send_reqs_step. rewrite Hpc, Hinit, Hnext. simpl.
  unfold do_ctl_change_op. rewrite Hty, Hctl.
  destruct (Ctl.current_op (controller_ s)) as [op|] eqn:Hop; simpl.
  - split; [reflexivity|]. split.
    + unfold Ctl.set_status. unfold Ctl.current_op in *. rewrite Hop.
      reflexivity.
    + split; [reflexivity|].
      unfold do_request, build_request. rewrite Hty. simpl.
      destruct r; simpl; eexists; eexists; eexists;
        (split; [reflexivity|]); repeat split.
  - split; [reflexivity|]. split; [reflexivity|]. split; [reflexivity|].
    rewrite Hpc1. exact Hpc.
Qed.

(** The instance of [sender_cancelled_request] at a session that is
    cancelled with a chunk queued: the operation is installed, and END goes
    to the wire. *)
Lemma sender_cancelled_request_witness :
  exists s2 s3 m rest,
    send_reqs_step CONN_SUCCESS (state_after cancel_with_chunk_queued)
    = Some (s2, [NotifyResp])
    /\ sender_pc s2 = SenderRequest cancelled_request_1
    /\ send_reqs_step CONN_SUCCESS s2 = Some (s3, ConnSend m :: rest)
    /\ treq_id m = 1
    /\ treq_type m = ReqType.END.
Proof.
  pose proof (@sender_cancelled_request
                (state_after cancel_with_chunk_queued)
                (set_voice_reqs
                   (snd (SQ.pop (voice_reqs_
                                   (state_after cancel_with_chunk_queued))))
                   (state_after cancel_with_chunk_queued))
                cancelled_request_1 CONN_SUCCESS) as H.
  assert (Hop : Ctl.current_op
                  (controller_ (state_after cancel_with_chunk_queued))
                = Some {| Ctl.id := 1; Ctl.status := SpeechStatus.START;
                          Ctl.error := SPEECH_SUCCESS |})
    by (vm_compute; reflexivity).
  rewrite Hop in H.
  destruct H as (_ & _ & Hstep & s3 & m & rest & Hsend & Hid & Hty & _);
    try (vm_compute; reflexivity).
  eexists. exists s3, m, rest. split; [exact Hstep|].
  split; [reflexivity|]. split; [exact Hsend|].
  split; [exact Hid | exact Hty].
Defined.

(** ** release *)

(** The first critical section of [release] leaves the sender thread and
    the controller alone. *)
Lemma sender_can_quit_req_section (s : SpeechImpl) :
  sender_can_quit (fst (release_req_section s)) = sender_can_quit s.
Proof. reflexivity. Qed.






(** ** Session ids *)

Ltac break_match :=
  match goal with
  | H : context [match ?x with _ => _ end] |- _ => destruct x eqn:?
  | |- context [match ?x with _ => _ end] => destruct x eqn:?
  end.

Ltac inv_some :=
  repeat match goal with
         | H : Some _ = Some _ |- _ => injection H as ?; subst
         | H : (_, _) = (_, _) |- _ => injection H as ?; subst
         | H : None = Some _ |- _ => discriminate H
         | H : Some _ = None |- _ => discriminate H
         end.

Lemma wrap32_small (z : Z) : 0 <= z < 2 ^ 31 -> wrap32 z = z.
Proof.
  unfold wrap32.
  change (2 ^ 31) with 2147483648. change (2 ^ 32) with 4294967296.
  intros H. rewrite Z.mod_small; lia.
Qed.

Lemma returned_app (o1 o2 : list obs) :
  returned (o1 ++ o2) = returned o1 ++ returned o2.
Proof.
  induction o1 as [|x o1 IH]; simpl; [reflexivity|].
  destruct x; simpl; rewrite IH; reflexivity.
Qed.

Lemma returned_did (acts : list action) : returned (map Did acts) = [].
Proof. induction acts; simpl; auto. Qed.

Lemma ascending_weaken (lo lo' : Z) (l : list Z) :
  lo' <= lo -> ascending lo l -> ascending lo' l.
Proof. destruct l; simpl; [auto|]. intros ? [? ?]. split; [lia|auto]. Qed.

(** What the steps other than the allocating calls leave alone. *)
Definition same_counter (s s' : SpeechImpl) : Prop :=
  initialized_ s' = initialized_ s /\ next_id_ s' = next_id_ s.

Lemma poll_counter s out s' : poll s = Some (out, s') -> same_counter s s'.
Proof.
  unfold poll, poll_responses, same_counter. intros H.
  repeat break_match; inv_some; simpl; auto; discriminate.
Qed.

Lemma cancel_counter id s : same_counter s (fst (cancel id s)).
Proof.
  unfold cancel, same_counter.
  repeat break_match; simpl; auto.
Qed.

Lemma put_voice_counter id v s : same_counter s (fst (put_voice id v s)).
Proof.
  unfold put_voice, same_counter. repeat break_match; simpl; auto.
Qed.

Lemma end_voice_counter id s : same_counter s (fst (end_voice id s)).
Proof.
  unfold end_voice, same_counter. repeat break_match; simpl; auto.
Qed.

Lemma gen_results_counter r resp el s :
  same_counter s (fst (gen_results_step r resp el s)).
Proof.
  unfold gen_results_step, gen_result_by_resp, same_counter.
  repeat break_match; simpl; auto.
Qed.

Lemma send_reqs_counter r s s' acts :
  send_reqs_step r s = Some (s', acts) -> same_counter s s'.
Proof.
  unfold send_reqs_step, same_counter. intros H.
  destruct (sender_pc s).
  - destruct (negb (initialized_ s)); [inv_some; auto|].
    destruct (next_request s) as [[[info|] s1]|] eqn:Hnext; [| |discriminate].
    + destruct (next_request_frame _ Hnext) as (_ & _ & _ & Hi & Hn).
      unfold do_ctl_change_op in H.
      repeat break_match; inv_some; simpl; rewrite ?Hi, ?Hn; auto.
    + destruct (next_request_frame _ Hnext) as (_ & _ & _ & Hi & Hn).
      inv_some. auto.
  - unfold do_request in H.
    repeat break_match; inv_some; simpl; auto.
  - repeat break_match; inv_some; simpl; auto.
Qed.

(** One step of a prepared engine, other than [release]: the engine stays
    prepared, and the step returns nothing, or -1, or the new value of the
    counter, which is the old one plus one. *)
Lemma step_counter (e : event) (s s1 : SpeechImpl) (o1 : list obs) :
  e <> ERelease ->
  initialized_ s = true ->
  step e s = Some (s1, o1) ->
  initialized_ s1 = true
  /\ ((returned o1 = [] /\ next_id_ s1 = next_id_ s)
      \/ (returned o1 = [-1]
          /\ (next_id_ s1 = next_id_ s
              \/ next_id_ s1 = wrap32 (next_id_ s + 1)))
      \/ (returned o1 = [next_id_ s1]
          /\ next_id_ s1 = wrap32 (next_id_ s + 1))).
Proof.
  intros Hne Hinit Hstep.
  assert (Hsame : forall s', same_counter s s' ->
                             initialized_ s' = true
                             /\ next_id_ s' = next_id_ s).
  { intros s' [Hi Hn]. rewrite Hi. auto. }
  destruct e; simpl in Hstep; try congruence.
  - (* prepare *)
    unfold prepare in Hstep. rewrite Hinit in Hstep. inv_some.
    split; [assumption|]. left. split; reflexivity.
  - (* config *)
    inv_some. split; [assumption|]. left. split; reflexivity.
  - (* put_text *)
    unfold put_text in Hstep. rewrite Hinit in Hstep.
    destruct text; simpl in Hstep; inv_some; simpl.
    + split; [assumption|]. right. right. split; reflexivity.
    + split; [assumption|]. right. left. split; [reflexivity|auto].
  - (* start_voice *)
    unfold start_voice in Hstep. rewrite Hinit in Hstep. simpl in Hstep.
    destruct (SQ.start _ _) as [ok q]. destruct ok; simpl in Hstep; inv_some;
      simpl; rewrite ?returned_did; simpl.
    + split; [assumption|]. right. right. split; reflexivity.
    + split; [assumption|]. right. left. split; [reflexivity|auto].
  - (* put_voice *)
    destruct (put_voice id voice s) as [s' acts] eqn:E. inv_some.
    rewrite returned_did.
    destruct (Hsame _ (put_voice_counter id voice s)) as [Hi Hn].
    rewrite E in Hi, Hn. simpl in *. auto.
  - (* end_voice *)
    destruct (end_voice id s) as [s' acts] eqn:E. inv_some.
    rewrite returned_did.
    destruct (Hsame _ (end_voice_counter id s)) as [Hi Hn].
    rewrite E in Hi, Hn. simpl in *. auto.
  - (* cancel *)
    destruct (cancel id s) as [s' acts] eqn:E. inv_some.
    rewrite returned_did.
    destruct (Hsame _ (cancel_counter id s)) as [Hi Hn].
    rewrite E in Hi, Hn. simpl in *. auto.
  - (* poll *)
    destruct (poll s) as [[out s']|] eqn:E; [|discriminate].
    destruct (Hsame _ (poll_counter _ E)) as [Hi Hn].
    destruct out; inv_some; simpl; auto.
  - (* send_reqs *)
    destruct (send_reqs_step r s) as [[s' acts]|] eqn:E; [|discriminate].
    inv_some. rewrite returned_did.
    destruct (Hsame _ (send_reqs_counter _ _ E)) as [Hi Hn]. auto.
  - (* gen_results *)
    destruct (gen_results_step r resp elapsed s) as [s' acts] eqn:E. inv_some.
    rewrite returned_did.
    destruct (Hsame _ (gen_results_counter r resp elapsed s)) as [Hi Hn].
    rewrite E in Hi, Hn. simpl in *. auto.
Qed.

(** C3, as amended: between [prepare] and [release], and as long as the
    counter stays below 2^31, every value that [put_text] or [start_voice]
    returns is -1 or a positive id, and the positive ids are strictly
    increasing in the order of the calls (so none repeats). *)
Theorem session_ids_ascend :
  forall (evs : list event) (s s' : SpeechImpl) (o : list obs),
    initialized_ s = true ->
    ~ In ERelease evs ->
    0 <= next_id_ s ->
    next_id_ s + Z.of_nat (List.length evs) < 2 ^ 31 ->
    run evs s = Some (s', o) ->
    ascending (next_id_ s) (session_ids o)
    /\ Forall (fun id => id = -1 \/ 0 < id) (returned o).
Proof.
  induction evs as [|e evs IH]; intros s s' o Hinit Hnorel Hlo Hhi Hrun.
  - simpl in Hrun. inv_some. simpl. split; constructor.
  - simpl in Hrun.
    destruct (step e s) as [[s1 o1]|] eqn:Hstep; [|discriminate].
    destruct (run evs s1) as [[s2 o2]|] eqn:Hrest; [|discriminate].
    inv_some.
    assert (Hne : e <> ERelease) by (intros ->; apply Hnorel; left; reflexivity).
    assert (Hnorel' : ~ In ERelease evs)
      by (intros Hin; apply Hnorel; right; exact Hin).
    destruct (@step_counter _ _ _ _ Hne Hinit Hstep) as [Hinit1 Hcases].
    simpl List.length in Hhi. rewrite Nat2Z.inj_succ in Hhi.
    assert (Hw : wrap32 (next_id_ s + 1) = next_id_ s + 1)
      by (apply wrap32_small; lia).
    unfold session_ids. rewrite returned_app, filter_app.
    destruct Hcases as [[Hret Hn] | [[Hret Hn] | [Hret Hn]]].
    + destruct (IH s1 s' o2 Hinit1 Hnorel') as [Hasc Hall];
        [lia | lia | exact Hrest |].
      rewrite Hret. simpl. rewrite Hn in Hasc. split; assumption.
    + assert (Hle : next_id_ s <= next_id_ s1) by (destruct Hn; lia).
      destruct (IH s1 s' o2 Hinit1 Hnorel') as [Hasc Hall];
        [lia | destruct Hn; lia | exact Hrest |].
      rewrite Hret. simpl. split.
      * exact (ascending_weaken _ Hle Hasc).
      * constructor; [left; reflexivity | exact Hall].
    + rewrite Hw in Hn.
      destruct (IH s1 s' o2 Hinit1 Hnorel') as [Hasc Hall];
        [lia | lia | exact Hrest |].
      rewrite Hret. simpl.
      assert (Hpos : (0 <? next_id_ s1) = true) by (apply Z.ltb_lt; lia).
      rewrite Hpos. simpl. split.
      * split; [lia | exact Hasc].
      * constructor; [right; lia | exact Hall].
Qed.

(** The instance of [session_ids_ascend] at three allocations after
    [prepare]: the ids are 1, 2 and 3. *)
Lemma session_ids_ascend_witness :
  exists s' o,
    run three_sessions (state_after [EPrepare]) = Some (s', o)
    /\ returned o = [1; 2; 3]
    /\ ascending 0 (session_ids o).
Proof.
  eexists. eexists. split; [vm_compute; reflexivity|].
  split; [reflexivity|].
  refine (proj1 (@session_ids_ascend three_sessions (state_after [EPrepare])
                   _ _ _ _ _ _ _)).
  - reflexivity.
  - unfold three_sessions. simpl. intros [H|[H|[H|[]]]]; discriminate.
  - vm_compute. discriminate.
  - vm_compute. reflexivity.
  - vm_compute. reflexivity.
Defined.

(** C3, as stated, fails across a release/prepare cycle: [prepare] sets
    the counter to 0 again, and the first text request of each of two
    cycles gets the id 1. *)
Lemma session_id_repeats :
  exists s o,
    run two_cycles new_speech = Some (s, o)
    /\ returned o = [1; 1].
Proof. eexists. eexists. vm_compute. split; reflexivity. Qed.

(** ** The dispatcher *)

Section DispatcherFacts.
Variable double : Type.
Variable format_int : Z -> string.
Variable format_double : double -> string.
Variable to_json_string : list (string * string) -> string.
Variable json_activation : string -> option string.
Variable cloud_vad_enable : bool.

Local Abbreviation onResponse_step :=
  (@VoiceService.onResponse_step double json_activation cloud_vad_enable).
Local Abbreviation onResponse_loop :=
  (@VoiceService.onResponse_loop double json_activation cloud_vad_enable).
Local Abbreviation onEvent :=
  (@VoiceService.onEvent double format_int format_double to_json_string
                         cloud_vad_enable).

(** No pass through the loop of [onResponse] assigns the local [asr]. *)
Lemma onResponse_step_asr sr st :
  VoiceService.asr (snd (fst (onResponse_step sr st)))
  = VoiceService.asr (snd st).
Proof.
  unfold VoiceService.onResponse_step.
  destruct st as [v l].
  repeat break_match; inv_some; simpl; reflexivity.
Qed.

Lemma onResponse_step_commands sr st :
  Forall (fun a => a = VoiceService.asr (snd st))
         (command_asrs (snd (onResponse_step sr st))).
Proof.
  unfold VoiceService.onResponse_step.
  destruct st as [v l].
  repeat break_match; inv_some; simpl; repeat constructor.
Qed.

Lemma command_asrs_app (c1 c2 : list (VoiceService.call double)) :
  command_asrs (c1 ++ c2) = command_asrs c1 ++ command_asrs c2.
Proof.
  induction c1 as [|c c1 IH]; simpl; [reflexivity|].
  destruct c; simpl; rewrite IH; reflexivity.
Qed.

(** Whatever results [poll] returns, every [voice_command] that the
    response thread delivers carries the initial value of [asr], the
    empty string. *)
Lemma onResponse_commands_empty_asr srs v :
  Forall (fun a => a = "")
         (command_asrs
            (snd (onResponse_loop srs (v, VoiceService.locals_init)))).
Proof.
  assert (H : forall st, VoiceService.asr (snd st) = "" ->
              Forall (fun a => a = "")
                     (command_asrs (snd (onResponse_loop srs st)))).
  { induction srs as [|sr srs IH]; intros st Hst; simpl; [constructor|].
    pose proof (onResponse_step_asr sr st) as Hasr.
    pose proof (onResponse_step_commands sr st) as Hcmd.
    destruct (VoiceService.onResponse_step json_activation cloud_vad_enable
                sr st) as [st1 c1].
    simpl in Hasr, Hcmd.
    specialize (IH st1 ltac:(congruence)).
    destruct (VoiceService.onResponse_loop json_activation cloud_vad_enable
                srs st1) as [st2 c2].
    simpl in *. rewrite command_asrs_app. apply Forall_app. split.
    - rewrite Hst in Hcmd. exact Hcmd.
    - exact IH. }
  apply H. reflexivity.
Qed.

(** C8: on the poll results START, INTER with the text "turn on the
    light", END, with no activation verdict, the response thread calls
    [intermediate_result] with the text and then
    [voice_command(1, "", nlp, action)]: the [asr] argument is the empty
    string, not the text of the preceding intermediate result; and so it
    is for every [voice_command] that the thread delivers, whatever
    results [poll] returns. *)
Theorem voice_command_asr_is_empty :
  snd (onResponse_loop light_session
         (service_with_session double 1, VoiceService.locals_init))
  = [ VoiceService.intermediate_result double 1 SPEECH_RES_INTER
        "turn on the light";
      VoiceService.voice_command double 1 "" "{nlp}" "{action}" ]
  /\ forall (srs : list SpeechResult) (v : VoiceService.t double),
      Forall (fun a => a = "")
             (command_asrs
                (snd (onResponse_loop srs (v, VoiceService.locals_init)))).
Proof.
  split.
  - reflexivity.
  - intros srs v. apply onResponse_commands_empty_asr.
Qed.

(** C7: [enum VoiceEvent] declares five enumerators; of the eight event
    kinds of the specification it lacks VOICE_LOCAL_WAKE, VOICE_FAKE and
    VOICE_SLEEP, although [onEvent] passes [VoiceEvent::VOICE_LOCAL_WAKE]
    on a WAKE_CMD event and [VoiceEvent::VOICE_SLEEP] on a SLEEP
    event. *)
Theorem VoiceEvent_lacks_kinds :
  map fst EventTypes.VoiceEvent
  = [ "VOICE_COMING"; "VOICE_START"; "VOICE_ACCEPT"; "VOICE_REJECT";
      "VOICE_CANCEL" ]
  /\ filter (fun k => negb (EventTypes.declares EventTypes.VoiceEvent k))
            VoiceService.exposed_kinds
     = [ "VOICE_LOCAL_WAKE"; "VOICE_FAKE"; "VOICE_SLEEP" ]
  /\ (forall (x : double) (v : VoiceService.t double),
         snd (onEvent (plain_event VoiceService.SIREN_EVENT_WAKE_CMD x) v)
         = [ VoiceService.voice_event (-1)
               (VoiceService.Enumerator "VOICE_LOCAL_WAKE") (Some x) ])
  /\ EventTypes.enumerator EventTypes.VoiceEvent "VOICE_LOCAL_WAKE" = None.
Proof. repeat split. Qed.
End DispatcherFacts.

(** ** Shapes of the response queue *)

Unset Implicit Arguments.

Section ShapeFacts.
Variables T A : Type.
Implicit Types (q : SQ.t T A) (l : list (Z * SQ.entry T)).

Lemma tail_ok_owned i e l :
  tail_ok i e l -> Forall (fun x => fst x = i) l.
Proof. induction 1; repeat constructor; auto. Qed.

Lemma tail_snoc_data i d l :
  tail_ok i false l -> tail_ok i false (l ++ [(i, SQ.Data d)]).
Proof.
  intros H. remember false as e eqn:He.
  induction H; simpl; try discriminate.
  - apply tail_data. apply tail_nil.
  - apply tail_data. auto.
Qed.

Lemma tail_snoc_end i d l :
  tail_ok i false l -> tail_ok i true (l ++ [(i, SQ.End d)]).
Proof.
  intros H. remember false as e eqn:He.
  induction H; simpl; try discriminate.
  - apply tail_end.
  - apply tail_data. auto.
Qed.

Lemma shape_cases p i q :
  shape p i q -> fresh q \/ opened i q \/ running i q \/ gone i q.
Proof.
  destruct p; simpl.
  - intros [H|[H|H]]; auto.
  - intros [_ [H|[H|H]]]; auto.
Qed.

Lemma shape_reset p i q q' :
  shape p i q -> fresh q' \/ gone i q' -> shape p i q'.
Proof.
  destruct p; simpl.
  - intros _ [H|H]; auto.
  - intros [Hi _] [H|H]; auto.
Qed.

Lemma forget_single i (st : SQ.stream A) :
  SQ.st_id st = i -> SQ.forget i [st] = [].
Proof. intros H. unfold SQ.forget. simpl. rewrite H, Z.eqb_refl. reflexivity. Qed.

Lemma shape_owned p i q :
  shape p i q ->
  Forall (fun x => fst x = i) (SQ.items q)
  /\ SQ.forget i (SQ.streams q) = [].
Proof.
  intros H. destruct (shape_cases _ _ _ H) as [[Hs Hi]|[Ho|[Hr|Hg]]].
  - rewrite Hs, Hi. split; [constructor | reflexivity].
  - destruct Ho as (st & l & Hs & Hid & Hi & Ht). rewrite Hs, Hi. split.
    + constructor; [reflexivity | exact (tail_ok_owned _ _ _ Ht)].
    + apply forget_single. exact Hid.
  - destruct Hr as (st & Hs & Hid & Ht). rewrite Hs. split.
    + exact (tail_ok_owned _ _ _ Ht).
    + apply forget_single. exact Hid.
  - destruct Hg as (err & Hs & Hi). rewrite Hs, Hi. split.
    + repeat constructor.
    + reflexivity.
Qed.

Lemma find_stream_single i q (st : SQ.stream A) :
  SQ.streams q = [st] -> SQ.st_id st = i -> SQ.find_stream i q = Some st.
Proof.
  intros Hs Hid. unfold SQ.find_stream. rewrite Hs. simpl.
  rewrite Hid, Z.eqb_refl. reflexivity.
Qed.

Lemma find_stream_none i q : SQ.streams q = [] -> SQ.find_stream i q = None.
Proof. intros Hs. unfold SQ.find_stream. rewrite Hs. reflexivity. Qed.

(** [start] on a fresh queue admits the session, unless the queue is
    closed. *)
Lemma start_fresh i q : fresh q -> shape Between i (snd (SQ.start i q)).
Proof.
  intros [Hs Hi]. unfold SQ.start.
  destruct (SQ.closed q); simpl.
  - left. split; assumption.
  - rewrite (find_stream_none _ _ Hs). simpl. right. left.
    rewrite Hs, Hi. simpl.
    eexists. exists []. repeat split. apply tail_nil.
Qed.

(** [start] on a queue that has the session changes nothing. *)
Lemma start_known i q :
  opened i q \/ running i q -> snd (SQ.start i q) = q.
Proof.
  intros H. unfold SQ.start. destruct (SQ.closed q); [reflexivity|].
  destruct H as [(st & l & Hs & Hid & _)|(st & Hs & Hid & _)];
    rewrite (find_stream_single _ _ _ Hs Hid); reflexivity.
Qed.

Lemma shape_lift p i q q' :
  (fresh q -> fresh q') ->
  (opened i q -> opened i q') ->
  (running i q -> running i q') ->
  (gone i q -> gone i q') ->
  shape p i q -> shape p i q'.
Proof.
  intros Hf Ho Hr Hg. destruct p; simpl.
  - intros [H|[H|H]]; auto.
  - intros [Hj [H|[H|H]]]; auto.
Qed.

Lemma stream_shape p i d q :
  shape p i q -> shape p i (snd (SQ.stream_ i d q)).
Proof.
  apply shape_lift; unfold SQ.stream_.
  - intros [Hs Hi]. rewrite (find_stream_none _ _ Hs). split; assumption.
  - intros (st & l & Hs & Hid & Hi & Ht).
    rewrite (find_stream_single _ _ _ Hs Hid).
    destruct (SQ.st_ended st) eqn:He; simpl.
    + exists st, l. rewrite He. auto.
    + exists st, (l ++ [(i, SQ.Data d)]). rewrite Hi, He.
      repeat split; auto. apply tail_snoc_data. exact Ht.
  - intros (st & Hs & Hid & Ht).
    rewrite (find_stream_single _ _ _ Hs Hid).
    destruct (SQ.st_ended st) eqn:He; simpl.
    + exists st. rewrite He. auto.
    + exists st. rewrite He. repeat split; auto.
      apply tail_snoc_data. exact Ht.
  - intros (err & Hs & Hi). rewrite (find_stream_none _ _ Hs).
    exists err. auto.
Qed.

Lemma end_shape p i d q :
  shape p i q -> shape p i (snd (SQ.end_ i d q)).
Proof.
  apply shape_lift; unfold SQ.end_.
  - intros [Hs Hi]. rewrite (find_stream_none _ _ Hs). split; assumption.
  - intros (st & l & Hs & Hid & Hi & Ht).
    rewrite (find_stream_single _ _ _ Hs Hid).
    destruct (SQ.st_ended st) eqn:He; simpl.
    + exists st, l. rewrite He. auto.
    + rewrite Hs, Hi. simpl. rewrite Hid, Z.eqb_refl.
      eexists. exists (l ++ [(i, SQ.End d)]). simpl.
      repeat split; auto. apply tail_snoc_end. exact Ht.
  - intros (st & Hs & Hid & Ht).
    rewrite (find_stream_single _ _ _ Hs Hid).
    destruct (SQ.st_ended st) eqn:He; simpl.
    + exists st. rewrite He. auto.
    + rewrite Hs. simpl. rewrite Hid, Z.eqb_refl.
      eexists. simpl. repeat split; auto. apply tail_snoc_end. exact Ht.
  - intros (err & Hs & Hi). rewrite (find_stream_none _ _ Hs).
    exists err. auto.
Qed.

(** [erase] leaves the marker of the session, or nothing. *)
Lemma erase_shape p i err q :
  shape p i q ->
  fresh (snd (SQ.erase i err q)) \/ gone i (snd (SQ.erase i err q)).
Proof.
  intros H. destruct (shape_owned _ _ _ H) as [Hall Hforget].
  unfold SQ.erase. destruct (SQ.has_items i q) eqn:Hhas; simpl.
  - right. exists err. simpl. rewrite Hforget.
    rewrite (@drop_items_owned T i (SQ.items q) Hall). auto.
  - left. split; simpl; [exact Hforget|].
    exact (@has_items_owned T A i q Hall Hhas).
Qed.

(** What [pop] gives on the queue of the session [i], and the next phase
    of the stream of poll results. *)
Lemma pop_shape p i q code out q' :
  shape p i q ->
  SQ.pop q = ((code, out), q') ->
  match out with
  | None =>
      q' = q
      /\ (code = SQ.POP_TYPE_EMPTY \/ code = SQ.POP_TYPE_DRAINED)
  | Some (j, d, err) =>
      j = i
      /\ exists t p',
          poptype_to_restype code = Some t
          /\ phase_step p (i, t) = Some p'
          /\ (if is_terminal t then p' = Between /\ fresh q'
              else shape p' i q')
  end.
Proof.
  intros H. unfold SQ.pop.
  destruct (SQ.closed q) eqn:Hclosed.
  { intros E. injection E as <- <- <-. auto. }
  destruct (SQ.items q) as [|[j e] rest] eqn:Hitems.
  { intros E. injection E as <- <- <-. auto. }
  intros E. injection E as <- <- <-.
  destruct p as [|k]; simpl in H.
  - destruct H as [[_ Hi]|[(st & l & Hs & Hid & Hi & Ht)|(err & Hs & Hi)]];
      rewrite Hitems in Hi; [discriminate| |].
    + injection Hi as -> -> ->. split; [reflexivity|].
      exists SPEECH_RES_START, (Within i). simpl.
      repeat split. right. left. exists st. simpl. auto.
    + injection Hi as -> -> ->. split; [reflexivity|]. simpl.
      destruct (err =? 0).
      * exists SPEECH_RES_CANCELLED, Between. simpl.
        rewrite Hs. repeat split.
      * exists SPEECH_RES_ERROR, Between. simpl.
        rewrite Hs. repeat split.
  - destruct H as [-> [[_ Hi]|[(st & Hs & Hid & Ht)|(err & Hs & Hi)]]];
      rewrite Hitems in *; [discriminate| |].
    + inversion Ht as [|d Hd|e0 d l Hl]; subst.
      * split; [reflexivity|].
        exists SPEECH_RES_END, Between. simpl. rewrite Z.eqb_refl.
        repeat split. simpl. rewrite Hs. apply forget_single. reflexivity.
      * split; [reflexivity|].
        exists SPEECH_RES_INTER, (Within (SQ.st_id st)). simpl.
        rewrite Z.eqb_refl. repeat split.
        right. left. exists st. simpl. auto.
    + injection Hi as -> -> ->. split; [reflexivity|]. simpl.
      destruct (err =? 0).
      * exists SPEECH_RES_CANCELLED, Between. simpl. rewrite Z.eqb_refl.
        rewrite Hs. repeat split.
      * exists SPEECH_RES_ERROR, Between. simpl. rewrite Z.eqb_refl.
        rewrite Hs. repeat split.
Qed.
End ShapeFacts.

(** ** The invariant of the engine *)

Lemma drain_fresh p i (q q' : SQ.t SpeechResultIn unit) :
  shape p i q -> drain_responses i q = Some q' -> fresh q'.
Proof.
  intros H. destruct (shape_owned _ _ _ _ _ H) as [Hall Hforget].
  unfold drain_responses, SQ.erase.
  destruct (SQ.has_items i q) eqn:Hhas.
  - unfold SQ.pop. simpl. destruct (SQ.closed q); [discriminate|].
    rewrite (@drop_items_owned SpeechResultIn i (SQ.items q) Hall). simpl.
    rewrite Z.eqb_refl. intros E. injection E as <-.
    split; simpl; [|reflexivity].
    rewrite Hforget. reflexivity.
  - intros E. injection E as <-. split; simpl; [exact Hforget|].
    exact (@has_items_owned SpeechResultIn unit i q Hall Hhas).
Qed.

Lemma slot_set_status st c op :
  Ctl.slot c = Some op ->
  Ctl.slot (Ctl.set_status st c)
  = Some {| Ctl.id := Ctl.id op; Ctl.status := st; Ctl.error := Ctl.error op |}.
Proof. intros H. unfold Ctl.set_status. rewrite H. reflexivity. Qed.

Lemma ctl_step_refl c : ctl_step c c.
Proof. left. reflexivity. Qed.

Lemma ctl_step_set_status st c :
  st <> SpeechStatus.START -> ctl_step c (Ctl.set_status st c).
Proof.
  intros Hst. destruct (Ctl.slot c) as [op|] eqn:Hop.
  - right. left. eexists. eexists. split; [exact Hop|].
    split; [apply slot_set_status; exact Hop|]. simpl. auto.
  - left. unfold Ctl.set_status. rewrite Hop. simpl. rewrite Hop.
    reflexivity.
Qed.

Lemma ctl_step_set_op_error err c : ctl_step c (Ctl.set_op_error err c).
Proof.
  destruct (Ctl.slot c) as [op|] eqn:Hop; unfold Ctl.set_op_error; rewrite Hop.
  - right. left. eexists. eexists. split; [exact Hop|].
    split; [reflexivity|]. simpl. split; [reflexivity | discriminate].
  - left. rewrite Hop. reflexivity.
Qed.

Lemma ctl_step_cancel_op i c : ctl_step c (fst (Ctl.cancel_op i c)).
Proof.
  unfold Ctl.cancel_op. destruct (Ctl.slot c) as [op|] eqn:Hop.
  - destruct ((i =? 0) || (i =? Ctl.id op)); simpl.
    + apply ctl_step_set_status. discriminate.
    + apply ctl_step_refl.
  - apply ctl_step_refl.
Qed.

Lemma ctl_step_finish_op c : ctl_step c (Ctl.finish_op c).
Proof. apply ctl_step_set_status. discriminate. Qed.

Lemma ctl_step_refresh c : ctl_step c (Ctl.refresh_op_time c).
Proof.
  left. unfold Ctl.refresh_op_time.
  destruct (Ctl.slot c) eqn:Hop; simpl; auto.
Qed.

Lemma ctl_step_new_op i st c :
  Ctl.slot c = None -> ctl_step c (Ctl.new_op i st c).
Proof. intros H. right. right. split; [exact H|]. eexists. reflexivity. Qed.

(** The invariant only looks at the slot and at the streams and entries of
    the response queue. *)
Lemma engine_inv_ctl p s s' :
  engine_inv p s ->
  SQ.streams (responses_ s') = SQ.streams (responses_ s) ->
  SQ.items (responses_ s') = SQ.items (responses_ s) ->
  ctl_step (controller_ s) (controller_ s') ->
  engine_inv p s'.
Proof.
  intros Hinv Hs Hi Hstep.
  assert (Hfresh : fresh (responses_ s) -> fresh (responses_ s')).
  { intros [H1 H2]. split; congruence. }
  assert (Hshape : forall i, shape p i (responses_ s)
                             -> shape p i (responses_ s')).
  { intros i. apply shape_lift.
    - exact Hfresh.
    - intros (st & l & H1 & H2 & H3 & H4). exists st, l.
      rewrite Hs, Hi. auto.
    - intros (st & H1 & H2 & H3). exists st. rewrite Hs, Hi. auto.
    - intros (err & H1 & H2). exists err. rewrite Hs, Hi. auto. }
  unfold engine_inv in *.
  destruct Hstep as [Hsame | [(op & op' & Hop & Hop' & Hid & Hst)
                             | (Hnone & op' & Hop')]].
  - rewrite Hsame. destruct (Ctl.slot (controller_ s)) as [op|].
    + destruct Hinv as [H1 H2]. split; [auto|].
      intros Hst. destruct (H2 Hst). auto.
    + destruct Hinv. auto.
  - rewrite Hop in Hinv. rewrite Hop'. destruct Hinv as [H1 _].
    rewrite Hid. split; [auto | congruence].
  - rewrite Hnone in Hinv. rewrite Hop'. destruct Hinv as [-> Hf].
    split.
    + simpl. left. auto.
    + intros _. auto.
Qed.

Lemma gen_result_by_resp_inv p resp s :
  engine_inv p s -> engine_inv p (fst (gen_result_by_resp resp s)).
Proof.
  intros Hinv. unfold gen_result_by_resp, Ctl.current_op.
  destruct (Ctl.slot (controller_ s)) as [op|] eqn:Hop; [|exact Hinv].
  destruct ((Ctl.id op =? resp_id resp)
            && negb (SpeechStatus.eqb (Ctl.status op) SpeechStatus.CANCELLED)
            && negb (SpeechStatus.eqb (Ctl.status op) SpeechStatus.ERROR))
    eqn:Hcond; [|exact Hinv].
  apply andb_prop in Hcond. destruct Hcond as [Hcond _].
  apply andb_prop in Hcond. destruct Hcond as [Hid _].
  apply Z.eqb_eq in Hid.
  unfold engine_inv in Hinv. rewrite Hop in Hinv. destruct Hinv as [Hsh Hstart].
  rewrite Hid in Hsh.
  (* the queue after the START of the first response *)
  assert (Hq1 : shape p (resp_id resp)
                  (if SpeechStatus.eqb (Ctl.status op) SpeechStatus.START
                   then snd (SQ.start (resp_id resp) (responses_ s))
                   else responses_ s)).
  { destruct (SpeechStatus.eqb (Ctl.status op) SpeechStatus.START) eqn:Hst;
      [|exact Hsh].
    apply SpeechStatus_eqb_eq in Hst. destruct (Hstart Hst) as [-> Hf].
    apply start_fresh. exact Hf. }
  assert (Hne : SpeechStatus.eqb (Ctl.status op) SpeechStatus.START = false
                -> Ctl.status op <> SpeechStatus.START).
  { intros E Hst. rewrite Hst in E. discriminate. }
  unfold engine_inv.
  destruct (SpeechStatus.eqb (Ctl.status op) SpeechStatus.START) eqn:Hst;
    destruct (resp_result resp =? 0);
    try destruct (resp_finish resp); simpl;
      unfold Ctl.finish_op;
      rewrite ?(slot_set_status _ _ _ (slot_set_status _ _ _
                                         (slot_set_status _ _ _ Hop)));
      rewrite ?(slot_set_status _ _ _ (slot_set_status _ _ _ Hop));
      rewrite ?(slot_set_status _ _ _ Hop); rewrite ?Hop; simpl;
        rewrite <- ?Hid;
        (split; [| try discriminate; intros E; destruct (Hne eq_refl E)]);
        rewrite ?Hid;
        try (apply end_shape; exact Hq1);
        try (apply stream_shape; exact Hq1);
        try (apply (shape_reset _ _ _ _ _ _ Hq1);
             apply (erase_shape _ _ _ _ _ _ Hq1)).
Qed.

Lemma poll_responses_inv p op s out s' :
  Ctl.slot (controller_ s) = Some op ->
  Ctl.status op <> SpeechStatus.START ->
  shape p (Ctl.id op) (responses_ s) ->
  poll_responses op s = Some (out, s') ->
  match out with
  | PollResult r =>
      exists p', phase_step p (res_id r, res_type r) = Some p'
                 /\ engine_inv p' s'
  | _ => s' = s
  end.
Proof.
  intros Hop Hst Hsh. unfold poll_responses.
  destruct (SQ.pop (responses_ s)) as [[code popped] q] eqn:Hpop.
  pose proof (pop_shape _ _ _ _ _ _ _ _ Hsh Hpop) as Hp.
  destruct (code =? SQ.POP_TYPE_EMPTY) eqn:Hempty.
  { intros E. injection E as <- <-. reflexivity. }
  destruct popped as [[[j d] err]|]; [|discriminate].
  destruct Hp as (-> & t & p' & Ht & Hstep & Hnext).
  rewrite Z.eqb_refl, Ht. simpl.
  intros E. injection E as <- <-.
  exists p'. split.
  - destruct d; simpl; exact Hstep.
  - unfold engine_inv. destruct (is_terminal t); simpl.
    + exact Hnext.
    + rewrite Hop. split; [exact Hnext | intros E; destruct (Hst E)].
Qed.

(** A pass through the loop of [poll] that returns a result moves the
    stream of poll results one step on; any other pass changes nothing. *)
Lemma poll_inv p s out s' :
  engine_inv p s ->
  poll s = Some (out, s') ->
  match out with
  | PollResult r =>
      exists p', phase_step p (res_id r, res_type r) = Some p'
                 /\ engine_inv p' s'
  | _ => s' = s
  end.
Proof.
  intros Hinv. unfold poll, Ctl.front_op.
  destruct (negb (initialized_ s)).
  { intros E. injection E as <- <-. reflexivity. }
  unfold engine_inv in Hinv.
  destruct (Ctl.slot (controller_ s)) as [op|] eqn:Hop.
  2:{ intros E. injection E as <- <-. reflexivity. }
  destruct Hinv as [Hsh Hstart].
  assert (Hclose : forall t,
             t = SPEECH_RES_CANCELLED \/ t = SPEECH_RES_ERROR ->
             phase_step p (Ctl.id op, t) = Some Between).
  { intros t Ht. destruct p as [|j]; simpl in *.
    - destruct Ht as [-> | ->]; reflexivity.
    - destruct Hsh as [-> _]. rewrite Z.eqb_refl.
      destruct Ht as [-> | ->]; reflexivity. }
  assert (Hdrained : forall t e q,
             t = SPEECH_RES_CANCELLED \/ t = SPEECH_RES_ERROR ->
             drain_responses (Ctl.id op) (responses_ s) = Some q ->
             exists p',
               phase_step p (res_id (bare_result (Ctl.id op) t e),
                             res_type (bare_result (Ctl.id op) t e)) = Some p'
               /\ engine_inv p'
                    (set_controller
                       (Ctl.remove_front_op (controller_ (set_responses q s)))
                       (set_responses q s))).
  { intros t e q Ht Hq.
    exists Between. split; [exact (Hclose t Ht)|].
    unfold engine_inv. simpl. split; [reflexivity|].
    exact (drain_fresh _ _ _ _ Hsh Hq). }
  destruct (Ctl.status op) eqn:Hst.
  - (* START: nothing is queued *)
    destruct (Hstart eq_refl) as [-> [Hs Hi]].
    unfold poll_responses, SQ.pop. rewrite Hi.
    destruct (SQ.closed (responses_ s)); simpl; [discriminate|].
    intros E. injection E as <- <-. reflexivity.
  - apply poll_responses_inv; auto. congruence.
  - apply poll_responses_inv; auto. congruence.
  - destruct (drain_responses (Ctl.id op) (responses_ s)) as [q|] eqn:Hq;
      [|discriminate].
    intros E. injection E as <- <-. apply Hdrained; auto.
  - destruct (drain_responses (Ctl.id op) (responses_ s)) as [q|] eqn:Hq;
      [|discriminate].
    intros E. injection E as <- <-. apply Hdrained; auto.
Qed.

Lemma cancel_inv p id s : engine_inv p s -> engine_inv p (fst (cancel id s)).
Proof.
  intros Hinv. unfold cancel.
  destruct (negb (initialized_ s)); [exact Hinv|].
  destruct (0 <? id).
  - destruct (SQ.erase id 0 (voice_reqs_ s)) as [erased q].
    destruct erased; simpl.
    + apply (engine_inv_ctl p s); auto. apply ctl_step_refl.
    + destruct (cancel_text id (text_reqs_ s)) as [found l].
      destruct found; simpl.
      * apply (engine_inv_ctl p s); auto. apply ctl_step_refl.
      * pose proof (ctl_step_cancel_op id (controller_ s)) as Hc.
        destruct (Ctl.cancel_op id (controller_ s)) as [c sig]. simpl in *.
        apply (engine_inv_ctl p s); auto.
  - destruct (SQ.clear (voice_reqs_ s)) as [m q]. simpl.
    pose proof (ctl_step_cancel_op 0 (controller_ s)) as Hc.
    destruct (Ctl.cancel_op 0 (controller_ s)) as [c sig]. simpl in *.
    apply (engine_inv_ctl p s); auto.
Qed.

Lemma release_ctl s :
  ctl_step (controller_ s) (controller_ (snd (fst (release s)))).
Proof.
  unfold release.
  destruct (initialized_ s); [|apply ctl_step_refl]. simpl.
  destruct (sender_can_quit _); simpl.
  - apply ctl_step_finish_op.
  - apply ctl_step_refl.
Qed.

Lemma release_inv p s :
  engine_inv p s -> engine_inv p (snd (fst (release s))).
Proof.
  intros Hinv. unfold release.
  destruct (initialized_ s); [|exact Hinv]. simpl.
  destruct (sender_can_quit _); simpl.
  - apply (engine_inv_ctl p s); auto. simpl. apply ctl_step_finish_op.
  - apply (engine_inv_ctl p s); auto. simpl. apply ctl_step_refl.
Qed.

Lemma gen_results_step_inv p r resp el s :
  engine_inv p s -> engine_inv p (fst (gen_results_step r resp el s)).
Proof.
  intros Hinv. unfold gen_results_step.
  destruct r; simpl; try exact Hinv;
    try (apply (engine_inv_ctl p s); auto; simpl; apply ctl_step_set_op_error).
  - apply gen_result_by_resp_inv. exact Hinv.
  - destruct (Ctl.op_expired el (controller_ s)); simpl; [|exact Hinv].
    apply (engine_inv_ctl p s); auto. simpl. apply ctl_step_set_op_error.
Qed.

Lemma send_reqs_step_inv p r s s' acts :
  engine_inv p s -> send_reqs_step r s = Some (s', acts) -> engine_inv p s'.
Proof.
  intros Hinv. unfold send_reqs_step.
  destruct (sender_pc s) as [|info|id].
  - destruct (negb (initialized_ s)).
    { intros E. injection E as <- _. exact Hinv. }
    destruct (next_request s) as [[[info|] s1]|] eqn:Hnext; [| |discriminate].
    + destruct (next_request_frame _ Hnext) as (Hc & _ & Hr & _).
      assert (Hinv1 : engine_inv p s1).
      { apply (engine_inv_ctl p s); auto; try (rewrite Hr; reflexivity).
        rewrite Hc. apply ctl_step_refl. }
      unfold do_ctl_change_op, Ctl.current_op.
      destruct (req_type info);
        destruct (Ctl.slot (controller_ s1)) as [op|] eqn:Hop;
        simpl; try discriminate; intros E; injection E as <- _; simpl;
          try exact Hinv1;
          apply (engine_inv_ctl p s1); auto; simpl;
            try (apply ctl_step_new_op; exact Hop);
            try (apply ctl_step_set_status; discriminate).
    + destruct (next_request_frame _ Hnext) as (Hc & _ & Hr & _).
      intros E. injection E as <- _.
      apply (engine_inv_ctl p s); auto; try (rewrite Hr; reflexivity).
      rewrite Hc. apply ctl_step_refl.
  - unfold do_request.
    destruct (build_request info (config_ s)) as [[treq rv]|]; [|discriminate].
    destruct r; destruct (rv =? 0) eqn:Hrv; simpl; rewrite ?Hrv;
      intros E; injection E as <- _;
      simpl; try exact Hinv;
        apply (engine_inv_ctl p s); auto; simpl;
          try apply ctl_step_refresh; try apply ctl_step_set_op_error;
            try apply ctl_step_refl.
  - destruct (Ctl.op_pending id (controller_ s)); intros E;
      injection E as <- _; [exact Hinv|].
    apply (engine_inv_ctl p s); auto. apply ctl_step_refl.
Qed.

(** ** The stream of poll results *)

Lemma polled_did (acts : list action) : polled (map Did acts) = [].
Proof. induction acts; simpl; auto. Qed.

Lemma polled_app (o1 o2 : list obs) :
  polled (o1 ++ o2) = polled o1 ++ polled o2.
Proof.
  induction o1 as [|x o1 IH]; simpl; [reflexivity|].
  destruct x; simpl; rewrite ?IH; reflexivity.
Qed.

Lemma phase_run_app p p' l1 l2 :
  phase_run p l1 = Some p' -> phase_run p (l1 ++ l2) = phase_run p' l2.
Proof.
  revert p. induction l1 as [|r l1 IH]; simpl; intros p H.
  - injection H as <-. reflexivity.
  - destruct (phase_step p r); [|discriminate]. apply IH. exact H.
Qed.

(** The calls that only touch the request side keep the invariant. *)
Lemma engine_inv_frame p s s' :
  responses_ s' = responses_ s ->
  controller_ s' = controller_ s ->
  engine_inv p s -> engine_inv p s'.
Proof.
  intros Hr Hc Hinv. apply (engine_inv_ctl p s); auto.
  - rewrite Hr. reflexivity.
  - rewrite Hr. reflexivity.
  - rewrite Hc. apply ctl_step_refl.
Qed.

Lemma request_side_frame :
  (forall s, responses_ (snd (fst (prepare s))) = responses_ s
             /\ controller_ (snd (fst (prepare s))) = controller_ s)
  /\ (forall t s, responses_ (snd (fst (put_text t s))) = responses_ s
                  /\ controller_ (snd (fst (put_text t s))) = controller_ s)
  /\ (forall f k s,
         responses_ (snd (fst (start_voice f k s))) = responses_ s
         /\ controller_ (snd (fst (start_voice f k s))) = controller_ s)
  /\ (forall i v s, responses_ (fst (put_voice i v s)) = responses_ s
                    /\ controller_ (fst (put_voice i v s)) = controller_ s)
  /\ (forall i s, responses_ (fst (end_voice i s)) = responses_ s
                  /\ controller_ (fst (end_voice i s)) = controller_ s).
Proof.
  repeat split;
    unfold prepare, put_text, start_voice, put_voice, end_voice, next_id;
    repeat break_match; inv_some; simpl; reflexivity.
Qed.

(** Every step keeps the invariant and moves the stream of poll results
    by what it polled. *)
Lemma step_inv p e s s' o :
  engine_inv p s ->
  step e s = Some (s', o) ->
  exists p', phase_run p (polled o) = Some p' /\ engine_inv p' s'.
Proof.
  intros Hinv Hstep.
  destruct request_side_frame as (Hprep & Htext & Hstart & Hvoice & Hend).
  destruct e; simpl in Hstep.
  - destruct (prepare s) as [[b s1] acts] eqn:E. inv_some.
    rewrite polled_did. exists p. split; [reflexivity|].
    specialize (Hprep s). rewrite E in Hprep. simpl in Hprep.
    destruct Hprep. eapply engine_inv_frame; eauto.
  - destruct (release s) as [[returned s1] acts] eqn:E.
    destruct returned; [|discriminate]. inv_some.
    rewrite polled_did. exists p. split; [reflexivity|].
    pose proof (release_inv p s Hinv) as H. rewrite E in H. exact H.
  - inv_some. exists p. split; [reflexivity|].
    eapply engine_inv_frame; eauto; reflexivity.
  - destruct (put_text text s) as [[i s1] acts] eqn:E. inv_some.
    simpl. rewrite polled_did. exists p. split; [reflexivity|].
    specialize (Htext text s). rewrite E in Htext. simpl in Htext.
    destruct Htext. eapply engine_inv_frame; eauto.
  - destruct (start_voice framework skill s) as [[i s1] acts] eqn:E. inv_some.
    simpl. rewrite polled_did. exists p. split; [reflexivity|].
    specialize (Hstart framework skill s). rewrite E in Hstart.
    simpl in Hstart. destruct Hstart. eapply engine_inv_frame; eauto.
  - destruct (put_voice id voice s) as [s1 acts] eqn:E. inv_some.
    rewrite polled_did. exists p. split; [reflexivity|].
    specialize (Hvoice id voice s). rewrite E in Hvoice. simpl in Hvoice.
    destruct Hvoice. eapply engine_inv_frame; eauto.
  - destruct (end_voice id s) as [s1 acts] eqn:E. inv_some.
    rewrite polled_did. exists p. split; [reflexivity|].
    specialize (Hend id s). rewrite E in Hend. simpl in Hend.
    destruct Hend. eapply engine_inv_frame; eauto.
  - destruct (cancel id s) as [s1 acts] eqn:E. inv_some.
    rewrite polled_did. exists p. split; [reflexivity|].
    pose proof (cancel_inv p id s Hinv) as H. rewrite E in H. exact H.
  - destruct (poll s) as [[out s1]|] eqn:E; [|discriminate].
    pose proof (poll_inv p s out s1 Hinv E) as H.
    destruct out; inv_some; simpl.
    + destruct H as (p' & Hp & Hinv'). exists p'. rewrite Hp. auto.
    + exists p. subst. auto.
    + exists p. subst. auto.
  - destruct (send_reqs_step r s) as [[s1 acts]|] eqn:E; [|discriminate].
    inv_some. rewrite polled_did. exists p. split; [reflexivity|].
    exact (send_reqs_step_inv p r s s' acts Hinv E).
  - destruct (gen_results_step r resp elapsed s) as [s1 acts] eqn:E. inv_some.
    rewrite polled_did. exists p. split; [reflexivity|].
    pose proof (gen_results_step_inv p r resp elapsed s Hinv) as H.
    rewrite E in H. exact H.
Qed.

Lemma run_inv evs p s s' o :
  engine_inv p s ->
  run evs s = Some (s', o) ->
  exists p', phase_run p (polled o) = Some p' /\ engine_inv p' s'.
Proof.
  revert p s o. induction evs as [|e evs IH]; simpl; intros p s o Hinv Hrun.
  - inv_some. exists p. auto.
  - destruct (step e s) as [[s1 o1]|] eqn:Hstep; [|discriminate].
    destruct (run evs s1) as [[s2 o2]|] eqn:Hrest; [|discriminate].
    inv_some.
    destruct (step_inv p e s s1 o1 Hinv Hstep) as (p1 & Hp1 & Hinv1).
    destruct (IH p1 s1 o2 Hinv1 Hrest) as (p2 & Hp2 & Hinv2).
    exists p2. split; [|exact Hinv2].
    rewrite polled_app, (phase_run_app _ _ _ _ Hp1). exact Hp2.
Qed.

Lemma engine_inv_new : engine_inv Between new_speech.
Proof. unfold engine_inv. simpl. repeat split. Qed.


(** ** poll on a cancelled operation *)










(** ** Cancellation *)



(** C2: the code diverges.  [cancel(1)] is called after [start_voice]
    returned 1 and before any result of the session was polled; it finds a
    chunk of the session queued, erases the session from the request
    queue, which leaves a marker for the sender thread, and returns
    without touching the operation.  When the finish response of the
    server arrives before the sender thread takes the marker, the
    session's terminal poll result has type END, not CANCELLED.  When the
    sender thread takes the marker first, the same calls give the single
    poll result CANCELLED. *)
Theorem cancelled_session_ends :
  (exists s o,
      run finish_beats_cancel new_speech = Some (s, o)
      /\ returned o = [1]
      /\ finish_beats_cancel
         = [ EPrepare; EStartVoice None None;
             ESendReqs CONN_SUCCESS; ESendReqs CONN_SUCCESS;
             EPutVoice 1 (Some "ab"); ECancel 1;
             EGenResults CONN_SUCCESS
                         (mk_resp 1 0 true "hi" "{nlp}" "{act}" "") false;
             EPoll; EPoll ]
      /\ polled o = [ (1, SPEECH_RES_START); (1, SPEECH_RES_END) ])
  /\ (exists s o,
         run cancel_beats_finish new_speech = Some (s, o)
         /\ returned o = [1]
         /\ cancel_beats_finish
            = [ EPrepare; EStartVoice None None;
                ESendReqs CONN_SUCCESS; ESendReqs CONN_SUCCESS;
                EPutVoice 1 (Some "ab"); ECancel 1;
                ESendReqs CONN_SUCCESS;
                EGenResults CONN_SUCCESS
                            (mk_resp 1 0 true "hi" "{nlp}" "{act}" "") false;
                EPoll ]
         /\ polled o = [ (1, SPEECH_RES_CANCELLED) ]).
Proof. split; eexists; eexists; vm_compute; repeat split. Qed.

(** When the sender then takes the marker, a CANCELLED result follows the
    END of the same id. *)
Lemma cancelled_after_end :
  exists s o,
    run cancel_after_end new_speech = Some (s, o)
    /\ polled o = [ (1, SPEECH_RES_START); (1, SPEECH_RES_END);
                    (1, SPEECH_RES_CANCELLED) ].
Proof. eexists. eexists. vm_compute. split; reflexivity. Qed.

(** * Further properties of the engine *)

(** ** Error codes *)

(** X1: the wire code 0 is the only one that [integer_to_reserr] maps to
    SUCCESS, and no wire code maps to TIMEOUT. *)
Theorem reserr_success_only_for_zero :
  forall err : Z,
    (integer_to_reserr err = SPEECH_SUCCESS <-> err = 0)
    /\ integer_to_reserr err <> SPEECH_TIMEOUT.
Proof.
  intros err. destruct err as [|p|p].
  - split; [split; reflexivity | discriminate].
  - do 8 (try (destruct p as [p|p|];
               try solve [simpl; split;
                          [split; intros H; discriminate H | discriminate]])).
  - simpl. split; [split; intros H; discriminate H | discriminate].
Qed.

(** ** Calls on an engine that is not prepared *)

(** X2: on an engine that is not initialized, [put_text] and [start_voice]
    return -1, [poll] returns false, and neither they nor [put_voice],
    [end_voice], [cancel] and [release] change the engine or act on the
    world outside. *)
Theorem released_engine_is_inert :
  forall (s : SpeechImpl) (text : option string) (f k : option Options)
         (id : Z) (voice : option string),
    initialized_ s = false ->
    put_text text s = (-1, s, [])
    /\ start_voice f k s = (-1, s, [])
    /\ put_voice id voice s = (s, [])
    /\ end_voice id s = (s, [])
    /\ cancel id s = (s, [])
    /\ poll s = Some (PollReleased, s)
    /\ release s = (true, s, []).
Proof.
  intros s text f k id voice Hinit.
  unfold put_text, start_voice, put_voice, end_voice, cancel, poll, release.
  rewrite Hinit. simpl. destruct text; repeat split.
Qed.

(** The instance of [released_engine_is_inert] at a newly constructed
    engine. *)
Lemma released_engine_is_inert_witness :
  put_text (Some "hello") new_speech = (-1, new_speech, [])
  /\ cancel 0 new_speech = (new_speech, [])
  /\ poll new_speech = Some (PollReleased, new_speech).
Proof.
  destruct (released_engine_is_inert new_speech (Some "hello") None None 0 None
              eq_refl) as (H1 & _ & _ & _ & H5 & H6 & _).
  repeat split; assumption.
Defined.

(** X3: [prepare] returns true and leaves the engine initialized; on an
    engine that is initialized already it changes nothing and does
    nothing, and otherwise it sets the id counter to 0, initializes the
    transport and starts the two threads.  A second call in a row does
    nothing. *)
Theorem prepare_idempotent :
  forall s : SpeechImpl,
    fst (fst (prepare s)) = true
    /\ initialized_ (snd (fst (prepare s))) = true
    /\ (if initialized_ s
        then prepare s = (true, s, [])
        else next_id_ (snd (fst (prepare s))) = 0
             /\ snd (prepare s)
                = [ConnInitialize; SpawnReqThread; SpawnRespThread])
    /\ prepare (snd (fst (prepare s))) = (true, snd (fst (prepare s)), []).
Proof.
  intros s. unfold prepare.
  destruct (initialized_ s) eqn:Hinit; simpl.
  - rewrite Hinit. repeat split.
  - repeat split.
Qed.

(** X4: [put_voice] with an id that is not positive, with a null chunk or
    with an empty chunk, and [end_voice] with an id that is not positive,
    change nothing and wake nobody; [put_text] with a null text returns
    -1 without taking an id. *)
Theorem voice_argument_guards :
  forall (s : SpeechImpl) (id : Z) (voice : option string),
    id <= 0 \/ voice = None \/ voice = Some "" ->
    put_voice id voice s = (s, [])
    /\ (id <= 0 -> end_voice id s = (s, []))
    /\ put_text None s = (-1, s, []).
Proof.
  intros s id voice H. split; [|split].
  - unfold put_voice. destruct (negb (initialized_ s)); [reflexivity|].
    destruct H as [H|[->| ->]].
    + apply Z.leb_le in H. destruct voice; [|reflexivity].
      rewrite H. reflexivity.
    + reflexivity.
    + simpl. rewrite orb_true_r. reflexivity.
  - intros Hid. unfold end_voice.
    destruct (negb (initialized_ s)); [reflexivity|].
    apply Z.leb_le in Hid. rewrite Hid. reflexivity.
  - reflexivity.
Qed.

(** The instance of [voice_argument_guards] at an empty chunk for the
    session of [voice_in_flight]. *)
Lemma voice_argument_guards_witness :
  put_voice 1 (Some "") (state_after voice_in_flight)
  = (state_after voice_in_flight, []).
Proof.
  exact (proj1 (voice_argument_guards (state_after voice_in_flight) 1
                  (Some "") (or_intror (or_intror eq_refl)))).
Defined.

(** ** poll *)

(** X5: a result that [poll] returns carries the id of the operation that
    is installed when [poll] is called, on an initialized engine; the
    operation is removed from the controller exactly when the type of the
    result is terminal (END, CANCELLED or ERROR), and it stays as it is
    otherwise.  A pass that returns no result changes nothing. *)
Theorem poll_result_is_of_front_op :
  forall (s s' : SpeechImpl) (out : PollOutcome),
    poll s = Some (out, s') ->
    match out with
    | PollResult res =>
        initialized_ s = true
        /\ exists op,
            Ctl.front_op (controller_ s) = Some op
            /\ res_id res = Ctl.id op
            /\ Ctl.slot (controller_ s')
               = (if is_terminal (res_type res) then None else Some op)
    | PollWait | PollReleased => s' = s
    end.
Proof.
  intros s s' out. unfold poll, Ctl.front_op.
  destruct (initialized_ s); simpl.
  2:{ intros H. injection H as <- <-. reflexivity. }
  destruct (Ctl.slot (controller_ s)) as [op|] eqn:Hop.
  2:{ intros H. injection H as <- <-. reflexivity. }
  assert (Hpop : poll_responses op s = Some (out, s') ->
                 match out with
                 | PollResult res =>
                     true = true
                     /\ exists op0,
                         Some op = Some op0
                         /\ res_id res = Ctl.id op0
                         /\ Ctl.slot (controller_ s')
                            = (if is_terminal (res_type res) then None
                               else Some op0)
                 | _ => s' = s
                 end).
  { unfold poll_responses.
    destruct (SQ.pop (responses_ s)) as [[code popped] q].
    destruct (code =? SQ.POP_TYPE_EMPTY).
    { intros H. injection H as <- <-. reflexivity. }
    destruct popped as [[[j d] err]|]; [|discriminate].
    destruct (j =? Ctl.id op) eqn:Hj; simpl; [|discriminate].
    apply Z.eqb_eq in Hj.
    destruct (poptype_to_restype code) as [t|]; [|discriminate].
    intros H. injection H as <- <-.
    split; [reflexivity|]. exists op. split; [reflexivity|].
    split; [destruct d; exact Hj|].
    assert (Ht : res_type
                   match d with
                   | Some b =>
                       {| res_id := j; res_type := t;
                          res_err := integer_to_reserr err;
                          res_asr := in_asr b; res_nlp := in_nlp b;
                          res_action := in_action b;
                          res_extra := in_extra b |}
                   | None => bare_result j t (integer_to_reserr err)
                   end = t) by (destruct d; reflexivity).
    rewrite Ht. destruct (is_terminal t); simpl; [reflexivity | exact Hop]. }
  destruct (Ctl.status op); try exact Hpop;
    (destruct (drain_responses (Ctl.id op) (responses_ s));
     [|discriminate]);
    intros H; injection H as <- <-; simpl;
      (split; [reflexivity|]); exists op; repeat split.
Qed.

(** The instance of [poll_result_is_of_front_op] at the first result of
    the text session of scenario 1, a START, which leaves the operation
    installed. *)
Lemma poll_result_is_of_front_op_witness :
  exists res s',
    poll (state_after (firstn 6 happy_text)) = Some (PollResult res, s')
    /\ res_id res = 1 /\ res_type res = SPEECH_RES_START
    /\ exists op, Ctl.slot (controller_ s') = Some op /\ Ctl.id op = 1.
Proof.
  assert (H : exists res s',
             poll (state_after (firstn 6 happy_text))
             = Some (PollResult res, s')
             /\ res_id res = 1 /\ res_type res = SPEECH_RES_START).
  { eexists. eexists. vm_compute. repeat split. }
  destruct H as (res & s' & Hpoll & Hid & Hty).
  exists res, s'. repeat split; try assumption.
  destruct (poll_result_is_of_front_op _ _ _ Hpoll)
    as (_ & op & _ & Hop & Hslot).
  rewrite Hty in Hslot. simpl in Hslot.
  exists op. split; [exact Hslot | congruence].
Defined.




(** ** The receiver and the sender *)

(** X7: a response is dropped when no operation is installed, when the
    installed operation has another id, or when it is CANCELLED or ERROR:
    [gen_result_by_resp] then changes nothing and does not wake [poll]. *)
Theorem late_response_is_dropped :
  forall (resp : SpeechResponse) (s : SpeechImpl),
    (Ctl.current_op (controller_ s) = None
     \/ exists op,
         Ctl.current_op (controller_ s) = Some op
         /\ (Ctl.id op <> resp_id resp
             \/ Ctl.status op = SpeechStatus.CANCELLED
             \/ Ctl.status op = SpeechStatus.ERROR)) ->
    gen_result_by_resp resp s = (s, [])
    /\ gen_results_step CONN_SUCCESS resp false s = (s, []).
Proof.
  intros resp s H.
  assert (Hg : gen_result_by_resp resp s = (s, [])).
  { unfold gen_result_by_resp.
    destruct H as [-> | (op & -> & H)]; [reflexivity|].
    destruct H as [H|[H|H]].
    - apply Z.eqb_neq in H. rewrite H. reflexivity.
    - rewrite H. simpl. rewrite andb_false_r. reflexivity.
    - rewrite H. simpl. rewrite andb_false_r. reflexivity. }
  split; [exact Hg | exact Hg].
Qed.

(** The instance of [late_response_is_dropped] at a finish response that
    arrives after its session was cancelled. *)
Lemma late_response_is_dropped_witness :
  gen_result_by_resp (mk_resp 1 0 true "hi" "{nlp}" "{act}" "")
                     (state_after early_cancel)
  = (state_after early_cancel, []).
Proof.
  apply (late_response_is_dropped
           (mk_resp 1 0 true "hi" "{nlp}" "{act}" "")
           (state_after early_cancel)).
  right. eexists. split; [vm_compute; reflexivity|].
  right. left. reflexivity.
Defined.

(** X8: whenever [do_request] gets as far as the transport, it hands one
    message to [connection_.send] first, with the id of the request and
    with type END exactly for the kinds VOICE_END and CANCELLED; it
    returns -1 exactly when the transport did not answer SUCCESS, and 0,
    which makes the sender wait for the operation to finish, exactly when
    the transport answered SUCCESS to a TEXT or a VOICE_END request (not
    to a CANCELLED one). *)
Theorem do_request_message :
  forall (req : SpeechReqInfo) (r : ConnectionOpResult) (s s' : SpeechImpl)
         (rv : Z) (acts : list action),
    do_request req r s = Some (rv, s', acts) ->
    (exists m rest,
        acts = ConnSend m :: rest
        /\ treq_id m = req_id req
        /\ (treq_type m = ReqType.END
            <-> req_type req = SpeechReqType.VOICE_END
                \/ req_type req = SpeechReqType.CANCELLED))
    /\ (rv = -1 <-> r <> CONN_SUCCESS)
    /\ (rv = 0
        <-> r = CONN_SUCCESS
            /\ (req_type req = SpeechReqType.TEXT
                \/ req_type req = SpeechReqType.VOICE_END)).
Proof.
  intros req r s s' rv acts. unfold do_request, build_request.
  destruct (req_type req) eqn:Hty;
    try (destruct (req_data req); [|discriminate]);
    try (destruct (req_fsoptions req); [|discriminate]);
    destruct r; simpl; intros H; injection H as <- <- <-;
      (split; [eexists; eexists; split; [reflexivity|]; split; [reflexivity|];
               simpl; split; [intros E; try discriminate E; auto
                             | intros [E|E]; try discriminate E; reflexivity]
              |]);
      (split; [split; [intros E; try discriminate E; discriminate
                      | intros E; try reflexivity; exfalso; apply E; reflexivity]
              | split; [intros E; try discriminate E; split; auto
                       | intros [E1 [E2|E2]]; try discriminate E1;
                         try discriminate E2; reflexivity]]).
Qed.

(** The instance of [do_request_message] at the CANCELLED request of
    [cancel_with_chunk_queued]: END goes out, and the sender does not
    wait. *)
Lemma do_request_message_witness :
  exists s' acts,
    do_request cancelled_request_1 CONN_SUCCESS
               (state_after cancel_with_chunk_queued)
    = Some (1, s', acts)
    /\ exists m rest,
        acts = ConnSend m :: rest /\ treq_id m = 1
        /\ treq_type m = ReqType.END.
Proof.
  assert (H : exists s' acts,
             do_request cancelled_request_1 CONN_SUCCESS
                        (state_after cancel_with_chunk_queued)
             = Some (1, s', acts)).
  { eexists. eexists. vm_compute. reflexivity. }
  destruct H as (s' & acts & H). exists s', acts. split; [exact H|].
  destruct (do_request_message _ _ _ _ _ _ H) as ((m & rest & Ha & Hid & Hty) & _).
  exists m, rest. split; [exact Ha|]. split; [exact Hid|].
  apply Hty. right. reflexivity.
Defined.







(** ** The operation slot *)

Lemma ctl_step_trans c1 c2 c3 :
  ctl_step c1 c2 -> ctl_step c2 c3 -> ctl_step c1 c3.
Proof.
  intros [H1|[(a & b & Ha & Hb & Hid & Hst)|(Hn & b & Hb)]]
         [H2|[(a' & b' & Ha' & Hb' & Hid' & Hst')|(Hn' & b' & Hb')]].
  - left. congruence.
  - right. left. exists a', b'. rewrite <- H1. auto.
  - right. right. split; [congruence|]. exists b'. exact Hb'.
  - right. left. exists a, b. rewrite H2. auto.
  - right. left. exists a, b'. rewrite Hb in Ha'. injection Ha' as <-.
    repeat split; auto. congruence.
  - rewrite Hb in Hn'. discriminate.
  - right. right. split; [exact Hn|]. exists b. congruence.
  - right. right. split; [exact Hn|]. exists b'. exact Hb'.
  - rewrite Hb in Hn'. discriminate.
Qed.

Lemma gen_result_by_resp_ctl resp s :
  ctl_step (controller_ s) (controller_ (fst (gen_result_by_resp resp s))).
Proof.
  unfold gen_result_by_resp, Ctl.current_op.
  destruct (Ctl.slot (controller_ s)) as [op|] eqn:Hop; [|apply ctl_step_refl].
  destruct ((Ctl.id op =? resp_id resp)
            && negb (SpeechStatus.eqb (Ctl.status op) SpeechStatus.CANCELLED)
            && negb (SpeechStatus.eqb (Ctl.status op) SpeechStatus.ERROR));
    [|apply ctl_step_refl].
  destruct (SpeechStatus.eqb (Ctl.status op) SpeechStatus.START);
    destruct (resp_result resp =? 0);
    try destruct (resp_finish resp); simpl;
      unfold Ctl.finish_op;
      repeat (first [ apply ctl_step_refl
                    | eapply ctl_step_trans;
                      [|apply ctl_step_set_status; discriminate] ]).
Qed.

(** Every step other than a call of [poll] changes the controller by a
    [ctl_step]. *)
Lemma step_ctl e s s' o :
  e <> EPoll ->
  step e s = Some (s', o) ->
  ctl_step (controller_ s) (controller_ s').
Proof.
  intros Hne Hstep.
  destruct request_side_frame as (Hprep & Htext & Hstart & Hvoice & Hend).
  destruct e; simpl in Hstep; try congruence.
  - destruct (prepare s) as [[b s1] acts] eqn:E. inv_some.
    specialize (Hprep s). rewrite E in Hprep. simpl in Hprep.
    destruct Hprep as [_ ->]. apply ctl_step_refl.
  - pose proof (release_ctl s) as H.
    destruct (release s) as [[returned s1] acts] eqn:E.
    destruct returned; [|discriminate]. inv_some. exact H.
  - inv_some. apply ctl_step_refl.
  - destruct (put_text text s) as [[i s1] acts] eqn:E. inv_some.
    specialize (Htext text s). rewrite E in Htext. simpl in Htext.
    destruct Htext as [_ ->]. apply ctl_step_refl.
  - destruct (start_voice framework skill s) as [[i s1] acts] eqn:E. inv_some.
    specialize (Hstart framework skill s). rewrite E in Hstart.
    simpl in Hstart. destruct Hstart as [_ ->]. apply ctl_step_refl.
  - destruct (put_voice id voice s) as [s1 acts] eqn:E. inv_some.
    specialize (Hvoice id voice s). rewrite E in Hvoice. simpl in Hvoice.
    destruct Hvoice as [_ ->]. apply ctl_step_refl.
  - destruct (end_voice id s) as [s1 acts] eqn:E. inv_some.
    specialize (Hend id s). rewrite E in Hend. simpl in Hend.
    destruct Hend as [_ ->]. apply ctl_step_refl.
  - destruct (cancel id s) as [s1 acts] eqn:E. inv_some.
    unfold cancel in E.
    destruct (negb (initialized_ s)); [inv_some; apply ctl_step_refl|].
    destruct (0 <? id).
    + destruct (SQ.erase id 0 (voice_reqs_ s)) as [erased q].
      destruct erased; [inv_some; apply ctl_step_refl|].
      destruct (cancel_text id (text_reqs_ (set_voice_reqs q s)))
        as [found l].
      destruct found; [inv_some; apply ctl_step_refl|].
      pose proof (ctl_step_cancel_op id (controller_ s)) as Hc.
      simpl in E.
      destruct (Ctl.cancel_op id (controller_ s)) as [c sig]. inv_some.
      exact Hc.
    + destruct (SQ.clear (voice_reqs_ s)) as [m q]. simpl in E.
      pose proof (ctl_step_cancel_op 0 (controller_ s)) as Hc.
      destruct (Ctl.cancel_op 0 (controller_ s)) as [c sig]. inv_some.
      exact Hc.
  - destruct (send_reqs_step r s) as [[s1 acts]|] eqn:E; [|discriminate].
    inv_some. unfold send_reqs_step in E.
    destruct (sender_pc s) as [|info|id].
    + destruct (negb (initialized_ s)); [inv_some; apply ctl_step_refl|].
      destruct (next_request s) as [[[info|] s1]|] eqn:Hnext;
        [| |discriminate].
      * destruct (@next_request_frame _ _ _ Hnext) as (Hc & _).
        rewrite <- Hc. unfold do_ctl_change_op, Ctl.current_op in E.
        destruct (req_type info);
          destruct (Ctl.slot (controller_ s1)) as [op|] eqn:Hop;
          simpl in E; inv_some; simpl;
            first [ apply ctl_step_refl
                  | apply ctl_step_new_op; exact Hop
                  | apply ctl_step_set_status; discriminate ].
      * destruct (@next_request_frame _ _ _ Hnext) as (Hc & _).
        inv_some. rewrite Hc. apply ctl_step_refl.
    + unfold do_request in E.
      destruct (build_request info (config_ s)) as [[treq rv]|];
        [|discriminate].
      destruct r; destruct (rv =? 0) eqn:Hrv; simpl in E; rewrite ?Hrv in E;
        inv_some; simpl;
          first [ apply ctl_step_refl | apply ctl_step_refresh
                | apply ctl_step_set_op_error ].
    + destruct (Ctl.op_pending id (controller_ s)); inv_some;
        apply ctl_step_refl.
  - destruct (gen_results_step r resp elapsed s) as [s1 acts] eqn:E. inv_some.
    unfold gen_results_step in E.
    destruct r; try (inv_some; simpl;
                     first [ apply ctl_step_refl
                           | apply ctl_step_set_op_error ]).
    + pose proof (gen_result_by_resp_ctl resp s) as H. rewrite E in H.
      exact H.
    + destruct (Ctl.op_expired elapsed (controller_ s)); inv_some; simpl;
        first [ apply ctl_step_refl | apply ctl_step_set_op_error ].
Qed.

(** X11: the operation slot is freed by [poll] only.  Every other step of
    the engine, of whatever thread, leaves an installed operation
    installed, with its id, and never puts it back into status START. *)
Theorem slot_is_kept_until_polled :
  forall (e : event) (s s' : SpeechImpl) (o : list obs) (op : Ctl.Operation),
    e <> EPoll ->
    step e s = Some (s', o) ->
    Ctl.slot (controller_ s) = Some op ->
    exists op',
      Ctl.slot (controller_ s') = Some op'
      /\ Ctl.id op' = Ctl.id op
      /\ (Ctl.status op' = SpeechStatus.START
          -> Ctl.status op = SpeechStatus.START)
      /\ polled o = [].
Proof.
  intros e s s' o op Hne Hstep Hop.
  assert (Hpolled : polled o = []).
  { destruct e; simpl in Hstep; try congruence;
      repeat break_match; inv_some; simpl; rewrite ?polled_did; reflexivity. }
  destruct (step_ctl e s s' o Hne Hstep)
    as [Hsame|[(a & b & Ha & Hb & Hid & Hst)|(Hnone & _)]].
  - exists op. rewrite Hsame. auto.
  - rewrite Hop in Ha. injection Ha as <-.
    exists b. repeat split; auto. intros E. destruct (Hst E).
  - rewrite Hop in Hnone. discriminate.
Qed.

(** The instance of [slot_is_kept_until_polled] at a mass cancel while a
    text session is in flight. *)
Lemma slot_is_kept_until_polled_witness :
  exists s' o op',
    step (ECancel 0) (state_after text_sent) = Some (s', o)
    /\ Ctl.slot (controller_ s') = Some op'
    /\ Ctl.id op' = 1.
Proof.
  assert (H : exists s' o, step (ECancel 0) (state_after text_sent)
                           = Some (s', o)).
  { eexists. eexists. vm_compute. reflexivity. }
  destruct H as (s' & o & Hstep).
  destruct (slot_is_kept_until_polled (ECancel 0) (state_after text_sent) s' o
              {| Ctl.id := 1; Ctl.status := SpeechStatus.START;
                 Ctl.error := SPEECH_SUCCESS |})
    as (op' & Hslot & Hid & _).
  - discriminate.
  - exact Hstep.
  - vm_compute. reflexivity.
  - exists s', o, op'. repeat split; assumption.
Defined.

(** ** The blocks of the stream of poll results *)

Lemma run_snoc evs e s0 :
  run (evs ++ [e]) s0
  = match run evs s0 with
    | Some (s, o) =>
        match step e s with
        | Some (s', oe) => Some (s', o ++ oe)
        | None => None
        end
    | None => None
    end.
Proof.
  revert s0. induction evs as [|e0 evs IH]; intros s0; simpl.
  - destruct (step e s0) as [[s' oe]|]; [|reflexivity].
    rewrite app_nil_r. reflexivity.
  - destruct (step e0 s0) as [[s1 o1]|]; [|reflexivity].
    rewrite IH.
    destruct (run evs s1) as [[s o]|]; [|reflexivity].
    destruct (step e s) as [[s' oe]|]; [|reflexivity].
    rewrite app_assoc. reflexivity.
Qed.

Lemma installed_snoc evs e s0 s o s' oe :
  run evs s0 = Some (s, o) ->
  step e s = Some (s', oe) ->
  installed (evs ++ [e]) s0 = installed evs s0 ++ installed_by s s'.
Proof.
  revert s0 o. induction evs as [|e0 evs IH]; intros s0 o Hrun Hstep; simpl.
  - simpl in Hrun. inv_some. rewrite Hstep, app_nil_r. reflexivity.
  - simpl in Hrun.
    destruct (step e0 s0) as [[s1 o1]|]; [|discriminate].
    destruct (run evs s1) as [[s2 o2]|] eqn:Hrest; [|discriminate].
    inv_some. rewrite (IH s1 o2 Hrest Hstep), app_assoc. reflexivity.
Qed.

(** A step other than a call of [poll] returns no poll result. *)
Lemma step_polls_nothing e s s' o :
  e <> EPoll -> step e s = Some (s', o) -> polled o = [].
Proof.
  intros Hne Hstep.
  destruct e; simpl in Hstep; try congruence;
    repeat break_match; inv_some; simpl; rewrite ?polled_did; reflexivity.
Qed.

(** A result that [poll] returns is one of the installed operation, which
    [poll] removes exactly when the result is terminal; a pass without
    result changes nothing. *)
Lemma poll_front_op s s' out :
  poll s = Some (out, s') ->
  match out with
  | PollResult res =>
      exists op,
        Ctl.slot (controller_ s) = Some op
        /\ res_id res = Ctl.id op
        /\ Ctl.slot (controller_ s')
           = (if is_terminal (res_type res) then None else Some op)
  | PollWait | PollReleased => s' = s
  end.
Proof.
  unfold poll, Ctl.front_op.
  destruct (initialized_ s); simpl.
  2:{ intros H. injection H as <- <-. reflexivity. }
  destruct (Ctl.slot (controller_ s)) as [op|] eqn:Hop.
  2:{ intros H. injection H as <- <-. reflexivity. }
  assert (Hpop : poll_responses op s = Some (out, s') ->
                 match out with
                 | PollResult res =>
                     exists op0,
                       Some op = Some op0
                       /\ res_id res = Ctl.id op0
                       /\ Ctl.slot (controller_ s')
                          = (if is_terminal (res_type res) then None
                             else Some op0)
                 | _ => s' = s
                 end).
  { unfold poll_responses.
    destruct (SQ.pop (responses_ s)) as [[code popped] q].
    destruct (code =? SQ.POP_TYPE_EMPTY).
    { intros H. injection H as <- <-. reflexivity. }
    destruct popped as [[[j d] err]|]; [|discriminate].
    destruct (j =? Ctl.id op) eqn:Hj; simpl; [|discriminate].
    apply Z.eqb_eq in Hj.
    destruct (poptype_to_restype code) as [t|]; [|discriminate].
    intros H. injection H as <- <-.
    exists op. split; [reflexivity|].
    split; [destruct d; exact Hj|].
    destruct d; simpl; destruct (is_terminal t); simpl;
      first [reflexivity | exact Hop]. }
  destruct (Ctl.status op); try exact Hpop;
    (destruct (drain_responses (Ctl.id op) (responses_ s));
     [|discriminate]);
    intros H; injection H as <- <-; simpl;
      exists op; repeat split.
Qed.

Lemma phase_run_inters i l :
  forallb is_inter l = true ->
  phase_run (Within i) (map (pair i) l) = Some (Within i).
Proof.
  induction l as [|t l IH]; simpl; [reflexivity|].
  rewrite Z.eqb_refl. destruct t; simpl; try discriminate. exact IH.
Qed.

Lemma phase_run_closed i l :
  inter_then_closed l = true ->
  phase_run (Within i) (map (pair i) l) = Some Between.
Proof.
  induction l as [|t l IH]; simpl; [discriminate|].
  rewrite Z.eqb_refl.
  destruct t; simpl; try discriminate; try exact IH;
    destruct l; try discriminate; reflexivity.
Qed.

Lemma phase_run_unfinished i l :
  unfinished l = true ->
  phase_run Between (results_of (i, l)) = Some (phase_of i l).
Proof.
  unfold results_of. destruct l as [|t l]; simpl; [reflexivity|].
  destruct t; try discriminate. apply phase_run_inters.
Qed.

Lemma phase_run_finished i l :
  finished l = true ->
  phase_run Between (results_of (i, l)) = Some Between.
Proof.
  unfold results_of. destruct l as [|t l]; simpl; [discriminate|].
  destruct t; try discriminate.
  - apply phase_run_closed.
  - destruct l; [reflexivity | discriminate].
  - destruct l; [reflexivity | discriminate].
Qed.

Lemma phase_run_done (done : list block) :
  Forall (fun b => finished (snd b) = true) done ->
  phase_run Between (flat_map results_of done) = Some Between.
Proof.
  induction 1 as [|[i l] done Hb _ IH]; simpl; [reflexivity|].
  rewrite (phase_run_app _ _ _ _ (phase_run_finished i l Hb)). exact IH.
Qed.

(** One more result of the operation [i] behind its unfinished block. *)
Lemma block_extends i l t p' :
  unfinished l = true ->
  phase_step (phase_of i l) (i, t) = Some p' ->
  if is_terminal t then finished (l ++ [t]) = true
  else unfinished (l ++ [t]) = true.
Proof.
  destruct l as [|t0 l]; simpl.
  - intros _. destruct t; simpl; try discriminate; reflexivity.
  - destruct t0; try discriminate. intros Hl. rewrite Z.eqb_refl.
    destruct t; simpl; try discriminate; intros _.
    + rewrite forallb_app, Hl. reflexivity.
    + induction l as [|x l IH]; simpl in *; [reflexivity|].
      destruct x; try discriminate. apply IH. exact Hl.
    + induction l as [|x l IH]; simpl in *; [reflexivity|].
      destruct x; try discriminate. apply IH. exact Hl.
    + induction l as [|x l IH]; simpl in *; [reflexivity|].
      destruct x; try discriminate. apply IH. exact Hl.
Qed.

Lemma results_of_snoc i l t :
  results_of (i, l ++ [t]) = results_of (i, l) ++ [(i, t)].
Proof. unfold results_of. simpl. rewrite map_app. reflexivity. Qed.

(** The blocks follow the operations through every run. *)
Lemma run_served evs :
  forall s o,
    run evs new_speech = Some (s, o) ->
    served (installed evs new_speech) (Ctl.slot (controller_ s)) (polled o).
Proof.
  induction evs as [|e evs IH] using rev_ind; intros s' o' Hrun.
  - simpl in Hrun. inv_some. exists [], []. simpl. repeat split. constructor.
  - rewrite run_snoc in Hrun.
    destruct (run evs new_speech) as [[s o]|] eqn:Hpre; [|discriminate].
    destruct (step e s) as [[s1 oe]|] eqn:Hstep; [|discriminate].
    inv_some.
    rewrite (installed_snoc evs e new_speech s o s' oe Hpre Hstep), polled_app.
    destruct (IH s o eq_refl) as (done & cur & Hl & Hops & Hdone & Hcur).
    assert (Hpoll : e = EPoll \/ e <> EPoll)
      by (destruct e; first [left; reflexivity | right; discriminate]).
    destruct Hpoll as [-> | Hne].
    + (* a call of poll *)
      simpl in Hstep.
      destruct (poll s) as [[out s2]|] eqn:Hp; [|discriminate].
      pose proof (poll_front_op s s2 out Hp) as Hfront.
      destruct (run_inv evs Between new_speech s o engine_inv_new Hpre)
        as (p & Hphase & Hinv).
      pose proof (poll_inv p s out s2 Hinv Hp) as Hnext.
      destruct out as [res| |]; inv_some; simpl.
      * destruct Hfront as (op & Hop & Hid & Hslot).
        destruct Hnext as (p' & Hp' & _).
        unfold installed_by. rewrite Hop, app_nil_r.
        rewrite Hop in Hcur. destruct Hcur as (ts & -> & Hts).
        assert (Hp_eq : p = phase_of (Ctl.id op) ts).
        { rewrite Hl, flat_map_app in Hphase. simpl in Hphase.
          rewrite app_nil_r in Hphase.
          rewrite (phase_run_app _ _ _ _ (phase_run_done done Hdone)) in Hphase.
          rewrite (phase_run_unfinished (Ctl.id op) ts Hts) in Hphase.
          congruence. }
        rewrite Hid, Hp_eq in Hp'.
        pose proof (block_extends _ _ _ _ Hts Hp') as Hext.
        rewrite Hslot, Hid.
        destruct (is_terminal (res_type res)).
        -- exists (done ++ [(Ctl.id op, ts ++ [res_type res])]), [].
           rewrite app_nil_r. split; [|split; [|split]].
           ++ rewrite Hl, !flat_map_app. simpl.
              rewrite !app_nil_r, results_of_snoc, app_assoc. reflexivity.
           ++ rewrite <- Hops, !map_app. reflexivity.
           ++ apply Forall_app. split; [exact Hdone|].
              constructor; [exact Hext | constructor].
           ++ reflexivity.
        -- exists done, [(Ctl.id op, ts ++ [res_type res])].
           split; [|split; [|split]].
           ++ rewrite Hl, !flat_map_app. simpl.
              rewrite !app_nil_r, results_of_snoc, app_assoc. reflexivity.
           ++ rewrite <- Hops, !map_app. reflexivity.
           ++ exact Hdone.
           ++ exists (ts ++ [res_type res]). split; [reflexivity | exact Hext].
      * rewrite !app_nil_r. unfold installed_by.
        destruct (Ctl.slot (controller_ s)); rewrite app_nil_r;
          exists done, cur; auto.
      * rewrite !app_nil_r. unfold installed_by.
        destruct (Ctl.slot (controller_ s)); rewrite app_nil_r;
          exists done, cur; auto.
    + (* any other step *)
      rewrite (step_polls_nothing e s s' oe Hne Hstep), app_nil_r.
      unfold installed_by.
      destruct (step_ctl e s s' oe Hne Hstep)
        as [Hsame|[(a & b & Ha & Hb & Hid & _)|(Hnone & b & Hb)]].
      * rewrite Hsame.
        destruct (Ctl.slot (controller_ s)); rewrite app_nil_r;
          exists done, cur; auto.
      * rewrite Ha, Hb, app_nil_r. rewrite Ha in Hcur.
        destruct Hcur as (ts & -> & Hts).
        exists done, [(Ctl.id a, ts)]. repeat split; auto.
        exists ts. rewrite Hid. auto.
      * rewrite Hnone, Hb. rewrite Hnone in Hcur. subst cur.
        rewrite app_nil_r in *.
        exists done, [(Ctl.id b, [])].
        split; [|split; [|split]].
        -- rewrite Hl, flat_map_app. simpl. rewrite app_nil_r. reflexivity.
        -- rewrite <- Hops, map_app. reflexivity.
        -- exact Hdone.
        -- exists []. split; reflexivity.
Qed.

Lemma types_of_app i l1 l2 :
  types_of i (l1 ++ l2) = types_of i l1 ++ types_of i l2.
Proof. unfold types_of. rewrite filter_app, map_app. reflexivity. Qed.

Lemma types_of_results i (b : block) :
  types_of i (results_of b) = if fst b =? i then snd b else [].
Proof.
  unfold types_of, results_of. destruct b as [j l]. simpl.
  induction l as [|t l IH]; simpl.
  - destruct (j =? i); reflexivity.
  - destruct (j =? i) eqn:E; simpl; rewrite IH; reflexivity.
Qed.

(** The results of an id for which at most one operation was installed
    are those of one block. *)
Lemma types_of_single i (bs : list block) :
  (count_occ Z.eq_dec (map fst bs) i <= 1)%nat ->
  types_of i (flat_map results_of bs) = []
  \/ exists b, In b bs /\ types_of i (flat_map results_of bs) = snd b.
Proof.
  induction bs as [|[j l] bs IH]; simpl; intros Hcount; [left; reflexivity|].
  rewrite types_of_app, types_of_results. simpl.
  destruct (Z.eq_dec j i) as [->|Hne].
  - rewrite Z.eqb_refl. right. exists (i, l). split; [left; reflexivity|].
    assert (Hnone : types_of i (flat_map results_of bs) = []).
    { assert (H0 : count_occ Z.eq_dec (map fst bs) i = 0%nat) by lia.
      clear -H0. induction bs as [|[k m] bs IH]; simpl in *; [reflexivity|].
      rewrite types_of_app, types_of_results. simpl.
      destruct (Z.eq_dec k i) as [->|Hk]; [discriminate|].
      apply Z.eqb_neq in Hk. rewrite Hk. simpl. apply IH. exact H0. }
    rewrite Hnone, app_nil_r. reflexivity.
  - apply Z.eqb_neq in Hne. rewrite Hne. simpl.
    destruct (IH Hcount) as [H|(b & Hin & H)].
    + left. exact H.
    + right. exists b. split; [right; exact Hin | exact H].
Qed.

Lemma finished_order l :
  finished l = true ->
  claimed_order l = true
  \/ l = [SPEECH_RES_CANCELLED] \/ l = [SPEECH_RES_ERROR].
Proof.
  destruct l as [|t l]; simpl; [discriminate|].
  destruct t; try discriminate.
  - intros H. left. induction l as [|x l IH]; simpl in *; [discriminate|].
    destruct x; try discriminate; auto.
  - destruct l; [auto | discriminate].
  - destruct l; [auto | discriminate].
Qed.

Lemma unfinished_order l : unfinished l = true -> claimed_order l = true.
Proof.
  destruct l as [|t l]; simpl; [reflexivity|].
  destruct t; try discriminate.
  induction l as [|x l IH]; simpl; [reflexivity|].
  destruct x; try discriminate. exact IH.
Qed.

(** C1, as amended: in every run of the engine, the stream of poll results
    is made of one block for each operation that was installed in the
    controller, in the order of installation, and every result of a block
    carries the id of its operation.  The block of an operation that was
    removed is finished: START, then zero or more INTER, then exactly one
    terminal result (END, CANCELLED or ERROR), or a bare CANCELLED or
    ERROR result without START; the block of the operation that is still
    installed is unfinished: empty, or START and INTER results.  So for an
    id for which one operation was installed, the types of its poll
    results are a prefix of START, INTER*, terminal, or a single CANCELLED
    or ERROR: at most one terminal result, and nothing behind it. *)
Theorem poll_results_segmented :
  forall (evs : list event) (s : SpeechImpl) (o : list obs),
    run evs new_speech = Some (s, o) ->
    (exists done cur : list block,
        polled o = flat_map results_of (done ++ cur)
        /\ map fst (done ++ cur) = installed evs new_speech
        /\ Forall (fun b => finished (snd b) = true) done
        /\ match Ctl.slot (controller_ s) with
           | Some op =>
               exists ts, cur = [(Ctl.id op, ts)] /\ unfinished ts = true
           | None => cur = []
           end)
    /\ forall id : Z,
        (count_occ Z.eq_dec (installed evs new_speech) id <= 1)%nat ->
        claimed_order (types_of id (polled o)) = true
        \/ types_of id (polled o) = [SPEECH_RES_CANCELLED]
        \/ types_of id (polled o) = [SPEECH_RES_ERROR].
Proof.
  intros evs s o Hrun.
  pose proof (run_served evs s o Hrun) as Hserved.
  split; [exact Hserved|].
  destruct Hserved as (done & cur & Hl & Hops & Hdone & Hcur).
  intros id Hcount. rewrite <- Hops in Hcount. rewrite Hl.
  destruct (types_of_single id (done ++ cur) Hcount) as [->|(b & Hin & ->)].
  - left. reflexivity.
  - apply in_app_or in Hin. destruct Hin as [Hin|Hin].
    + apply finished_order.
      rewrite Forall_forall in Hdone. exact (Hdone b Hin).
    + left. apply unfinished_order.
      destruct (Ctl.slot (controller_ s)) as [op|].
      * destruct Hcur as (ts & -> & Hts).
        destruct Hin as [<-|[]]. exact Hts.
      * subst cur. destruct Hin.
Qed.

(** The instance of [poll_results_segmented] at the text session of the
    specification's scenario 1: one operation, one block. *)
Lemma poll_results_segmented_witness :
  exists s o,
    run happy_text new_speech = Some (s, o)
    /\ installed happy_text new_speech = [1]
    /\ polled o = [ (1, SPEECH_RES_START); (1, SPEECH_RES_INTER);
                    (1, SPEECH_RES_END) ]
    /\ (claimed_order (types_of 1 (polled o)) = true
        \/ types_of 1 (polled o) = [SPEECH_RES_CANCELLED]
        \/ types_of 1 (polled o) = [SPEECH_RES_ERROR]).
Proof.
  assert (H : exists s o, run happy_text new_speech = Some (s, o)
                          /\ polled o = [ (1, SPEECH_RES_START);
                                          (1, SPEECH_RES_INTER);
                                          (1, SPEECH_RES_END) ]).
  { eexists. eexists. vm_compute. split; reflexivity. }
  destruct H as (s & o & Hrun & Hpolled).
  assert (Hops : installed happy_text new_speech = [1])
    by (vm_compute; reflexivity).
  exists s, o. split; [exact Hrun|]. split; [exact Hops|].
  split; [exact Hpolled|].
  apply (proj2 (poll_results_segmented happy_text s o Hrun) 1).
  rewrite Hops. simpl. lia.
Defined.

(** C1, as stated, fails.  The session that [start_voice] opens with id 1
    and that is cancelled before the sender takes its START gets the single
    poll result CANCELLED, and the session that [put_text] opens with id 1
    and whose request the transport refuses gets the single poll result
    ERROR: neither is a prefix of START, INTER*, terminal.  And [put_text]
    returns the id 1 in each of two prepared periods, so that the id gets
    two operations and two terminal results. *)
Lemma early_cancel_has_no_start :
  (exists s o,
      run (early_cancel ++ [EPoll]) new_speech = Some (s, o)
      /\ returned o = [1]
      /\ polled o = [ (1, SPEECH_RES_CANCELLED) ]
      /\ claimed_order (types_of 1 (polled o)) = false)
  /\ (exists s o,
         run failed_text_polled new_speech = Some (s, o)
         /\ returned o = [1]
         /\ polled o = [ (1, SPEECH_RES_ERROR) ]
         /\ claimed_order (types_of 1 (polled o)) = false)
  /\ (exists s o,
         run reused_id new_speech = Some (s, o)
         /\ returned o = [1; 1]
         /\ installed reused_id new_speech = [1; 1]
         /\ polled o = [ (1, SPEECH_RES_ERROR); (1, SPEECH_RES_ERROR) ]).
Proof.
  split; [|split]; eexists; eexists; vm_compute; repeat split.
Qed.

(** ** cancel *)

Lemma erase_streams {T A : Type} (i e : Z) (q : SQ.t T A) :
  SQ.streams (snd (SQ.erase i e q)) = SQ.forget i (SQ.streams q).
Proof. unfold SQ.erase. destruct (SQ.has_items i q); reflexivity. Qed.

Lemma fold_erase_streams {T A : Type} (ids : list Z) :
  forall q : SQ.t T A,
    (forall st, In st (SQ.streams q) -> In (SQ.st_id st) ids) ->
    SQ.streams (fold_left (fun q' id => snd (SQ.erase id 0 q')) ids q) = [].
Proof.
  induction ids as [|i ids IH]; simpl; intros q Hall.
  - destruct (SQ.streams q) as [|st l]; [reflexivity|].
    destruct (Hall st (or_introl eq_refl)).
  - apply IH. intros st Hin. rewrite erase_streams in Hin.
    unfold SQ.forget in Hin. apply filter_In in Hin. destruct Hin as [Hin Hne].
    destruct (Hall st Hin) as [Heq|Hids]; [|exact Hids].
    rewrite <- Heq, Z.eqb_refl in Hne. discriminate.
Qed.

Lemma clear_streams {T A : Type} (q : SQ.t T A) :
  SQ.streams (snd (SQ.clear q)) = [].
Proof.
  unfold SQ.clear. simpl. apply fold_erase_streams.
  intros st Hin. apply in_map. exact Hin.
Qed.

(** X12: [cancel] with an id that is not positive, on an initialized
    engine, marks every queued text request CANCELLED without removing or
    reordering any, leaves no voice session admitted in the request queue,
    and turns the installed operation, if there is one, CANCELLED, keeping
    its id; the buffered responses are left for [poll] to erase. *)
Theorem cancel_all_cancels_everything :
  forall (s : SpeechImpl) (id : Z),
    initialized_ s = true ->
    id <= 0 ->
    map req_id (text_reqs_ (fst (cancel id s))) = map req_id (text_reqs_ s)
    /\ Forall (fun r => req_type r = SpeechReqType.CANCELLED)
              (text_reqs_ (fst (cancel id s)))
    /\ SQ.streams (voice_reqs_ (fst (cancel id s))) = []
    /\ Ctl.slot (controller_ (fst (cancel id s)))
       = option_map (op_with_status SpeechStatus.CANCELLED)
                    (Ctl.slot (controller_ s))
    /\ responses_ (fst (cancel id s)) = responses_ s.
Proof.
  intros s id Hinit Hid.
  assert (Hlt : (0 <? id) = false) by (apply Z.ltb_ge; exact Hid).
  unfold cancel. rewrite Hinit, Hlt. simpl.
  pose proof (clear_streams (voice_reqs_ s)) as Hclear.
  assert (Hc : Ctl.cancel_op 0 (controller_ s)
               = (Ctl.set_status SpeechStatus.CANCELLED (controller_ s),
                  true)
               \/ (Ctl.slot (controller_ s) = None
                   /\ Ctl.cancel_op 0 (controller_ s) = (controller_ s, false))).
  { unfold Ctl.cancel_op. destruct (Ctl.slot (controller_ s)); auto. }
  destruct Hc as [Hc|[Hnone Hc]]; simpl; rewrite Hc; simpl.
  - split; [|split; [|split; [|split]]].
    + rewrite map_map. reflexivity.
    + apply Forall_map. apply Forall_forall. intros r _. reflexivity.
    + exact Hclear.
    + unfold Ctl.set_status.
      destruct (Ctl.slot (controller_ s)) as [op|] eqn:Hop; simpl; auto.
    + reflexivity.
  - split; [|split; [|split; [|split]]].
    + rewrite map_map. reflexivity.
    + apply Forall_map. apply Forall_forall. intros r _. reflexivity.
    + exact Hclear.
    + rewrite Hnone. reflexivity.
    + reflexivity.
Qed.

(** The instance of [cancel_all_cancels_everything] at two queued text
    requests. *)
Lemma cancel_all_cancels_everything_witness :
  map req_id (text_reqs_ (fst (cancel 0 (state_after two_texts_queued))))
  = [1; 2]
  /\ Forall (fun r => req_type r = SpeechReqType.CANCELLED)
            (text_reqs_ (fst (cancel 0 (state_after two_texts_queued)))).
Proof.
  destruct (cancel_all_cancels_everything (state_after two_texts_queued) 0)
    as (H1 & H2 & _).
  - vm_compute. reflexivity.
  - lia.
  - split; [rewrite H1; vm_compute; reflexivity | exact H2].
Defined.

Lemma cancel_text_split id l1 r l2 :
  Forall (fun x => req_id x <> id) l1 ->
  req_id r = id ->
  cancel_text id (l1 ++ r :: l2) = (true, l1 ++ as_cancelled r :: l2).
Proof.
  intros Hl1 Hr. induction Hl1 as [|x l1 Hx _ IH]; simpl.
  - rewrite Hr, Z.eqb_refl. reflexivity.
  - apply Z.eqb_neq in Hx. rewrite Hx, IH. reflexivity.
Qed.

(** X13: [cancel(id)] for a text request that is still queued (no voice
    entry of the id being queued) marks the first request of that id
    CANCELLED in place and does nothing else: the other requests, their
    order, the controller and the buffered responses are unchanged, and
    nobody is woken. *)
Theorem cancel_marks_queued_text :
  forall (s : SpeechImpl) (id : Z) (l1 l2 : list SpeechReqInfo)
         (r : SpeechReqInfo),
    initialized_ s = true ->
    0 < id ->
    SQ.has_items id (voice_reqs_ s) = false ->
    text_reqs_ s = l1 ++ r :: l2 ->
    req_id r = id ->
    Forall (fun x => req_id x <> id) l1 ->
    text_reqs_ (fst (cancel id s)) = l1 ++ as_cancelled r :: l2
    /\ controller_ (fst (cancel id s)) = controller_ s
    /\ responses_ (fst (cancel id s)) = responses_ s
    /\ snd (cancel id s) = [].
Proof.
  intros s id l1 l2 r Hinit Hid Hvoice Htext Hr Hl1.
  apply Z.ltb_lt in Hid.
  unfold cancel. rewrite Hinit, Hid. simpl.
  unfold SQ.erase. rewrite Hvoice. simpl.
  rewrite Htext, (cancel_text_split id l1 r l2 Hl1 Hr). simpl.
  repeat split.
Qed.

(** The instance of [cancel_marks_queued_text] at the second of two queued
    text requests. *)
Lemma cancel_marks_queued_text_witness :
  map req_type (text_reqs_ (fst (cancel 2 (state_after two_texts_queued))))
  = [SpeechReqType.TEXT; SpeechReqType.CANCELLED]
  /\ snd (cancel 2 (state_after two_texts_queued)) = [].
Proof.
  destruct (cancel_marks_queued_text (state_after two_texts_queued) 2
              [text_request_1] []
              {| req_id := 2; req_type := SpeechReqType.TEXT;
                 req_data := Some "b"; req_fsoptions := None |})
    as (H1 & _ & _ & H4).
  - vm_compute. reflexivity.
  - lia.
  - vm_compute. reflexivity.
  - vm_compute. reflexivity.
  - reflexivity.
  - repeat constructor. vm_compute. discriminate.
  - split; [rewrite H1; reflexivity | exact H4].
Defined.

(** ** The queue of text requests *)

Lemma reachable_ind (P : SpeechImpl -> Prop) :
  P new_speech ->
  (forall e s s' o, P s -> step e s = Some (s', o) -> P s') ->
  forall s, reachable s -> P s.
Proof.
  intros H0 Hstep s (evs & o & Hrun).
  revert Hrun. generalize new_speech at 1 as s0, H0. revert o.
  induction evs as [|e evs IH]; simpl; intros o s0 Hs0 Hrun.
  - inv_some. exact Hs0.
  - destruct (step e s0) as [[s1 o1]|] eqn:E; [|discriminate].
    destruct (run evs s1) as [[s2 o2]|] eqn:Hrest; [|discriminate].
    inv_some. eapply IH; [|exact Hrest]. eapply Hstep; eauto.
Qed.

Lemma cancel_text_ok id l :
  Forall text_ok l -> Forall text_ok (snd (cancel_text id l)).
Proof.
  induction 1 as [|r l Hr Hl IH]; simpl; [constructor|].
  destruct (req_id r =? id); simpl.
  - constructor; [|assumption].
    destruct Hr as (Hd & Hf & _). repeat split; auto.
  - destruct (cancel_text id l) as [found l']. simpl in *.
    constructor; assumption.
Qed.

Lemma as_cancelled_ok l : Forall text_ok l -> Forall text_ok (map as_cancelled l).
Proof.
  induction 1 as [|r l Hr _ IH]; simpl; constructor; [|assumption].
  destruct Hr as (Hd & Hf & _). repeat split; auto.
Qed.

Lemma step_text_ok e s s' o :
  Forall text_ok (text_reqs_ s) ->
  step e s = Some (s', o) ->
  Forall text_ok (text_reqs_ s').
Proof.
  intros Hok Hstep. destruct e; simpl in Hstep.
  - unfold prepare in Hstep. repeat break_match; inv_some; simpl; auto.
  - unfold release, release_req_section, release_resp_section in Hstep.
    repeat break_match; inv_some; simpl; auto; try discriminate.
  - inv_some. exact Hok.
  - unfold put_text, next_id in Hstep.
    repeat break_match; inv_some; simpl; auto.
    apply Forall_app. split; [exact Hok|].
    repeat constructor; simpl; auto. discriminate.
  - unfold start_voice, next_id in Hstep.
    repeat break_match; inv_some; simpl; auto.
  - unfold put_voice in Hstep. repeat break_match; inv_some; simpl; auto.
  - unfold end_voice in Hstep. repeat break_match; inv_some; simpl; auto.
  - unfold cancel in Hstep.
    destruct (negb (initialized_ s)); [inv_some; exact Hok|].
    destruct (0 <? id).
    + destruct (SQ.erase id 0 (voice_reqs_ s)) as [erased q].
      destruct erased; [inv_some; exact Hok|]. simpl in Hstep.
      pose proof (cancel_text_ok id (text_reqs_ s) Hok) as Hc.
      destruct (cancel_text id (text_reqs_ s)) as [found l].
      destruct found; [inv_some; exact Hc|].
      destruct (Ctl.cancel_op id (controller_ s)) as [c sig].
      inv_some. exact Hok.
    + destruct (SQ.clear (voice_reqs_ s)) as [m q]. simpl in Hstep.
      destruct (Ctl.cancel_op 0 (controller_ s)) as [c sig].
      inv_some. simpl. apply as_cancelled_ok. exact Hok.
  - unfold poll, poll_responses in Hstep.
    repeat break_match; inv_some; simpl; auto; discriminate.
  - unfold send_reqs_step in Hstep.
    destruct (sender_pc s) as [|info|i].
    + destruct (negb (initialized_ s)); [inv_some; exact Hok|].
      destruct (next_request s) as [[[info|] s1]|] eqn:Hnext;
        [| |discriminate].
      * assert (Hok1 : Forall text_ok (text_reqs_ s1)).
        { unfold next_request in Hnext.
          destruct (SQ.pop (voice_reqs_ s)) as [[c popped] q].
          destruct (0 <=? c).
          - destruct popped as [[[j voice] err]|]; [|discriminate].
            destruct (sqtype_to_reqtype c); [|discriminate].
            inv_some. exact Hok.
          - destruct (text_reqs_ s) as [|x rest]; inv_some.
            simpl. inversion Hok; assumption. }
        unfold do_ctl_change_op in Hstep.
        repeat break_match; inv_some; simpl; auto; discriminate.
      * unfold next_request in Hnext.
        destruct (SQ.pop (voice_reqs_ s)) as [[c popped] q].
        destruct (0 <=? c).
        -- destruct popped as [[[j voice] err]|]; [|discriminate].
           destruct (sqtype_to_reqtype c); discriminate.
        -- destruct (text_reqs_ s) as [|x rest] eqn:Ht; inv_some.
           rewrite Ht. constructor.
    + unfold do_request in Hstep.
      repeat break_match; inv_some; simpl; auto; discriminate.
    + repeat break_match; inv_some; simpl; auto.
  - unfold gen_results_step, gen_result_by_resp in Hstep.
    repeat break_match; inv_some; simpl; auto.
Qed.

(** X14: in every reachable state of the engine, every queued text
    request carries its text and no voice options, its kind is TEXT or
    CANCELLED, and [do_request] can build its wire message: the sender
    never dereferences a null pointer for a request from [text_reqs_]. *)
Theorem text_requests_are_well_formed :
  forall s : SpeechImpl,
    reachable s ->
    Forall text_ok (text_reqs_ s)
    /\ Forall (fun r => build_request r (config_ s) <> None) (text_reqs_ s).
Proof.
  intros s Hreach.
  assert (Hok : Forall text_ok (text_reqs_ s)).
  { revert s Hreach. apply reachable_ind.
    - constructor.
    - intros e s s' o. apply step_text_ok. }
  split; [exact Hok|].
  apply Forall_forall. intros r Hin.
  rewrite Forall_forall in Hok. destruct (Hok r Hin) as (Hd & _ & Hty).
  unfold build_request.
  destruct Hty as [-> | ->]; [|discriminate].
  destruct (req_data r); [discriminate | congruence].
Qed.

(** The instance of [text_requests_are_well_formed] at two queued text
    requests of which one was cancelled. *)
Lemma text_requests_are_well_formed_witness :
  Forall text_ok
         (text_reqs_ (state_after (two_texts_queued ++ [ECancel 1]))).
Proof.
  apply (text_requests_are_well_formed
           (state_after (two_texts_queued ++ [ECancel 1]))).
  exists (two_texts_queued ++ [ECancel 1]). eexists.
  vm_compute. reflexivity.
Defined.

(** * Further properties of the dispatcher *)

Section DispatcherMore.
Variable double : Type.
Variable format_int : Z -> string.
Variable format_double : double -> string.
Variable to_json_string : list (string * string) -> string.
Variable json_activation : string -> option string.
Variable cloud_vad_enable : bool.

Local Abbreviation onResponse_step :=
  (@VoiceService.onResponse_step double json_activation cloud_vad_enable).
Local Abbreviation onEvent :=
  (@VoiceService.onEvent double format_int format_double to_json_string
                         cloud_vad_enable).

(** X15: when the activation verdict is "fake" or "reject" after a pass of
    the response loop, that pass has delivered no [intermediate_result],
    no [voice_command], no [speech_error] and no VOICE_CANCEL event: it
    made at most the [voice_event] of the verdict and the request to put
    the siren to sleep, and the result was not a START result. *)
Theorem verdict_suppresses_calls :
  forall (sr : SpeechResult) (st : VoiceService.t double * VoiceService.locals),
    VoiceService.arbitration
      (VoiceService.activation (snd (fst (onResponse_step sr st)))) = true ->
    Forall (@is_verdict_call double) (snd (onResponse_step sr st))
    /\ res_type sr <> SPEECH_RES_START.
Proof.
  intros sr [v l]. unfold VoiceService.onResponse_step.
  destruct (res_type sr) eqn:Hty; simpl.
  - (* INTER *)
    destruct (negb (VoiceService.is_empty (res_extra sr))); simpl.
    + destruct (json_activation (res_extra sr)) as [a|]; simpl.
      * destruct (VoiceService.arbitration a) eqn:Ha; simpl.
        -- intros _. split; [repeat constructor|discriminate].
        -- rewrite Ha. discriminate.
      * destruct (VoiceService.arbitration (VoiceService.activation l))
          eqn:Ha; simpl; rewrite ?Ha; [|discriminate].
        intros _. split; [constructor|discriminate].
    + destruct (VoiceService.arbitration (VoiceService.activation l))
        eqn:Ha; simpl; rewrite ?Ha; [|discriminate].
      intros _. split; [constructor|discriminate].
  - (* START *)
    intros H. discriminate H.
  - (* END *)
    destruct (negb (VoiceService.is_empty (res_extra sr))); simpl.
    + destruct (json_activation (res_extra sr)) as [a|]; simpl.
      * destruct (VoiceService.arbitration a) eqn:Ha; simpl.
        -- intros _. split; [repeat constructor|discriminate].
        -- rewrite Ha. discriminate.
      * destruct (VoiceService.arbitration (VoiceService.activation l))
          eqn:Ha; simpl; rewrite ?Ha; [|discriminate].
        intros _. split; [constructor|discriminate].
    + destruct (VoiceService.arbitration (VoiceService.activation l))
        eqn:Ha; simpl; rewrite ?Ha; [|discriminate].
      intros _. split; [constructor|discriminate].
  - (* CANCELLED *)
    destruct (VoiceService.arbitration (VoiceService.activation l))
      eqn:Ha; simpl; rewrite ?Ha; [|discriminate].
    intros _. split; [constructor|discriminate].
  - (* ERROR *)
    destruct (VoiceService.arbitration (VoiceService.activation l))
      eqn:Ha; simpl.
    + intros _. split; [constructor|discriminate].
    + destruct (res_err sr); simpl; rewrite ?Ha; discriminate.
Qed.

(** One pass of the response loop after a "fake" or "reject" verdict,
    for a result that is not a START result and carries no activation:
    no call, and the verdict stays. *)
Lemma onResponse_step_silent :
  forall (sr : SpeechResult) (v : VoiceService.t double)
         (l : VoiceService.locals),
    VoiceService.arbitration (VoiceService.activation l) = true ->
    res_type sr <> SPEECH_RES_START ->
    json_activation (res_extra sr) = None ->
    snd (onResponse_step sr (v, l)) = []
    /\ snd (fst (onResponse_step sr (v, l))) = l.
Proof.
  intros sr v l Ha Hty Hj. unfold VoiceService.onResponse_step.
  rewrite Hj.
  destruct (res_type sr) eqn:E; try (destruct (Hty eq_refl)); simpl;
    try (destruct (negb (VoiceService.is_empty (res_extra sr))); simpl);
    rewrite ?Ha; simpl; split; reflexivity.
Qed.

(** X16: once the verdict of the response loop is "fake" or "reject", the
    loop calls nothing on the application for the results that follow, up
    to the next START result or the next result that carries an
    activation: the INTER, END, CANCELLED and ERROR results of the
    session are all swallowed, also the terminal one, and the verdict is
    kept. *)
Theorem rejected_session_is_silent :
  forall (srs : list SpeechResult) (v : VoiceService.t double)
         (l : VoiceService.locals),
    VoiceService.arbitration (VoiceService.activation l) = true ->
    Forall (fun sr => res_type sr <> SPEECH_RES_START
                      /\ json_activation (res_extra sr) = None) srs ->
    snd (@VoiceService.onResponse_loop double json_activation
           cloud_vad_enable srs (v, l)) = []
    /\ snd (fst (@VoiceService.onResponse_loop double json_activation
                   cloud_vad_enable srs (v, l))) = l.
Proof.
  induction srs as [|sr srs IH]; intros v l Ha Hall.
  - split; reflexivity.
  - cbn [VoiceService.onResponse_loop].
    pose proof (Forall_inv Hall) as [Hty Hj].
    pose proof (Forall_inv_tail Hall) as Hrest.
    destruct (onResponse_step_silent sr v l Ha Hty Hj) as [Hc Hl].
    destruct (onResponse_step sr (v, l)) as [[v1 l1] c1] eqn:E1.
    simpl in Hc, Hl. subst c1 l1.
    destruct (IH v1 l Ha Hrest) as [Hc2 Hl2].
    destruct (VoiceService.onResponse_loop _ _ srs (v1, l))
      as [[v2 l2] c2] eqn:E2.
    simpl in *. subst. split; reflexivity.
Qed.

(** X17: a VAD_START event does nothing while a session is active (the
    session id is not negative); with no active session it stores what
    [vad_start] returns as the session id and delivers exactly one
    VOICE_START event with that id.  When the speech state is not
    PREPARED the id is -1 and the engine and the voice-trigger record are
    left alone; when it is PREPARED the voice-trigger record is consumed,
    and the id is -1 with the engine left alone when the engine is not
    initialized. *)
Theorem vad_start_reports_session :
  forall (v : VoiceService.t double) (e : VoiceService.voice_event_t double),
    VoiceService.event e = VoiceService.SIREN_EVENT_VAD_START ->
    if VoiceService.session_id v <? 0 then
      snd (onEvent e v)
      = [ VoiceService.voice_event
            (VoiceService.session_id (fst (onEvent e v)))
            (VoiceService.Enumerator "VOICE_START") None ]
      /\ (if VoiceService.speech_prepared v
          then VoiceService.vt (fst (onEvent e v)) = None
               /\ (if initialized_ (VoiceService._speech v) then True
                   else VoiceService.session_id (fst (onEvent e v)) = -1
                        /\ VoiceService._speech (fst (onEvent e v))
                           = VoiceService._speech v)
          else VoiceService.session_id (fst (onEvent e v)) = -1
               /\ VoiceService._speech (fst (onEvent e v))
                  = VoiceService._speech v
               /\ VoiceService.vt (fst (onEvent e v)) = VoiceService.vt v)
    else onEvent e v = (v, []).
Proof.
  intros v e He. unfold VoiceService.onEvent. rewrite He.
  destruct (VoiceService.session_id v <? 0); [|reflexivity].
  unfold VoiceService.vad_start.
  destruct (VoiceService.speech_prepared v); simpl.
  - unfold start_voice.
    destruct (initialized_ (VoiceService._speech v)); simpl.
    + destruct (SQ.start _ _) as [ok q]. destruct ok; simpl; repeat split.
    + repeat split.
  - repeat split.
Qed.

End DispatcherMore.

(** The instance of [verdict_suppresses_calls] at a CANCELLED result that
    follows a "fake" verdict, with no activation in any result. *)
Lemma verdict_suppresses_calls_witness :
  Forall (@is_verdict_call unit)
    (snd (VoiceService.onResponse_step (fun _ => None) false
            (bare_result 1 SPEECH_RES_CANCELLED SPEECH_SUCCESS)
            (service_with_session unit 1,
             {| VoiceService.activation := "fake";
                VoiceService.asr := "" |}))).
Proof.
  exact (proj1 (verdict_suppresses_calls unit (fun _ => None) false
                  (bare_result 1 SPEECH_RES_CANCELLED SPEECH_SUCCESS)
                  (service_with_session unit 1,
                   {| VoiceService.activation := "fake";
                      VoiceService.asr := "" |}) eq_refl)).
Defined.

(** The instance of [rejected_session_is_silent] at a session that ends
    with an error after a "reject" verdict. *)
Lemma rejected_session_is_silent_witness :
  snd (VoiceService.onResponse_loop (fun _ => None) false
         [ bare_result 1 SPEECH_RES_INTER SPEECH_SUCCESS;
           bare_result 1 SPEECH_RES_ERROR SPEECH_SERVER_INTERNAL ]
         (service_with_session unit 1,
          {| VoiceService.activation := "reject";
             VoiceService.asr := "" |})) = [].
Proof.
  refine (proj1 (rejected_session_is_silent unit (fun _ => None) false
                   [ bare_result 1 SPEECH_RES_INTER SPEECH_SUCCESS;
                     bare_result 1 SPEECH_RES_ERROR SPEECH_SERVER_INTERNAL ]
                   (service_with_session unit 1)
                   {| VoiceService.activation := "reject";
                      VoiceService.asr := "" |} eq_refl _)).
  repeat constructor; discriminate.
Defined.

(** The instance of [vad_start_reports_session] at a dispatcher without
    session whose engine is not initialized. *)
Lemma vad_start_reports_session_witness :
  snd (VoiceService.onEvent (fun _ => "0") (fun _ => "0") (fun _ => "{}")
         false (plain_event VoiceService.SIREN_EVENT_VAD_START tt)
         (service_with_session unit (-1)))
  = [ VoiceService.voice_event (-1)
        (VoiceService.Enumerator "VOICE_START") None ].
Proof.
  exact (proj1 (vad_start_reports_session unit (fun _ => "0") (fun _ => "0")
                  (fun _ => "{}") false (service_with_session unit (-1))
                  (plain_event VoiceService.SIREN_EVENT_VAD_START tt)
                  eq_refl)).
Defined.

(** * The siren and the network state *)

Section ControlFacts.
Variable double : Type.
Implicit Types (c : VoiceControl.t double) (k : VoiceControl.control_call)
  (ks : list VoiceControl.control_call) (effs : list VoiceControl.effect).

Lemma streaming_after_app on effs1 effs2 :
  VoiceControl.streaming_after on (effs1 ++ effs2)
  = match VoiceControl.streaming_after on effs1 with
    | Some on1 => VoiceControl.streaming_after on1 effs2
    | None => None
    end.
Proof.
  revert on. induction effs1 as [|e effs1 IH]; intros on; simpl.
  - reflexivity.
  - destruct e; try apply IH; destruct on; try reflexivity; apply IH.
Qed.

(** The engine's actions do not touch the stream of the siren. *)
Lemma streaming_after_speech on (acts : list action) effs :
  VoiceControl.streaming_after on (map VoiceControl.Speech acts ++ effs)
  = VoiceControl.streaming_after on effs.
Proof.
  induction acts as [|a acts IH]; simpl; auto.
Qed.

Lemma control_step_streams k c :
  VoiceControl.streaming_after
    (VoiceControl.is_started (VoiceControl.mCurrentSirenState c))
    (snd (VoiceControl.control_step k c))
  = Some (VoiceControl.is_started
            (VoiceControl.mCurrentSirenState
               (snd (fst (VoiceControl.control_step k c))))).
Proof.
  destruct k as [ok|b|b entries ok|a];
    cbn [VoiceControl.control_step].
  - unfold VoiceControl.init.
    destruct (VoiceControl.mCurrentSirenState c) eqn:E; simpl;
      try (rewrite E; reflexivity).
    destruct ok; simpl; rewrite ?E; reflexivity.
  - unfold VoiceControl.start_siren.
    destruct b, (VoiceControl.mCurrentSirenState c) eqn:E; simpl;
      rewrite ?E; reflexivity.
  - unfold VoiceControl.network_state_change.
    destruct b, (VoiceService.speech_prepared (VoiceControl.service c));
      cbn [andb negb]; try reflexivity.
    + destruct ok; [|reflexivity].
      destruct (prepare _) as [[r s2] acts].
      cbn [fst snd VoiceControl.mCurrentSirenState].
      rewrite streaming_after_speech.
      destruct (VoiceControl.openSiren c),
        (VoiceControl.mCurrentSirenState c); reflexivity.
    + destruct (release _) as [[returned s1] acts].
      cbn [fst snd VoiceControl.mCurrentSirenState].
      rewrite <- (app_nil_r (map VoiceControl.Speech acts)).
      destruct (VoiceControl.mCurrentSirenState c); cbn;
        rewrite streaming_after_speech; reflexivity.
  - reflexivity.
Qed.

(** X18: the control functions keep [mCurrentSirenState] in step with the
    stream of the siren.  Over every sequence of calls of [init],
    [start_siren], [network_state_change] and [update_stack], the stream
    is never started while it is being processed nor stopped while it is
    not, and at the end it is being processed exactly when the state is
    STARTED. *)
Theorem siren_stream_follows_state :
  forall ks c,
    VoiceControl.streaming_after
      (VoiceControl.is_started (VoiceControl.mCurrentSirenState c))
      (snd (VoiceControl.control_run ks c))
    = Some (VoiceControl.is_started
              (VoiceControl.mCurrentSirenState
                 (fst (VoiceControl.control_run ks c)))).
Proof.
  induction ks as [|k ks IH]; intros c.
  - reflexivity.
  - cbn [VoiceControl.control_run].
    pose proof (control_step_streams k c) as Hk.
    destruct (VoiceControl.control_step k c) as [[returned c1] e1].
    cbn [fst snd] in Hk.
    destruct returned; [|exact Hk].
    specialize (IH c1).
    destruct (VoiceControl.control_run ks c1) as [c2 e2].
    cbn [fst snd] in *.
    rewrite streaming_after_app, Hk. exact IH.
Qed.

(** X19: [start_siren] in state UNKNOWN changes nothing, not even
    [openSiren]; in any other state [start_siren(isopen)] leaves the siren
    STARTED exactly when [isopen] holds, and [openSiren] false when it
    does not; it starts or stops the stream at most once; and a second
    call with the same argument changes nothing and has no effect. *)
Theorem start_siren_settles :
  forall (isopen : bool) c,
    let c1 := fst (VoiceControl.start_siren isopen c) in
    VoiceControl.start_siren isopen c1 = (c1, [])
    /\ (List.length (snd (VoiceControl.start_siren isopen c)) <= 1)%nat
    /\ if VoiceControl.is_unknown (VoiceControl.mCurrentSirenState c)
       then VoiceControl.start_siren isopen c = (c, [])
       else VoiceControl.is_started (VoiceControl.mCurrentSirenState c1)
            = isopen
            /\ VoiceControl.openSiren c1
               = isopen
                 && (VoiceControl.openSiren c
                     || VoiceControl.startable
                          (VoiceControl.mCurrentSirenState c)).
Proof.
  intros isopen [v st opn]. unfold VoiceControl.start_siren.
  destruct isopen, st; cbn; repeat split; auto.
  all: destruct opn; reflexivity.
Qed.

Lemma control_step_open k c :
  implb (VoiceControl.is_started (VoiceControl.mCurrentSirenState c))
        (VoiceControl.openSiren c) = true ->
  implb (VoiceControl.is_started
           (VoiceControl.mCurrentSirenState
              (snd (fst (VoiceControl.control_step k c)))))
        (VoiceControl.openSiren (snd (fst (VoiceControl.control_step k c))))
  = true.
Proof.
  intros Hc.
  destruct k as [ok|b|b entries ok|a];
    cbn [VoiceControl.control_step].
  - unfold VoiceControl.init.
    destruct (VoiceControl.mCurrentSirenState c) eqn:E; simpl;
      rewrite ?E; try exact Hc; try reflexivity.
    destruct ok; simpl; rewrite ?E; reflexivity.
  - unfold VoiceControl.start_siren.
    destruct b, (VoiceControl.mCurrentSirenState c) eqn:E; simpl;
      try reflexivity; simpl in Hc; exact Hc.
  - unfold VoiceControl.network_state_change.
    destruct b, (VoiceService.speech_prepared (VoiceControl.service c));
      cbn [andb negb]; try exact Hc.
    + destruct ok; [|exact Hc].
      destruct (prepare _) as [[r s2] acts].
      cbn [fst snd VoiceControl.mCurrentSirenState
             VoiceControl.openSiren].
      destruct (VoiceControl.openSiren c),
        (VoiceControl.mCurrentSirenState c); simpl in *;
        try reflexivity; exact Hc.
    + destruct (release _) as [[returned s1] acts].
      cbn [fst snd VoiceControl.mCurrentSirenState
             VoiceControl.openSiren].
      destruct (VoiceControl.mCurrentSirenState c); simpl in *;
        try reflexivity; exact Hc.
  - exact Hc.
Qed.

(** X20: the siren is STARTED only while [openSiren] holds: when this is
    so before a sequence of calls of [init], [start_siren],
    [network_state_change] and [update_stack], it is so after it. *)
Theorem started_siren_is_open :
  forall ks c,
    implb (VoiceControl.is_started (VoiceControl.mCurrentSirenState c))
          (VoiceControl.openSiren c) = true ->
    implb (VoiceControl.is_started
             (VoiceControl.mCurrentSirenState
                (fst (VoiceControl.control_run ks c))))
          (VoiceControl.openSiren (fst (VoiceControl.control_run ks c)))
    = true.
Proof.
  induction ks as [|k ks IH]; intros c Hc.
  - exact Hc.
  - cbn [VoiceControl.control_run].
    pose proof (control_step_open k c Hc) as Hk.
    destruct (VoiceControl.control_step k c) as [[returned c1] e1].
    cbn [fst snd] in Hk.
    destruct returned; [|exact Hk].
    specialize (IH c1 Hk).
    destruct (VoiceControl.control_run ks c1) as [c2 e2].
    exact IH.
Qed.








(** One call of a control function creates the event thread only when it
    takes the siren out of state UNKNOWN, and none puts it back there. *)
Lemma control_step_event_thread k c :
  (List.length
     (filter (fun e => match e with
                       | VoiceControl.SpawnEventThread => true
                       | _ => false
                       end) (snd (VoiceControl.control_step k c)))
   + (if VoiceControl.is_unknown
           (VoiceControl.mCurrentSirenState
              (snd (fst (VoiceControl.control_step k c))))
      then 1 else 0)
   <= (if VoiceControl.is_unknown (VoiceControl.mCurrentSirenState c)
       then 1 else 0))%nat.
Proof.
  assert (Hspeech : forall acts,
             filter (fun e => match e with
                              | VoiceControl.SpawnEventThread => true
                              | _ => false
                              end) (map VoiceControl.Speech acts) = []).
  { induction acts as [|a acts IH]; simpl; auto. }
  destruct k as [ok|b|b entries ok|a];
    cbn [VoiceControl.control_step].
  - unfold VoiceControl.init.
    destruct (VoiceControl.mCurrentSirenState c) eqn:E; simpl;
      rewrite ?E; simpl; try lia.
    destruct ok; simpl; rewrite ?E; simpl; lia.
  - unfold VoiceControl.start_siren.
    destruct b, (VoiceControl.mCurrentSirenState c) eqn:E; simpl; lia.
  - unfold VoiceControl.network_state_change.
    destruct b, (VoiceService.speech_prepared (VoiceControl.service c));
      cbn [andb negb]; simpl; try lia.
    + destruct ok; simpl; [|lia].
      destruct (prepare _) as [[r s2] acts].
      cbn [fst snd VoiceControl.mCurrentSirenState].
      rewrite !filter_app, Hspeech.
      destruct (VoiceControl.openSiren c),
        (VoiceControl.mCurrentSirenState c); simpl; lia.
    + destruct (release _) as [[returned s1] acts].
      cbn [fst snd VoiceControl.mCurrentSirenState].
      rewrite !filter_app, Hspeech.
      destruct (VoiceControl.mCurrentSirenState c); simpl; lia.
  - simpl. lia.
Qed.

(** X22: the event thread is created at most once.  Over every sequence
    of calls of the control functions, [pthread_create] of [onEvent] runs
    at most once when the siren starts in state UNKNOWN and never when it
    starts in another state: a failed [init] can be repeated, a
    successful one cannot, and nothing takes the siren back to
    UNKNOWN. *)
Theorem event_thread_is_created_once :
  forall ks c,
    (List.length
       (filter (fun e => match e with
                         | VoiceControl.SpawnEventThread => true
                         | _ => false
                         end) (snd (VoiceControl.control_run ks c)))
     <= (if VoiceControl.is_unknown (VoiceControl.mCurrentSirenState c)
         then 1 else 0))%nat
    /\ implb (VoiceControl.is_unknown
                (VoiceControl.mCurrentSirenState
                   (fst (VoiceControl.control_run ks c))))
             (VoiceControl.is_unknown (VoiceControl.mCurrentSirenState c))
       = true.
Proof.
  induction ks as [|k ks IH]; intros c.
  - simpl. split; [lia|].
    destruct (VoiceControl.is_unknown (VoiceControl.mCurrentSirenState c));
      reflexivity.
  - cbn [VoiceControl.control_run].
    pose proof (control_step_event_thread k c) as Hk.
    destruct (VoiceControl.control_step k c) as [[returned c1] e1].
    cbn [fst snd] in Hk.
    destruct returned.
    + destruct (IH c1) as [IHn IHu].
      destruct (VoiceControl.control_run ks c1) as [c2 e2].
      cbn [fst snd] in *. rewrite filter_app, length_app. split.
      * destruct (VoiceControl.is_unknown
                    (VoiceControl.mCurrentSirenState c1)); lia.
      * destruct (VoiceControl.is_unknown
                    (VoiceControl.mCurrentSirenState c2)); [|reflexivity].
        simpl in IHu. rewrite IHu in Hk.
        destruct (VoiceControl.is_unknown
                    (VoiceControl.mCurrentSirenState c));
          [reflexivity|lia].
    + cbn [fst snd]. split.
      * destruct (VoiceControl.is_unknown
                    (VoiceControl.mCurrentSirenState c1)); lia.
      * destruct (VoiceControl.is_unknown
                    (VoiceControl.mCurrentSirenState c1)); [|reflexivity].
        destruct (VoiceControl.is_unknown
                    (VoiceControl.mCurrentSirenState c));
          [reflexivity|lia].
Qed.
End ControlFacts.

(** The instance of [started_siren_is_open] at a service that is
    connected with its siren started, when the siren is closed and the
    network goes down and comes back. *)
Lemma started_siren_is_open_witness :
  implb (VoiceControl.is_started
           (VoiceControl.mCurrentSirenState
              (fst (VoiceControl.control_run
                      [ VoiceControl.CallStartSiren false;
                        VoiceControl.CallNetwork false [] true;
                        VoiceControl.CallNetwork true [] true ]
                      (control_started unit)))))
        (VoiceControl.openSiren
           (fst (VoiceControl.control_run
                   [ VoiceControl.CallStartSiren false;
                     VoiceControl.CallNetwork false [] true;
                     VoiceControl.CallNetwork true [] true ]
                   (control_started unit))))
  = true.
Proof.
  apply (started_siren_is_open unit). reflexivity.
Defined.

